(** * The relationship graph of the record-data package

    A shallow embedding of [relationships/state/graph.ts] (the [Graph] class
    with its batched flush, and [graphFor]), of the two revisions of
    [record-data-for.ts], and of the identifier cache that
    [DefaultStore.createRecordDataFor] consults.

    JavaScript objects are kept in a store of typed heaps indexed by
    references, so that aliasing and reference equality are explicit.  Code
    that may throw runs in a state-and-error monad over that store. *)

From stdpp Require Import gmap strings list fin_maps.

(** References to objects.  Store wrappers and stable record identifiers are
    objects owned by the caller; the graph only compares them by reference. *)
Abbreviation Ref := positive (only parsing).

(** [relationship.kind], the key into [_queued]. *)
Inductive RelationshipKind := BelongsTo | HasMany.

#[global] Instance RelationshipKind_eq_dec : EqDecision RelationshipKind.
Proof. solve_decision. Defined.

(** [{ belongsTo: any[]; hasMany: any[] }]: the two arrays are objects of their
    own, held by reference. *)
Record Queued := { belongsTo : Ref; hasMany : Ref }.

(** class Graph *)
Record Graph := {
  _queued : Queued;
  _nextFlush : bool;
  identifiers : gmap Ref Ref;
  implicitMap : gmap Ref Ref;
  storeWrapper : Ref;
}.

(** The [Relationships] container built by [new Relationships(graph, identifier)]. *)
Record Relationships := {
  rs_graph : Ref;
  rs_identifier : Ref;
  initializedRelationships : gmap string Ref;
}.

(** The values a caller may pass where the signature asks for an identifier
    or a property name. *)
Inductive Value :=
| VUndefined
| VNull
| VString (s : string)
| VObject (r : Ref).

(** [!v] is [negb (truthy v)]. *)
Definition truthy (v : Value) : bool :=
  match v with
  | VUndefined | VNull => false
  | VString s => negb (bool_decide (s = EmptyString))
  | VObject _ => true
  end.

(** What the older calling convention reads off its first argument:
    [internalModel.identifier] and [internalModel._recordData.storeWrapper]. *)
Record InternalModel := {
  im_identifier : Ref;
  im_storeWrapper : Ref;
}.

Section GraphModel.

(** [JsonApiRelationship]: the graph stores and forwards payloads and never
    looks inside one. *)
Context {JsonApiRelationship : Type}.

(** An element of one of the [any[]] queues. *)
Inductive Slot :=
| SRelationship (r : Ref)
| SPayload (p : JsonApiRelationship).

(** A relationship state machine.  Its class is not part of the graph module;
    of its state the graph needs the [kind] and the back reference to its
    graph, and [canonicalPushes] records every payload handed to
    [push(payload)], oldest first. *)
Record Relationship := {
  kind : RelationshipKind;
  rel_graph : Ref;
  rel_identifier : Ref;
  rel_key : string;
  canonicalPushes : list JsonApiRelationship;
}.

(** The store of objects. [Graphs] is the module-level [WeakMap];
    [flushRelationships] is the run loop's queue of that name, holding the
    graphs whose [flush] is scheduled, and [inRunLoop] tells whether a run
    loop is open ([backburner.currentInstance] is not [null]).  [applied] and
    [enqueued] are instrumentation, oldest first: the calls
    [relationship.push(payload)] made so far, and the calls
    [graph._queued[kind].push(relationship, payload)]. *)
Record World := {
  Graphs : gmap Ref Ref;
  graphs : gmap Ref Graph;
  containers : gmap Ref Relationships;
  relationships : gmap Ref Relationship;
  dicts : gmap Ref (gmap string Ref);
  arrays : gmap Ref (list Slot);
  flushRelationships : list Ref;
  applied : list (Ref * JsonApiRelationship);
  enqueued : list (Ref * RelationshipKind * Ref * JsonApiRelationship);
  next_ref : Ref;
  inRunLoop : bool;
}.

Definition init : World :=
  {| Graphs := ∅; graphs := ∅; containers := ∅; relationships := ∅; dicts := ∅;
     arrays := ∅; flushRelationships := []; applied := []; enqueued := [];
     next_ref := 1%positive; inRunLoop := false |}.

Definition with_Graphs (f : gmap Ref Ref → gmap Ref Ref) (w : World) : World :=
  {| Graphs := f (Graphs w); graphs := graphs w; containers := containers w;
     relationships := relationships w; dicts := dicts w; arrays := arrays w;
     flushRelationships := flushRelationships w; applied := applied w;
     enqueued := enqueued w; next_ref := next_ref w;
     inRunLoop := inRunLoop w |}.

Definition with_graphs (f : gmap Ref Graph → gmap Ref Graph) (w : World) : World :=
  {| Graphs := Graphs w; graphs := f (graphs w); containers := containers w;
     relationships := relationships w; dicts := dicts w; arrays := arrays w;
     flushRelationships := flushRelationships w; applied := applied w;
     enqueued := enqueued w; next_ref := next_ref w;
     inRunLoop := inRunLoop w |}.

Definition with_containers
    (f : gmap Ref Relationships → gmap Ref Relationships) (w : World) : World :=
  {| Graphs := Graphs w; graphs := graphs w; containers := f (containers w);
     relationships := relationships w; dicts := dicts w; arrays := arrays w;
     flushRelationships := flushRelationships w; applied := applied w;
     enqueued := enqueued w; next_ref := next_ref w;
     inRunLoop := inRunLoop w |}.

Definition with_relationships
    (f : gmap Ref Relationship → gmap Ref Relationship) (w : World) : World :=
  {| Graphs := Graphs w; graphs := graphs w; containers := containers w;
     relationships := f (relationships w); dicts := dicts w; arrays := arrays w;
     flushRelationships := flushRelationships w; applied := applied w;
     enqueued := enqueued w; next_ref := next_ref w;
     inRunLoop := inRunLoop w |}.

Definition with_dicts
    (f : gmap Ref (gmap string Ref) → gmap Ref (gmap string Ref)) (w : World) : World :=
  {| Graphs := Graphs w; graphs := graphs w; containers := containers w;
     relationships := relationships w; dicts := f (dicts w); arrays := arrays w;
     flushRelationships := flushRelationships w; applied := applied w;
     enqueued := enqueued w; next_ref := next_ref w;
     inRunLoop := inRunLoop w |}.

Definition with_arrays
    (f : gmap Ref (list Slot) → gmap Ref (list Slot)) (w : World) : World :=
  {| Graphs := Graphs w; graphs := graphs w; containers := containers w;
     relationships := relationships w; dicts := dicts w; arrays := f (arrays w);
     flushRelationships := flushRelationships w; applied := applied w;
     enqueued := enqueued w; next_ref := next_ref w;
     inRunLoop := inRunLoop w |}.

Definition with_flushRelationships (f : list Ref → list Ref) (w : World) : World :=
  {| Graphs := Graphs w; graphs := graphs w; containers := containers w;
     relationships := relationships w; dicts := dicts w; arrays := arrays w;
     flushRelationships := f (flushRelationships w); applied := applied w;
     enqueued := enqueued w; next_ref := next_ref w;
     inRunLoop := inRunLoop w |}.

Definition with_applied
    (f : list (Ref * JsonApiRelationship) → list (Ref * JsonApiRelationship))
    (w : World) : World :=
  {| Graphs := Graphs w; graphs := graphs w; containers := containers w;
     relationships := relationships w; dicts := dicts w; arrays := arrays w;
     flushRelationships := flushRelationships w; applied := f (applied w);
     enqueued := enqueued w; next_ref := next_ref w;
     inRunLoop := inRunLoop w |}.

Definition with_enqueued
    (f : list (Ref * RelationshipKind * Ref * JsonApiRelationship) →
         list (Ref * RelationshipKind * Ref * JsonApiRelationship))
    (w : World) : World :=
  {| Graphs := Graphs w; graphs := graphs w; containers := containers w;
     relationships := relationships w; dicts := dicts w; arrays := arrays w;
     flushRelationships := flushRelationships w; applied := applied w;
     enqueued := f (enqueued w); next_ref := next_ref w;
     inRunLoop := inRunLoop w |}.

Definition with_next_ref (f : Ref → Ref) (w : World) : World :=
  {| Graphs := Graphs w; graphs := graphs w; containers := containers w;
     relationships := relationships w; dicts := dicts w; arrays := arrays w;
     flushRelationships := flushRelationships w; applied := applied w;
     enqueued := enqueued w; next_ref := f (next_ref w);
     inRunLoop := inRunLoop w |}.

Definition with_inRunLoop (f : bool → bool) (w : World) : World :=
  {| Graphs := Graphs w; graphs := graphs w; containers := containers w;
     relationships := relationships w; dicts := dicts w; arrays := arrays w;
     flushRelationships := flushRelationships w; applied := applied w;
     enqueued := enqueued w; next_ref := next_ref w;
     inRunLoop := f (inRunLoop w) |}.

(** ** The monad of code that reads and writes the store and may throw *)

Definition M (A : Type) : Type := World → option (A * World).

Definition ret {A} (a : A) : M A := λ w, Some (a, w).

Definition bind {A B} (m : M A) (k : A → M B) : M B :=
  λ w, match m w with
       | Some (a, w') => k a w'
       | None => None
       end.

(** A [TypeError] (or a loop that outlives its fuel). *)
Definition throw {A} : M A := λ _, None.

Definition gets {A} (f : World → A) : M A := λ w, Some (f w, w).

Definition modify (f : World → World) : M unit := λ w, Some (tt, f w).

(** Dereference: a property read on [undefined] throws. *)
Definition deref {A} (f : World → option A) : M A :=
  λ w, match f w with
       | Some a => Some (a, w)
       | None => None
       end.

#[local] Instance M_ret : MRet M := @ret.
#[local] Instance M_bind : MBind M := λ A B k m, bind m k.

Fixpoint forEach {A} (f : A → M unit) (l : list A) : M unit :=
  match l with
  | [] => ret tt
  | x :: l' => f x;; forEach f l'
  end.

(** Allocation of a new object: a reference never handed out before. *)
Definition alloc : M Ref :=
  λ w, Some (next_ref w, with_next_ref Pos.succ w).

(** ** The parts of the package the graph calls into *)

(** The relationship definitions of the schema
    ([storeWrapper.relationshipsDefinitionFor]): the kind of the relationship
    that a field name denotes on an identifier's type. *)
Variable relationshipKind : Ref → string → RelationshipKind.

(** What [Relationship.push] does besides updating its own state is not fixed
    by the graph module.  [reenter w r payload] lists the calls
    [this.graph.push(identifier, propertyName, payload')] that relationship
    [r] makes while it processes [payload] in store [w]. *)
Variable reenter :
  World → Ref → JsonApiRelationship → list (Ref * string * JsonApiRelationship).

(** Modelled from the spec: the constructor of the [Relationships] container
    ("per-entity mapping from relationship name to its Relationship state
    machine"), whose class is imported from [./create].  A new container knows
    its graph and its identifier and has no relationship yet. *)
Definition new_Relationships (graph identifier : Ref) : M Ref :=
  c ← alloc;
  modify (with_containers
    <[c := {| rs_graph := graph; rs_identifier := identifier;
              initializedRelationships := ∅ |}]>);;
  ret c.

(** Modelled from the spec: [Relationships.get(propertyName)], imported from
    [./create]: the relationship of that name "materializes lazily the first
    time the name is accessed" and is the same object from then on. *)
Definition Relationships_get (c : Ref) (propertyName : string) : M Ref :=
  C ← deref (λ w, containers w !! c);
  match initializedRelationships C !! propertyName with
  | Some r => ret r
  | None =>
      r ← alloc;
      modify (with_relationships
        <[r := {| kind := relationshipKind (rs_identifier C) propertyName;
                  rel_graph := rs_graph C;
                  rel_identifier := rs_identifier C;
                  rel_key := propertyName;
                  canonicalPushes := [] |}]>);;
      modify (with_containers
        <[c := {| rs_graph := rs_graph C; rs_identifier := rs_identifier C;
                  initializedRelationships :=
                    <[propertyName := r]> (initializedRelationships C) |}]>);;
      ret r
  end.

(** ** The run loop

    [backburner] is the run loop of the store ([storeWrapper._store.
    _backburner]), a library the graph calls; what follows is its documented
    behaviour for the three entry points that the graph reaches. *)

(** [backburner.schedule('flushRelationships', graph, graph.flush)], called
    while a run loop is open: the task is appended to the queue of that name
    of the open loop, to run when the loop ends.  [schedule], unlike
    [scheduleOnce], does not look for the task in the queue. *)
Definition schedule (graph : Ref) : M unit :=
  modify (with_flushRelationships (λ q, q ++ [graph])).

(** [backburner.begin()]: a run loop opens.  A loop inside a loop, which
    [backburner.run] called inside a run loop would open, does not occur:
    the graph only ever calls [join]. *)
Definition begin : M unit := modify (with_inRunLoop (λ _, true)).

(** [backburner.join(callback)].  Inside a run loop the callback runs at
    once, as part of that loop.  With no run loop open [join] is
    [backburner.run]: a run loop begins, the callback runs and the loop ends,
    which runs the tasks scheduled in it before [join] returns.  [finish] is
    that end of the loop. *)
Definition join (callback finish : M unit) : M unit :=
  running ← gets inRunLoop;
  if (running : bool) then callback else begin;; callback;; finish.

(** ** graph.ts *)

(** Reading [this]. *)
Definition this (graph : Ref) : M Graph := deref (λ w, graphs w !! graph).

(** A field assignment on [this]. *)
Definition assign (graph : Ref) (f : Graph → Graph) : M unit :=
  G ← this graph;
  modify (with_graphs <[graph := f G]>).

Definition set_queued (q : Queued) (G : Graph) : Graph :=
  {| _queued := q; _nextFlush := _nextFlush G; identifiers := identifiers G;
     implicitMap := implicitMap G; storeWrapper := storeWrapper G |}.

Definition set_nextFlush (b : bool) (G : Graph) : Graph :=
  {| _queued := _queued G; _nextFlush := b; identifiers := identifiers G;
     implicitMap := implicitMap G; storeWrapper := storeWrapper G |}.

Definition set_identifiers (f : gmap Ref Ref → gmap Ref Ref) (G : Graph) : Graph :=
  {| _queued := _queued G; _nextFlush := _nextFlush G;
     identifiers := f (identifiers G);
     implicitMap := implicitMap G; storeWrapper := storeWrapper G |}.

Definition set_implicitMap (f : gmap Ref Ref → gmap Ref Ref) (G : Graph) : Graph :=
  {| _queued := _queued G; _nextFlush := _nextFlush G; identifiers := identifiers G;
     implicitMap := f (implicitMap G); storeWrapper := storeWrapper G |}.

(** [[]]: a new empty array. *)
Definition new_Array : M Ref :=
  a ← alloc;
  modify (with_arrays <[a := []]>);;
  ret a.

(** [{ belongsTo: [], hasMany: [] }] *)
Definition new_Queued : M Queued :=
  bt ← new_Array;
  hm ← new_Array;
  ret {| belongsTo := bt; hasMany := hm |}.

(** [new Graph(store)], with the field initializers of the class. *)
Definition new_Graph (store : Ref) : M Ref :=
  g ← alloc;
  q ← new_Queued;
  modify (with_graphs
    <[g := {| _queued := q; _nextFlush := false; identifiers := ∅;
              implicitMap := ∅; storeWrapper := store |}]>);;
  ret g.

(** [graphFor(store)] *)
Definition graphFor (store : Ref) : M Ref :=
  graph ← gets (λ w, Graphs w !! store);
  match graph with
  | None =>
      g ← new_Graph store;
      modify (with_Graphs <[store := g]>);;
      ret g
  | Some g => ret g
  end.

(** [Graph.get(identifier)] *)
Definition Graph_get (graph identifier : Ref) : M Ref :=
  G ← this graph;
  match identifiers G !! identifier with
  | None =>
      c ← new_Relationships graph identifier;
      assign graph (set_identifiers <[identifier := c]>);;
      ret c
  | Some c => ret c
  end.

(** [Graph.getImplicit(identifier)]; [Object.create(null)] is an empty
    dictionary. *)
Definition Graph_getImplicit (graph identifier : Ref) : M Ref :=
  G ← this graph;
  match implicitMap G !! identifier with
  | None =>
      d ← alloc;
      modify (with_dicts <[d := ∅]>);;
      assign graph (set_implicitMap <[identifier := d]>);;
      ret d
  | Some d => ret d
  end.

(** [_queued[kind]] *)
Definition queue_of (q : Queued) (k : RelationshipKind) : Ref :=
  match k with
  | BelongsTo => belongsTo q
  | HasMany => hasMany q
  end.

(** [array.push(x, y)] *)
Definition Array_push (a : Ref) (xs : list Slot) : M unit :=
  old ← deref (λ w, arrays w !! a);
  modify (with_arrays <[a := old ++ xs]>).

(** *** Flushing

    [Graph.flush] hands every queued payload to its relationship, and a
    relationship may call [this.graph.push] while it is updated.  The
    definitions of this section take that method as [graph_push]; the number
    it is given is the fuel for the run loop that the push may have to
    run. *)
Section Reentrant.

Variable graph_push :
  nat → Ref → Ref → string → JsonApiRelationship → M unit.

(** Modelled from the spec: [relationship.push(payload)], whose class is
    imported from [./relationship]: "updateCanonical(payload): replaces
    (to-one) or reconciles (to-many) the canonical state.  Then locates the
    inverse Relationship and applies the symmetric canonical update there,
    without re-enqueuing".  Of the state of a relationship the model keeps
    the payloads it was handed; the update of the inverse is not followed.
    The spec has no push from within an update; the calls of [graph.push]
    that [reenter] lists are made all the same, for what the graph does when
    a relationship pushes while the graph flushes. *)
Definition Relationship_push_via (fuel : nat) (r : Ref)
    (payload : JsonApiRelationship) : M unit :=
  R ← deref (λ w, relationships w !! r);
  calls ← gets (λ w, reenter w r payload);
  modify (with_applied (λ l, l ++ [(r, payload)]));;
  modify (with_relationships
    <[r := {| kind := kind R; rel_graph := rel_graph R;
              rel_identifier := rel_identifier R; rel_key := rel_key R;
              canonicalPushes := canonicalPushes R ++ [payload] |}]>);;
  forEach (λ '(identifier, propertyName, payload'),
             graph_push fuel (rel_graph R) identifier propertyName payload')
          calls.

(** [for (let i = 0; i < array.length; i += 2) array[i].push(array[i + 1])].
    The array is read from the store at every iteration, as the loop does;
    [fuel] bounds the number of iterations, and a loop that runs out of it
    yields no result.  [Graph.push] only ever appends a relationship followed
    by a payload; on an array of another shape (an element at [i] without a
    [push] method, or no payload at [i + 1]) there is no result either. *)
Fixpoint drain_via (fuel : nat) (array : Ref) (i : nat) : M unit :=
  match fuel with
  | O => throw
  | S fuel' =>
      xs ← deref (λ w, arrays w !! array);
      if decide (i < length xs) then
        match xs !! i, xs !! (i + 1) with
        | Some (SRelationship r), Some (SPayload payload) =>
            Relationship_push_via fuel' r payload;;
            drain_via fuel' array (i + 2)
        | _, _ => throw
        end
      else ret tt
  end.

(** [Graph.flush()] *)
Definition flush_via (fuel : nat) (graph : Ref) : M unit :=
  assign graph (set_nextFlush false);;
  G ← this graph;
  let belongsTo := belongsTo (_queued G) in
  let hasMany := hasMany (_queued G) in
  q ← new_Queued;
  assign graph (set_queued q);;
  drain_via fuel hasMany 0;;
  drain_via fuel belongsTo 0.

(** One task of the run loop: the oldest scheduled flush is taken off the
    queue and run. *)
Definition runScheduled_via (fuel : nat) : M unit :=
  q ← gets flushRelationships;
  match q with
  | [] => ret tt
  | graph :: rest =>
      modify (with_flushRelationships (λ _, rest));;
      flush_via fuel graph
  end.

(** [backburner.end()]: the scheduled flushes run, oldest first, those
    scheduled meanwhile included, until none is left; then the loop is
    closed. *)
Fixpoint backburner_end_via (fuel : nat) : M unit :=
  match fuel with
  | O => throw
  | S fuel' =>
      q ← gets flushRelationships;
      match q with
      | [] => modify (with_inRunLoop (λ _, false))
      | graph :: rest =>
          modify (with_flushRelationships (λ _, rest));;
          flush_via fuel' graph;;
          backburner_end_via fuel'
      end
  end.

End Reentrant.

(** [Graph.push(identifier, propertyName, payload)].  The read of
    [this.storeWrapper._store._backburner] has no effect on the store.  The
    flag is set when [join] has returned: with no run loop open the scheduled
    flush has run by then, and the flag is set all the same.  [fuel] bounds
    the run loop that [join] runs in that case; a run loop is open in it, so
    that the pushes that relationships make meanwhile only schedule. *)
Fixpoint Graph_push (fuel : nat) (graph identifier : Ref)
    (propertyName : string) (payload : JsonApiRelationship) {struct fuel}
    : M unit :=
  c ← Graph_get graph identifier;
  relationship ← Relationships_get c propertyName;
  R ← deref (λ w, relationships w !! relationship);
  G ← this graph;
  Array_push (queue_of (_queued G) (kind R))
             [SRelationship relationship; SPayload payload];;
  modify (with_enqueued (λ l, l ++ [(graph, kind R, relationship, payload)]));;
  if _nextFlush G then ret tt
  else
    join (schedule graph)
         (match fuel with
          | O => throw
          | S fuel' => backburner_end_via (λ _, Graph_push fuel') fuel'
          end);;
    assign graph (set_nextFlush true).

(** [relationship.push(payload)], the loops of [flush], [Graph.flush()],
    the task of the run loop and [backburner.end()], with [Graph.push] for
    [this.graph.push]. *)
Definition Relationship_push : nat → Ref → JsonApiRelationship → M unit :=
  Relationship_push_via Graph_push.

Definition drain : nat → Ref → nat → M unit := drain_via Graph_push.

Definition flush : nat → Ref → M unit := flush_via Graph_push.

Definition runScheduled : nat → M unit := runScheduled_via Graph_push.

Definition backburner_end : nat → M unit := backburner_end_via Graph_push.

(** ** record-data-for.ts *)

(** [relationshipsFor(storeWrapper, identifier)] *)
Definition relationshipsFor (storeWrapper identifier : Ref) : M Ref :=
  g ← graphFor storeWrapper;
  Graph_get g identifier.

(** [relationshipStateFor(storeWrapper, identifier, propertyName)] *)
Definition relationshipStateFor (storeWrapper identifier : Ref)
    (propertyName : string) : M Ref :=
  c ← relationshipsFor storeWrapper identifier;
  Relationships_get c propertyName.

(** [implicitRelationshipsFor(storeWrapper, identifier)] *)
Definition implicitRelationshipsFor (storeWrapper identifier : Ref) : M Ref :=
  g ← graphFor storeWrapper;
  Graph_getImplicit g identifier.

(** [implicitRelationshipStateFor]: the dictionary entry, [undefined] when
    the name is absent. *)
Definition implicitRelationshipStateFor (storeWrapper identifier : Ref)
    (propertyName : string) : M (option Ref) :=
  d ← implicitRelationshipsFor storeWrapper identifier;
  D ← deref (λ w, dicts w !! d);
  ret (D !! propertyName).

(** ** Views of the store *)

(** The (relationship, payload) pairs that a queue array holds, in order. *)
Fixpoint entries (xs : list Slot) : list (Ref * JsonApiRelationship) :=
  match xs with
  | SRelationship r :: SPayload p :: xs' => (r, p) :: entries xs'
  | _ => []
  end.

(** The array that [push(relationship, payload)] calls build from pairs. *)
Fixpoint slots (ps : list (Ref * JsonApiRelationship)) : list Slot :=
  match ps with
  | [] => []
  | (r, p) :: ps' => SRelationship r :: SPayload p :: slots ps'
  end.

(** The pairs queued on a graph for one kind of relationship. *)
Definition queued (w : World) (graph : Ref) (k : RelationshipKind)
    : list (Ref * JsonApiRelationship) :=
  match graphs w !! graph with
  | Some G => entries (default [] (arrays w !! queue_of (_queued G) k))
  | None => []
  end.

(** The payloads among [ps] that go with relationship [r]. *)
Definition payloadsFor (r : Ref) (ps : list (Ref * JsonApiRelationship))
    : list JsonApiRelationship :=
  (filter (λ rp, rp.1 = r) ps).*2.

(** The payloads waiting in the queue of a graph for relationship [r]. *)
Definition pending (w : World) (graph r : Ref) : list JsonApiRelationship :=
  payloadsFor r (queued w graph HasMany ++ queued w graph BelongsTo).

(** The payloads relationship [r] has been handed so far. *)
Definition pushedTo (w : World) (r : Ref) : list JsonApiRelationship :=
  match relationships w !! r with
  | Some R => canonicalPushes R
  | None => []
  end.

(** The relationship that [graph.get(identifier).get(propertyName)] has
    already materialized, if any. *)
Definition lookupRelationship (w : World) (graph identifier : Ref)
    (propertyName : string) : option Ref :=
  G ← graphs w !! graph;
  c ← identifiers G !! identifier;
  C ← containers w !! c;
  initializedRelationships C !! propertyName.

(** A relationship that can be reached from a graph: through a container of
    its [identifiers] map, or as the target of a queued update. *)
Definition reachableFrom (w : World) (graph r : Ref) : Prop :=
  (∃ identifier propertyName,
      lookupRelationship w graph identifier propertyName = Some r)
  ∨ (∃ k p, (r, p) ∈ queued w graph k).

(** How often the flush of a graph sits in the run loop's queue. *)
Definition scheduledFlushes (w : World) (graph : Ref) : nat :=
  length (filter (λ g, g = graph) (flushRelationships w)).

(** An array that no graph holds as one of its queues. *)
Definition detached (w : World) (a : Ref) : Prop :=
  ∀ g G k, graphs w !! g = Some G → queue_of (_queued G) k ≠ a.

(** The pairs that the recorded [Graph.push] calls [evs] put on the queue of
    kind [k] of a graph. *)
Definition eventsOf (graph : Ref) (k : RelationshipKind)
    (evs : list (Ref * RelationshipKind * Ref * JsonApiRelationship))
    : list (Ref * JsonApiRelationship) :=
  omap (λ '(g, k', r, p),
          if decide (g = graph ∧ k' = k) then Some (r, p) else None) evs.

(** ** Invariants *)

(** Every reference in use was handed out by [alloc]. *)
Record fresh (w : World) : Prop := {
  fresh_graphs : ∀ g, is_Some (graphs w !! g) → (g < next_ref w)%positive;
  fresh_containers : ∀ c, is_Some (containers w !! c) → (c < next_ref w)%positive;
  fresh_relationships :
    ∀ r, is_Some (relationships w !! r) → (r < next_ref w)%positive;
  fresh_dicts : ∀ d, is_Some (dicts w !! d) → (d < next_ref w)%positive;
  fresh_arrays : ∀ a, is_Some (arrays w !! a) → (a < next_ref w)%positive;
}.

(** A queued pair targets a live relationship of the right kind that belongs
    to the graph. *)
Definition entryOf (w : World) (graph : Ref) (k : RelationshipKind)
    (rp : Ref * JsonApiRelationship) : Prop :=
  ∃ R, relationships w !! rp.1 = Some R ∧ kind R = k ∧ rel_graph R = graph.

(** The shape of a well-formed store.  With [strict] the flag of every graph
    tells whether an update waits in its queues; without it the flags are
    left open, which is what a push made with no run loop open leaves of the
    invariant. *)
Record wf_upto (strict : bool) (w : World) : Prop := {
  wf_fresh : fresh w;
  wf_Graphs : ∀ s g, Graphs w !! s = Some g →
    ∃ G, graphs w !! g = Some G ∧ storeWrapper G = s;
  wf_queue : ∀ g G k, graphs w !! g = Some G →
    ∃ ps, arrays w !! queue_of (_queued G) k = Some (slots ps)
          ∧ Forall (entryOf w g k) ps;
  wf_queue_inj : ∀ g1 G1 k1 g2 G2 k2,
    graphs w !! g1 = Some G1 → graphs w !! g2 = Some G2 →
    queue_of (_queued G1) k1 = queue_of (_queued G2) k2 → g1 = g2 ∧ k1 = k2;
  wf_flag : strict = true → ∀ g G, graphs w !! g = Some G →
    (_nextFlush G = false ↔
     arrays w !! belongsTo (_queued G) = Some []
     ∧ arrays w !! hasMany (_queued G) = Some []);
  wf_identifiers : ∀ g G i c,
    graphs w !! g = Some G → identifiers G !! i = Some c →
    ∃ C, containers w !! c = Some C ∧ rs_graph C = g ∧ rs_identifier C = i;
  wf_initialized : ∀ c C n r,
    containers w !! c = Some C → initializedRelationships C !! n = Some r →
    ∃ R, relationships w !! r = Some R
         ∧ kind R = relationshipKind (rs_identifier C) n
         ∧ rel_graph R = rs_graph C ∧ rel_identifier R = rs_identifier C
         ∧ rel_key R = n;
  wf_container_owner : ∀ c C, containers w !! c = Some C →
    is_Some (graphs w !! rs_graph C);
  wf_owner : ∀ r R, relationships w !! r = Some R →
    is_Some (graphs w !! rel_graph R);
  wf_log : ∀ r, pushedTo w r = payloadsFor r (applied w);
}.

(** The stores in which the flags are right as well. *)
Definition wf : World → Prop := wf_upto true.

(** The scheduling discipline: the flush of a graph sits in the run loop's
    queue once when [_nextFlush] is set and not at all otherwise, and only
    flushes of live graphs are scheduled. *)
Record oneFlush (w : World) : Prop := {
  oneFlush_count : ∀ g G, graphs w !! g = Some G →
    scheduledFlushes w g = if _nextFlush G then 1 else 0;
  oneFlush_live : ∀ g, g ∈ flushRelationships w → is_Some (graphs w !! g);
}.

(** What later stores keep of earlier ones: objects stay, the immutable
    fields keep their values, maps and logs only grow, and a run loop is open
    if one was. *)
Record extends (w w' : World) : Prop := {
  ext_next : (next_ref w ≤ next_ref w')%positive;
  ext_Graphs : ∀ s g, Graphs w !! s = Some g → Graphs w' !! s = Some g;
  ext_graphs : ∀ g G, graphs w !! g = Some G →
    ∃ G', graphs w' !! g = Some G' ∧ storeWrapper G' = storeWrapper G
          ∧ identifiers G ⊆ identifiers G' ∧ implicitMap G ⊆ implicitMap G';
  ext_containers : ∀ c C, containers w !! c = Some C →
    ∃ C', containers w' !! c = Some C' ∧ rs_graph C' = rs_graph C
          ∧ rs_identifier C' = rs_identifier C
          ∧ initializedRelationships C ⊆ initializedRelationships C';
  ext_relationships : ∀ r R, relationships w !! r = Some R →
    ∃ R', relationships w' !! r = Some R' ∧ kind R' = kind R
          ∧ rel_graph R' = rel_graph R ∧ rel_identifier R' = rel_identifier R
          ∧ rel_key R' = rel_key R
          ∧ canonicalPushes R `prefix_of` canonicalPushes R';
  ext_applied : applied w `prefix_of` applied w';
  ext_enqueued : enqueued w `prefix_of` enqueued w';
  ext_inRunLoop : inRunLoop w' = inRunLoop w;
}.

(** The same across the begin and the end of run loops. *)
Record grows (w w' : World) : Prop := {
  grw_next : (next_ref w ≤ next_ref w')%positive;
  grw_Graphs : ∀ s g, Graphs w !! s = Some g → Graphs w' !! s = Some g;
  grw_graphs : ∀ g G, graphs w !! g = Some G →
    ∃ G', graphs w' !! g = Some G' ∧ storeWrapper G' = storeWrapper G
          ∧ identifiers G ⊆ identifiers G' ∧ implicitMap G ⊆ implicitMap G';
  grw_containers : ∀ c C, containers w !! c = Some C →
    ∃ C', containers w' !! c = Some C' ∧ rs_graph C' = rs_graph C
          ∧ rs_identifier C' = rs_identifier C
          ∧ initializedRelationships C ⊆ initializedRelationships C';
  grw_relationships : ∀ r R, relationships w !! r = Some R →
    ∃ R', relationships w' !! r = Some R' ∧ kind R' = kind R
          ∧ rel_graph R' = rel_graph R ∧ rel_identifier R' = rel_identifier R
          ∧ rel_key R' = rel_key R
          ∧ canonicalPushes R `prefix_of` canonicalPushes R';
  grw_applied : applied w `prefix_of` applied w';
  grw_enqueued : enqueued w `prefix_of` enqueued w';
}.

(** A stretch of execution in which no flush begins: [aps] are the updates
    applied and [evs] the updates enqueued meanwhile.  Every graph keeps its
    queue arrays, which grow by [evs]; arrays held by no graph are left
    alone. *)
Record delta (aps : list (Ref * JsonApiRelationship))
    (evs : list (Ref * RelationshipKind * Ref * JsonApiRelationship))
    (w w' : World) : Prop := {
  d_applied : applied w' = applied w ++ aps;
  d_enqueued : enqueued w' = enqueued w ++ evs;
  d_queues : ∀ g, _queued <$> graphs w' !! g = _queued <$> graphs w !! g;
  d_queued : ∀ g k, queued w' g k = queued w g k ++ eventsOf g k evs;
  d_detached : ∀ a, detached w a → arrays w' !! a = arrays w !! a;
  d_Graphs : Graphs w' = Graphs w;
}.

(** What the pushes [evs] of a stretch do to the schedule when all of them
    are on graph [g]: its flush is appended to the run loop's queue once,
    unless there was no push or the flag was set already, and the flag is set
    from the first push on. *)
Definition schedules (g : Ref)
    (evs : list (Ref * RelationshipKind * Ref * JsonApiRelationship))
    (w w' : World) : Prop :=
  Forall (λ e, e.1.1.1 = g) evs
  ∧ ∀ G, graphs w !! g = Some G →
      flushRelationships w' =
        flushRelationships w ++
        (if bool_decide (evs = []) || _nextFlush G then [] else [g])
      ∧ ∃ G', graphs w' !! g = Some G'
              ∧ _nextFlush G' = bool_decide (evs ≠ []) || _nextFlush G.

(** ** The earlier revision of record-data-for.ts *)

(** The [_internalModel] property of an object, [None] when it has none; and
    the cast [upgradeForInternal] of the store package. *)
Variable _internalModel : Ref → option InternalModel.
Variable upgradeForInternal : Ref → Ref.

(** [storeWrapper._internalModel], then the reads of its [identifier] and of
    the upgraded store wrapper of its record data. *)
Definition internalModelOf (storeWrapper : Ref) : M (Ref * Value) :=
  match _internalModel storeWrapper with
  | Some internalModel =>
      ret (upgradeForInternal (im_storeWrapper internalModel),
           VObject (im_identifier internalModel))
  | None => throw
  end.

(** [relationshipsFor] with its fallback on a missing identifier.  The map of
    the graph is keyed by identifier objects; any other value as a key is
    outside the signature and stops the model. *)
Definition legacy_relationshipsFor (storeWrapper : Ref) (identifier : Value)
    : M Ref :=
  '(storeWrapper, identifier) ←
    (if negb (truthy identifier) then internalModelOf storeWrapper
     else ret (storeWrapper, identifier));
  match identifier with
  | VObject i => g ← graphFor storeWrapper; Graph_get g i
  | _ => throw
  end.

(** [relationshipStateFor] with its fallback on a missing property name, in
    which the second argument is the property name. *)
Definition legacy_relationshipStateFor (storeWrapper : Ref)
    (identifier propertyName : Value) : M Ref :=
  '(storeWrapper, identifier, propertyName) ←
    (if negb (truthy propertyName) then
       '(storeWrapper', identifier') ← internalModelOf storeWrapper;
       ret (storeWrapper', identifier', identifier)
     else ret (storeWrapper, identifier, propertyName));
  c ← legacy_relationshipsFor storeWrapper identifier;
  match propertyName with
  | VString n => Relationships_get c n
  | _ => throw
  end.

(** ** Programs over the graph *)

(** The calls a client of the module makes (a direct call of [flush]
    among them), and the task of the run loop that runs the oldest scheduled
    flush.  A push comes with the fuel for the run loop that it runs when
    none is open. *)
Inductive Call :=
| CallGraphFor (storeWrapper : Ref)
| CallGet (storeWrapper identifier : Ref)
| CallGetImplicit (storeWrapper identifier : Ref)
| CallPush (storeWrapper identifier : Ref) (propertyName : string)
    (payload : JsonApiRelationship) (fuel : nat)
| CallRelationshipStateFor (storeWrapper identifier : Ref) (propertyName : string)
| CallFlush (storeWrapper : Ref) (fuel : nat)
| RunScheduled (fuel : nat).

Definition call (c : Call) : M unit :=
  match c with
  | CallGraphFor s => graphFor s;; ret tt
  | CallGet s i => g ← graphFor s; Graph_get g i;; ret tt
  | CallGetImplicit s i => g ← graphFor s; Graph_getImplicit g i;; ret tt
  | CallPush s i n p fuel => g ← graphFor s; Graph_push fuel g i n p
  | CallRelationshipStateFor s i n => relationshipStateFor s i n;; ret tt
  | CallFlush s fuel => g ← graphFor s; flush fuel g
  | RunScheduled fuel => runScheduled fuel
  end.

(** The calls other than a direct [graph.flush()]: in a program of such
    calls a flush only ever runs as the task that a push scheduled. *)
Definition byRunLoop (c : Call) : bool :=
  match c with
  | CallFlush _ _ => false
  | _ => true
  end.

Definition run (cs : list Call) : M unit := forEach call cs.

(** [backburner.run(() => ...)] up to the end of its callback: a run loop
    opens and the calls [cs] are made in it.  [RunScheduled] among them is a
    task of the end of that loop. *)
Definition inRun (cs : list Call) : M unit := begin;; run cs.

(** The stores a program produces from the empty one inside a run loop.
    Where earlier run loops have ended, their ends are the [RunScheduled]
    tasks of [cs]: the store of a [sheltered] program in which a run loop is
    open is of this form. *)
Definition reachable (w : World) : Prop :=
  ∃ cs, inRun cs init = Some (tt, w).

(** Programs at large: calls made with no run loop open, and calls made
    between [backburner.begin()] and [backburner.end()].  One run loop is
    open at a time: a [begin] inside a run loop, which would open a loop
    inside the loop, is left out, and [end] with no run loop open throws. *)
Inductive Step :=
| Do (c : Call)
| Begin
| End (fuel : nat).

Definition step (s : Step) : M unit :=
  match s with
  | Do c => call c
  | Begin =>
      running ← gets inRunLoop;
      if (running : bool) then throw else begin
  | End fuel =>
      running ← gets inRunLoop;
      if (running : bool) then backburner_end fuel else throw
  end.

Definition steps (ss : list Step) : M unit := forEach step ss.

(** The stores that programs produce from the empty one, with or without a
    run loop. *)
Definition produced (w : World) : Prop :=
  ∃ ss, steps ss init = Some (tt, w).

(** The programs that make every call inside a run loop, one run loop after
    another; [running] says whether a run loop is open when the program
    starts. *)
Fixpoint sheltered (running : bool) (ss : list Step) : bool :=
  match ss with
  | [] => true
  | Do _ :: ss' => running && sheltered running ss'
  | Begin :: ss' => negb running && sheltered true ss'
  | End _ :: ss' => running && sheltered false ss'
  end.

(** A burst of pushes on one graph. *)
Definition pushAll (fuel : nat) (graph : Ref)
    (reqs : list (Ref * string * JsonApiRelationship)) : M unit :=
  forEach (λ '(identifier, propertyName, payload),
             Graph_push fuel graph identifier propertyName payload) reqs.

(** The payloads among the requests [reqs] that are for property
    [propertyName] of [identifier]. *)
Definition payloadsOf (identifier : Ref) (propertyName : string)
    (reqs : list (Ref * string * JsonApiRelationship))
    : list JsonApiRelationship :=
  omap (λ '(i, n, p),
          if decide (i = identifier ∧ n = propertyName) then Some p else None)
       reqs.

(** The update that [Graph.push] records for a request. *)
Definition pushed (w : World) (g : Ref)
    (req : Ref * string * JsonApiRelationship)
    (ev : Ref * RelationshipKind * Ref * JsonApiRelationship) : Prop :=
  let '(i, n, p) := req in
  let '(g', k, r, p') := ev in
  g' = g ∧ k = relationshipKind i n ∧ p' = p
  ∧ lookupRelationship w g i n = Some r.

(** What can be observed of a graph object besides the identity of its
    queue arrays. *)
Definition observeGraph (w : World) (graph : Ref)
    : option (bool * gmap Ref Ref * gmap Ref Ref * Ref) :=
  (λ G, (_nextFlush G, identifiers G, implicitMap G, storeWrapper G))
    <$> graphs w !! graph.

(** Two stores that differ at most in which arrays serve as queues. *)
Record sameState (w w' : World) : Prop := {
  same_Graphs : Graphs w' = Graphs w;
  same_graphs : ∀ g, observeGraph w' g = observeGraph w g;
  same_queued : ∀ g k, queued w' g k = queued w g k;
  same_containers : containers w' = containers w;
  same_relationships : relationships w' = relationships w;
  same_dicts : dicts w' = dicts w;
  same_flushRelationships : flushRelationships w' = flushRelationships w;
  same_applied : applied w' = applied w;
  same_enqueued : enqueued w' = enqueued w;
}.

(** ** Further views and invariants *)

(** The [implicitMap] of a graph, empty for a reference that is no graph. *)
Definition implicitOf (w : World) (graph : Ref) : gmap Ref Ref :=
  match graphs w !! graph with
  | Some G => implicitMap G
  | None => ∅
  end.

(** The dictionaries of implicit relationships: every dictionary that an
    [implicitMap] names exists, and no two entries name the same one. *)
Record implicitOk (w : World) : Prop := {
  implicit_live : ∀ g i d,
    implicitOf w g !! i = Some d → is_Some (dicts w !! d);
  implicit_inj : ∀ g1 i1 g2 i2 d,
    implicitOf w g1 !! i1 = Some d → implicitOf w g2 !! i2 = Some d →
    g1 = g2 ∧ i1 = i2;
}.

(** A step that leaves the implicit relationships as they are. *)
Definition sameImplicit (w w' : World) : Prop :=
  dicts w' = dicts w ∧ ∀ g, implicitOf w' g = implicitOf w g.

(** A step that keeps the shape of the store, the flags apart, and the
    implicit relationships. *)
Definition keeps (w w' : World) : Prop :=
  wf_upto false w → wf_upto false w' ∧ grows w w' ∧ sameImplicit w w'.

(** A step that neither queues, applies nor schedules anything: the logs,
    the run loop's queue, the queues and flags of the graphs and the state of
    the relationships that exist are as before. *)
Record undisturbed (w w' : World) : Prop := {
  und_applied : applied w' = applied w;
  und_enqueued : enqueued w' = enqueued w;
  und_flushRelationships : flushRelationships w' = flushRelationships w;
  und_queued : ∀ g k, queued w' g k = queued w g k;
  und_graphs : ∀ g G, graphs w !! g = Some G →
    ∃ G', graphs w' !! g = Some G' ∧ _nextFlush G' = _nextFlush G
          ∧ _queued G' = _queued G;
  und_relationships : relationships w ⊆ relationships w';
}.

(** Every graph that waits for its flush has that flush in the run loop's
    queue. *)
Definition covered (w : World) : Prop :=
  ∀ g G, graphs w !! g = Some G → _nextFlush G = true →
         g ∈ flushRelationships w.

(** The updates among the recorded pushes [evs] that are for relationships
    of kind [k], as (relationship, payload) pairs in the order of [evs]. *)
Definition ofKind (k : RelationshipKind)
    (evs : list (Ref * RelationshipKind * Ref * JsonApiRelationship))
    : list (Ref * JsonApiRelationship) :=
  omap (λ '(_, k', r, p), if decide (k' = k) then Some (r, p) else None) evs.

(** The (relationship, payload) pairs of the recorded pushes [evs]. *)
Definition updates
    (evs : list (Ref * RelationshipKind * Ref * JsonApiRelationship))
    : list (Ref * JsonApiRelationship) :=
  (λ e, (e.1.2, e.2)) <$> evs.

(** The payloads that have been pushed for relationship [r] so far. *)
Definition enqueuedFor (w : World) (r : Ref) : list JsonApiRelationship :=
  payloadsFor r (updates (enqueued w)).

(** The payloads that wait for relationship [r] in the queue that its graph
    has for its kind. *)
Definition waiting (w : World) (r : Ref) : list JsonApiRelationship :=
  match relationships w !! r with
  | Some R => payloadsFor r (queued w (rel_graph R) (kind R))
  | None => []
  end.

(** No payload is lost, duplicated or overtaken: what has been pushed for a
    relationship is what it has been handed followed by what waits for it. *)
Definition conserved (w : World) : Prop :=
  ∀ r, enqueuedFor w r = pushedTo w r ++ waiting w r.

End GraphModel.

(** ** The identifier cache *)

Module IdentifierCache.

(** A stable record identifier: an object with a type, a server id once it
    is known, and a local id. *)
Record StableRecordIdentifier := {
  type : string;
  id : option string;
  lid : string;
}.

(** The cache of one store: the index by (type, id), the index by local id,
    and the identifier objects themselves. *)
Record Cache := {
  byId : gmap (string * string) Ref;
  byLid : gmap string Ref;
  identifierObjects : gmap Ref StableRecordIdentifier;
  nextIdentifier : Ref;
}.

Definition empty : Cache :=
  {| byId := ∅; byLid := ∅; identifierObjects := ∅; nextIdentifier := 1%positive |}.

(** Identifiers in use were allocated, and indexed identifiers exist. *)
Record cache_wf (c : Cache) : Prop := {
  cwf_objects : ∀ r, is_Some (identifierObjects c !! r) →
    (r < nextIdentifier c)%positive;
  cwf_byId : ∀ k r, byId c !! k = Some r → is_Some (identifierObjects c !! r);
}.

(** What [new RecordData(...)] is given. *)
Inductive RecordData :=
| RecordDataFor (identifier storeWrapper : Ref)
| RecordDataLegacy (modelName : string) (id : option string) (clientId : string)
    (storeWrapper : Ref).

Section Cache.

(** The generator of local ids. *)
Variable generateLid : Cache → string.

(** Modelled from the spec: the allocation step of [getOrCreate], which lives
    in the store package: "allocate a new identifier with a freshly generated
    local id, register it under both the local-id key and, once an id becomes
    known, the (type,id) key". *)
Definition allocate (type : string) (id : option string) (c : Cache)
    : Ref * Cache :=
  let r := nextIdentifier c in
  let l := generateLid c in
  (r, {| byId := match id with
                 | Some i => <[(type, i) := r]> (byId c)
                 | None => byId c
                 end;
         byLid := <[l := r]> (byLid c);
         identifierObjects :=
           <[r := {| type := type; id := id; lid := l |}]> (identifierObjects c);
         nextIdentifier := Pos.succ r |}).

(** Modelled from the spec: [getOrCreate(type, id, clientId?)] of the
    identifier cache ([getOrCreateRecordIdentifier] of the store package):
    "If id is non-null and a cached identifier exists for (type, id), return
    it unchanged.  If id is null and a clientId is supplied and already
    mapped, return that identifier.  Otherwise allocate a new identifier". *)
Definition getOrCreateRecordIdentifier (type : string) (id clientId : option string)
    (c : Cache) : Ref * Cache :=
  match id with
  | Some i =>
      match byId c !! (type, i) with
      | Some r => (r, c)
      | None => allocate type id c
      end
  | None =>
      match clientId with
      | Some l =>
          match byLid c !! l with
          | Some r => (r, c)
          | None => allocate type id c
          end
      | None => allocate type id c
      end
  end.

(** [DefaultStore.createRecordDataFor] of store.ts; [IDENTIFIERS] is the
    canary feature flag. *)
Definition createRecordDataFor (IDENTIFIERS : bool) (modelName : string)
    (id : option string) (clientId : string) (storeWrapper : Ref) (c : Cache)
    : RecordData * Cache :=
  if IDENTIFIERS then
    let '(identifier, c') :=
      getOrCreateRecordIdentifier modelName id (Some clientId) c in
    (RecordDataFor identifier storeWrapper, c')
  else (RecordDataLegacy modelName id clientId storeWrapper, c).

(** A sequence of lookups. *)
Definition lookups (calls : list (string * option string * option string))
    (c : Cache) : Cache :=
  foldl (λ c '(t, i, l), (getOrCreateRecordIdentifier t i l c).2) c calls.

End Cache.

End IdentifierCache.

(** ** An example store *)

Module Example.

(** A schema in which [comments] is to-many and every other field to-one. *)
Definition schema (identifier : Ref) (propertyName : string) : RelationshipKind :=
  if bool_decide (propertyName = "comments"%string) then HasMany else BelongsTo.

(** Relationships that never call back into the graph. *)
Definition quiet (w : @World string) (r : Ref) (payload : string)
    : list (Ref * string * string) := [].

(** Relationships that, on the first update ever applied, push an update of
    the [author] of identifier 30. *)
Definition chatty (w : @World string) (r : Ref) (payload : string)
    : list (Ref * string * string) :=
  if bool_decide (length (applied w) < 1)
  then [(30%positive, "author", "echo")]%string
  else [].


(** Store wrapper 1 with three pushes on two relationships of post 10. *)
Definition program : list (@Call string) :=
  [CallPush 1 10 "comments" "a" 5; CallPush 1 10 "author" "b" 5;
   CallPush 1 10 "comments" "c" 5]%string%positive.

(** The store after a program that runs inside a run loop, with
    relationships of either sort. *)
Definition after
    (reenter : @World string → Ref → string → list (Ref * string * string))
    (cs : list (@Call string)) : @World string :=
  match inRun schema reenter cs init with
  | Some (_, w) => w
  | None => init
  end.

(** The store after a program that runs with no run loop open. *)
Definition outside
    (reenter : @World string → Ref → string → list (Ref * string * string))
    (cs : list (@Call string)) : @World string :=
  match run schema reenter cs init with
  | Some (_, w) => w
  | None => init
  end.

(** The store after the three pushes, before the run loop has run. *)
Definition store : @World string := after quiet program.

(** The same with relationships that call back. *)
Definition busy : @World string := after chatty program.

(** A store in which a graph exists and nothing was pushed. *)
Definition idle : @World string := after quiet [CallGet 1 10]%positive.

(** The three pushes and the turn of the run loop that follows. *)
Definition turn : list (@Call string) := program ++ [RunScheduled 3].

(** The store after that turn. *)
Definition drained : @World string := after quiet turn.

(** The relationship [comments] of post 10 in [store]. *)
Definition comments10 : @Relationship string :=
  {| kind := HasMany; rel_graph := 1; rel_identifier := 10;
     rel_key := "comments"; canonicalPushes := [] |}.

(** An object whose [_internalModel] is that of post 10 in store wrapper 1. *)
Definition internalModel10 (recordData : Ref) : option InternalModel :=
  Some {| im_identifier := 10; im_storeWrapper := 1 |}.


(** Two pushes made with no run loop open. *)
Definition adrift : @World string :=
  outside quiet
    [CallPush 1 10 "comments" "a" 5; CallPush 1 10 "comments" "b" 5]%string%positive.

(** The graph object of store wrapper 1 in [adrift]. *)
Definition graphAdrift : Graph :=
  {| _queued := {| belongsTo := 6; hasMany := 7 |}; _nextFlush := true;
     identifiers := {[10%positive := 4%positive]}; implicitMap := ∅;
     storeWrapper := 1 |}.

(** A push made with no run loop open, after which a run loop opens. *)
Definition late : @World string :=
  match steps schema quiet
          [Do (CallPush 1 10 "comments" "a" 5); Begin]%string%positive init with
  | Some (_, w) => w
  | None => init
  end.

(** A graph and nothing else, with no run loop open. *)
Definition bare : @World string := outside quiet [CallGraphFor 1]%positive.


(** The graph object of store wrapper 1 in [store], and in [idle]. *)
Definition graph1 : Graph :=
  {| _queued := {| belongsTo := 2; hasMany := 3 |}; _nextFlush := true;
     identifiers := {[10%positive := 4%positive]}; implicitMap := ∅;
     storeWrapper := 1 |}.

Definition graphIdle : Graph :=
  {| _queued := {| belongsTo := 2; hasMany := 3 |}; _nextFlush := false;
     identifiers := {[10%positive := 4%positive]}; implicitMap := ∅;
     storeWrapper := 1 |}.

End Example.

(** * Properties *)

(** Unfolding of the monad. *)
Ltac munfold :=
  unfold mbind, M_bind, bind, mret, M_ret, ret, gets, modify, deref, throw,
    alloc in *.

(** Case analysis on lookups in updated maps. *)
Ltac ins :=
  repeat match goal with
  | H : <[_:=_]> _ !! _ = Some _ |- _ =>
      apply lookup_insert_Some in H as [[? ?]|[? H]]; simplify_eq/=
  | H : is_Some (<[_:=_]> _ !! _) |- _ =>
      apply lookup_insert_is_Some in H as [?|[? H]]; simplify_eq/=
  | H : is_Some (Some _) |- _ => clear H
  end.

(** Goals of [extends] for parts that an update leaves alone. *)
Ltac ext_same :=
  try done; try lia;
  try (intros ? ? ?; eexists; split_and!; [eassumption|done..]).

Section GraphProofs.

Context {JsonApiRelationship : Type}.
Variable relationshipKind : Ref → string → RelationshipKind.
Variable reenter :
  @World JsonApiRelationship → Ref → JsonApiRelationship →
  list (Ref * string * JsonApiRelationship).

#[local] Abbreviation World := (@World JsonApiRelationship).
#[local] Abbreviation Relationships_get := (Relationships_get relationshipKind).
#[local] Abbreviation Graph_push := (Graph_push relationshipKind reenter).
#[local] Abbreviation Relationship_push :=
  (Relationship_push relationshipKind reenter).
#[local] Abbreviation drain := (drain relationshipKind reenter).
#[local] Abbreviation flush := (flush relationshipKind reenter).
#[local] Abbreviation runScheduled := (runScheduled relationshipKind reenter).
#[local] Abbreviation relationshipStateFor := (relationshipStateFor relationshipKind).
#[local] Abbreviation call := (call relationshipKind reenter).
#[local] Abbreviation run := (run relationshipKind reenter).
#[local] Abbreviation reachable := (reachable relationshipKind reenter).
#[local] Abbreviation pushAll := (pushAll relationshipKind reenter).
#[local] Abbreviation inRun := (inRun relationshipKind reenter).
#[local] Abbreviation backburner_end := (backburner_end relationshipKind reenter).
#[local] Abbreviation step := (step relationshipKind reenter).
#[local] Abbreviation steps := (steps relationshipKind reenter).
#[local] Abbreviation produced := (produced relationshipKind reenter).
#[local] Abbreviation sheltered := (@sheltered JsonApiRelationship).
#[local] Abbreviation keeps := (keeps relationshipKind).
#[local] Abbreviation wf := (wf relationshipKind).
#[local] Abbreviation wf_upto := (wf_upto relationshipKind).
#[local] Abbreviation pushed := (pushed relationshipKind).

Lemma graphFor_cached (w : World) s g :
  Graphs w !! s = Some g → graphFor s w = Some (g, w).
Proof. intros H. unfold graphFor. munfold. by rewrite H. Qed.

Lemma slots_app (ps qs : list (Ref * JsonApiRelationship)) :
  slots (ps ++ qs) = slots ps ++ slots qs.
Proof. induction ps as [|[r p] ps IH]; simpl; [done|]. by rewrite IH. Qed.

Lemma entries_slots (ps : list (Ref * JsonApiRelationship)) :
  entries (slots ps) = ps.
Proof. induction ps as [|[r p] ps IH]; simpl; [done|]. by rewrite IH. Qed.

Lemma slots_nil_inv (ps : list (Ref * JsonApiRelationship)) :
  slots ps = [] → ps = [].
Proof. by destruct ps as [|[r p] ps]. Qed.

Lemma slots_length (ps : list (Ref * JsonApiRelationship)) :
  length (slots ps) = 2 * length ps.
Proof. induction ps as [|[r p] ps IH]; simpl; [done|]. rewrite IH. lia. Qed.

(** *** Well-formedness is kept by every update the code makes *)

Lemma wf_frame {b} (w w' : World) :
  wf_upto b w →
  Graphs w' = Graphs w → graphs w' = graphs w → containers w' = containers w →
  relationships w' = relationships w → dicts w' = dicts w →
  arrays w' = arrays w → applied w' = applied w →
  (next_ref w ≤ next_ref w')%positive →
  wf_upto b w'.
Proof.
  intros [[F1 F2 F3 F4 F5] W1 W2 W3 W4 W5 W6 W7 W8 W9] E1 E2 E3 E4 E5 E6 E7 Hn.
  split; [split|..]; unfold entryOf, pushedTo in *;
    rewrite ?E1, ?E2, ?E3, ?E4, ?E5, ?E6, ?E7; try assumption.
  - intros g Hg. apply F1 in Hg. lia.
  - intros g Hg. apply F2 in Hg. lia.
  - intros g Hg. apply F3 in Hg. lia.
  - intros g Hg. apply F4 in Hg. lia.
  - intros g Hg. apply F5 in Hg. lia.
Qed.

Lemma wf_next {b} (w : World) : wf_upto b w → wf_upto b (with_next_ref Pos.succ w).
Proof. intros H. eapply wf_frame; [exact H|done..|simpl; lia]. Qed.

Lemma wf_enqueued {b} (w : World) f : wf_upto b w → wf_upto b (with_enqueued f w).
Proof. intros H. eapply wf_frame; [exact H|done..|simpl; lia]. Qed.

Lemma wf_flushRelationships {b} (w : World) f : wf_upto b w → wf_upto b (with_flushRelationships f w).
Proof. intros H. eapply wf_frame; [exact H|done..|simpl; lia]. Qed.

Lemma wf_new_dict {b} (w : World) d D :
  wf_upto b w → (d < next_ref w)%positive → wf_upto b (with_dicts <[d := D]> w).
Proof.
  intros [[F1 F2 F3 F4 F5] W1 W2 W3 W4 W5 W6 W7 W8 W9] Hd.
  split; [split|..]; try assumption.
  simpl. intros d' Hd'. ins; [done|]. by apply F4.
Qed.

Lemma wf_new_array {b} (w : World) a :
  wf_upto b w → arrays w !! a = None → (a < next_ref w)%positive →
  wf_upto b (with_arrays <[a := []]> w).
Proof.
  intros [[F1 F2 F3 F4 F5] W1 W2 W3 W4 W5 W6 W7 W8 W9] Ha Hlt.
  split; [split|..]; try assumption; simpl.
  - intros a' Ha'. ins; [done|]. by apply F5.
  - intros g G k Hg. destruct (W2 g G k Hg) as (ps & Hps & Hall).
    exists ps. rewrite lookup_insert_ne by congruence. done.
  - intros Hb g G Hg. specialize (W4 Hb). pose proof (W2 g G BelongsTo Hg) as (? & ? & _).
    pose proof (W2 g G HasMany Hg) as (? & ? & _). simpl in *.
    rewrite !lookup_insert_ne by congruence. exact (W4 g G Hg).
Qed.

Lemma detached_new_array {b} (w : World) a :
  wf_upto b w → arrays w !! a = None → detached w a.
Proof.
  intros Hwf Ha g G k Hg <-.
  destruct (wf_queue _ _ _ Hwf g G k Hg) as (? & ? & _). congruence.
Qed.

(** A graph receives a pair of new, empty queues: [new Graph] and the head
    of [flush]. *)
Lemma wf_fresh_queues {b} (w : World) g G q :
  wf_upto b w →
  (g < next_ref w)%positive →
  (∀ G0, graphs w !! g = Some G0 →
         identifiers G = identifiers G0 ∧ storeWrapper G = storeWrapper G0) →
  (graphs w !! g = None → identifiers G = ∅) →
  _queued G = q → _nextFlush G = false →
  arrays w !! belongsTo q = Some [] → arrays w !! hasMany q = Some [] →
  belongsTo q ≠ hasMany q →
  detached w (belongsTo q) → detached w (hasMany q) →
  wf_upto b (with_graphs <[g := G]> w).
Proof.
  intros [[F1 F2 F3 F4 F5] W1 W2 W3 W4 W5 W6 W7 W8 W9]
    Hlt Hold Hnew Hq Hflag Hbt Hhm Hne Dbt Dhm.
  split; [split|..]; try assumption; simpl.
  - intros g' Hg'. ins; [done|]. by apply F1.
  - intros s g' Hs. destruct (W1 s g' Hs) as (G0 & HG0 & Hsw).
    destruct (decide (g' = g)) as [->|Hgg].
    + exists G. rewrite lookup_insert_eq. split; [done|].
      destruct (Hold G0 HG0) as [_ ->]. done.
    + exists G0. by rewrite lookup_insert_ne.
  - intros g' G' k Hg'. ins.
    + exists []. split; [|constructor]. by destruct k.
    + destruct (W2 g' G' k Hg') as (ps & ? & Hall). exists ps. done.
  - intros g1 G1 k1 g2 G2 k2 H1 H2 Heq. ins.
    + split; [done|]. destruct k1, k2; simpl in *; congruence.
    + exfalso. destruct k2; simpl in Heq;
        [eapply Dbt | eapply Dhm]; eauto.
    + exfalso. symmetry in Heq. destruct k1; simpl in Heq;
        [eapply Dbt | eapply Dhm]; eauto.
    + eauto.
  - intros Hb g' G' Hg'. specialize (W4 Hb). ins; [done|]. exact (W4 g' G' Hg').
  - intros g' G' i c Hg' Hi. ins.
    + destruct (graphs w !! g') as [G0|] eqn:HG0.
      * destruct (Hold G0 eq_refl) as [Hid _]. rewrite Hid in Hi. eauto.
      * rewrite (Hnew eq_refl) in Hi. by rewrite lookup_empty in Hi.
    + eauto.
  - intros c C HC. destruct (W7 c C HC) as [G0 HG0].
    destruct (decide (rs_graph C = g)) as [->|?].
    + rewrite lookup_insert_eq. done.
    + rewrite lookup_insert_ne by done. done.
  - intros r R HR. destruct (W8 r R HR) as [G0 HG0].
    destruct (decide (rel_graph R = g)) as [->|?].
    + rewrite lookup_insert_eq. done.
    + rewrite lookup_insert_ne by done. done.
Qed.

Lemma wf_Graphs_insert {b} (w : World) s g G :
  wf_upto b w → graphs w !! g = Some G → storeWrapper G = s →
  wf_upto b (with_Graphs <[s := g]> w).
Proof.
  intros [[F1 F2 F3 F4 F5] W1 W2 W3 W4 W5 W6 W7 W8 W9] Hg Hs.
  split; [split|..]; try assumption; simpl.
  intros s' g' Hs'. ins; eauto.
Qed.

Lemma entryOf_mono (w w' : World) g k rp :
  (∀ r R, relationships w !! r = Some R →
     ∃ R', relationships w' !! r = Some R' ∧ kind R' = kind R
           ∧ rel_graph R' = rel_graph R) →
  entryOf w g k rp → entryOf w' g k rp.
Proof.
  intros Hm (R & HR & Hk & Hg). destruct (Hm _ _ HR) as (R' & ? & ? & ?).
  exists R'. split_and!; congruence.
Qed.

Lemma wf_new_container {b} (w : World) c C :
  wf_upto b w → containers w !! c = None → (c < next_ref w)%positive →
  initializedRelationships C = ∅ → is_Some (graphs w !! rs_graph C) →
  wf_upto b (with_containers <[c := C]> w).
Proof.
  intros [[F1 F2 F3 F4 F5] W1 W2 W3 W4 W5 W6 W7 W8 W9] Hc Hlt Hinit Hg.
  split; [split|..]; try assumption; simpl.
  - intros c' Hc'. ins; [done|]. by apply F2.
  - intros g G i c' HG Hi. destruct (W5 g G i c' HG Hi) as (C' & HC' & ?).
    exists C'. rewrite lookup_insert_ne by congruence. done.
  - intros c' C' n r HC' Hn. ins.
    + rewrite Hinit, lookup_empty in Hn. done.
    + eauto.
  - intros c' C' HC'. ins; eauto.
Qed.

Lemma wf_set_identifiers {b} (w : World) g G i c C :
  wf_upto b w → graphs w !! g = Some G → containers w !! c = Some C →
  rs_graph C = g → rs_identifier C = i →
  wf_upto b (with_graphs <[g := set_identifiers <[i := c]> G]> w).
Proof.
  intros [[F1 F2 F3 F4 F5] W1 W2 W3 W4 W5 W6 W7 W8 W9] Hg Hc HCg HCi.
  split; [split|..]; try assumption; simpl.
  - intros g' Hg'. ins; [|by apply F1]. apply F1. by rewrite Hg.
  - intros s g' Hs. destruct (W1 s g' Hs) as (G0 & HG0 & Hsw).
    destruct (decide (g' = g)) as [->|Hgg].
    + rewrite lookup_insert_eq. eexists; split; [done|]. simpl. congruence.
    + exists G0. by rewrite lookup_insert_ne.
  - intros g' G' k Hg'. ins; eauto.
  - intros g1 G1 k1 g2 G2 k2 H1 H2 Heq. ins; eauto.
  - intros Hb g' G' Hg'. specialize (W4 Hb). ins; [exact (W4 _ _ Hg)|exact (W4 _ _ Hg')].
  - intros g' G' i' c' Hg' Hi. ins; eauto.
  - intros c' C' HC'. destruct (W7 c' C' HC') as [G0 HG0].
    destruct (decide (rs_graph C' = g)) as [->|?].
    + rewrite lookup_insert_eq. done.
    + rewrite lookup_insert_ne by done. done.
  - intros r R HR. destruct (W8 r R HR) as [G0 HG0].
    destruct (decide (rel_graph R = g)) as [->|?].
    + rewrite lookup_insert_eq. done.
    + rewrite lookup_insert_ne by done. done.
Qed.

Lemma wf_set_implicitMap {b} (w : World) g G f :
  wf_upto b w → graphs w !! g = Some G →
  wf_upto b (with_graphs <[g := set_implicitMap f G]> w).
Proof.
  intros [[F1 F2 F3 F4 F5] W1 W2 W3 W4 W5 W6 W7 W8 W9] Hg.
  split; [split|..]; try assumption; simpl.
  - intros g' Hg'. ins; [|by apply F1]. apply F1. by rewrite Hg.
  - intros s g' Hs. destruct (W1 s g' Hs) as (G0 & HG0 & Hsw).
    destruct (decide (g' = g)) as [->|Hgg].
    + rewrite lookup_insert_eq. eexists; split; [done|]. simpl. congruence.
    + exists G0. by rewrite lookup_insert_ne.
  - intros g' G' k Hg'. ins; eauto.
  - intros g1 G1 k1 g2 G2 k2 H1 H2 Heq. ins; eauto.
  - intros Hb g' G' Hg'. specialize (W4 Hb). ins; [exact (W4 _ _ Hg)|exact (W4 _ _ Hg')].
  - intros g' G' i' c' Hg' Hi. ins; eauto.
  - intros c' C' HC'. destruct (W7 c' C' HC') as [G0 HG0].
    destruct (decide (rs_graph C' = g)) as [->|?].
    + rewrite lookup_insert_eq. done.
    + rewrite lookup_insert_ne by done. done.
  - intros r R HR. destruct (W8 r R HR) as [G0 HG0].
    destruct (decide (rel_graph R = g)) as [->|?].
    + rewrite lookup_insert_eq. done.
    + rewrite lookup_insert_ne by done. done.
Qed.

(** A relationship object is created, or an existing one records a payload:
    its immutable fields are as before. *)
Lemma wf_relationship_insert {b} (w : World) r R :
  wf_upto b w → (r < next_ref w)%positive →
  is_Some (graphs w !! rel_graph R) →
  (∀ R0, relationships w !! r = Some R0 →
     kind R = kind R0 ∧ rel_graph R = rel_graph R0
     ∧ rel_identifier R = rel_identifier R0 ∧ rel_key R = rel_key R0) →
  canonicalPushes R = pushedTo w r →
  wf_upto b (with_relationships <[r := R]> w).
Proof.
  intros [[F1 F2 F3 F4 F5] W1 W2 W3 W4 W5 W6 W7 W8 W9] Hlt Hg Hold Hlog.
  assert (Hmono : ∀ r' R', relationships w !! r' = Some R' →
     ∃ R'', <[r := R]> (relationships w) !! r' = Some R'' ∧ kind R'' = kind R'
           ∧ rel_graph R'' = rel_graph R'
           ∧ rel_identifier R'' = rel_identifier R' ∧ rel_key R'' = rel_key R').
  { intros r' R' HR'. destruct (decide (r' = r)) as [->|?].
    - rewrite lookup_insert_eq. exists R.
      destruct (Hold _ HR') as (? & ? & ? & ?). done.
    - rewrite lookup_insert_ne by done. exists R'. done. }
  split; [split|..]; try assumption; simpl.
  - intros r' Hr'. ins; [done|]. by apply F3.
  - intros g G k HG. destruct (W2 g G k HG) as (ps & ? & Hall).
    exists ps. split; [done|]. eapply Forall_impl; [exact Hall|].
    intros rp. apply entryOf_mono. simpl. intros r' R' HR'.
    destruct (Hmono _ _ HR') as (R'' & ? & ? & ? & _). eauto.
  - intros c C n r' HC Hn.
    destruct (W6 c C n r' HC Hn) as (R' & HR' & ? & ? & ? & ?).
    destruct (Hmono _ _ HR') as (R'' & ? & ? & ? & ? & ?).
    exists R''. split_and!; congruence.
  - intros r' R' HR'. ins; eauto.
  - intros r'. rewrite <- W9. unfold pushedTo. simpl.
    destruct (decide (r' = r)) as [->|?].
    + rewrite lookup_insert_eq. done.
    + rewrite lookup_insert_ne by done. done.
Qed.

Lemma wf_set_initialized {b} (w : World) c C n r R :
  wf_upto b w → containers w !! c = Some C → relationships w !! r = Some R →
  kind R = relationshipKind (rs_identifier C) n →
  rel_graph R = rs_graph C → rel_identifier R = rs_identifier C →
  rel_key R = n →
  wf_upto b (with_containers
        <[c := {| rs_graph := rs_graph C; rs_identifier := rs_identifier C;
                  initializedRelationships :=
                    <[n := r]> (initializedRelationships C) |}]> w).
Proof.
  intros [[F1 F2 F3 F4 F5] W1 W2 W3 W4 W5 W6 W7 W8 W9] Hc Hr Hk Hg Hi Hn.
  split; [split|..]; try assumption; simpl.
  - intros c' Hc'. ins; [|by apply F2]. apply F2. by rewrite Hc.
  - intros g G i c' HG Hi'. destruct (W5 g G i c' HG Hi') as (C' & HC' & ? & ?).
    destruct (decide (c' = c)) as [->|?].
    + rewrite lookup_insert_eq. eexists. split; [done|]. simpl.
      split; congruence.
    + exists C'. rewrite lookup_insert_ne by done. done.
  - intros c' C' n' r' HC' Hn'. ins; eauto 10.
  - intros c' C' HC'. ins; eauto.
Qed.

(** The tail of [Graph.push]: the pair is appended to the queue of its kind
    and [_nextFlush] is set. *)
Lemma wf_enqueue {b} (w : World) g G k xs r p :
  wf_upto b w → graphs w !! g = Some G →
  arrays w !! queue_of (_queued G) k = Some xs →
  entryOf w g k (r, p) →
  wf_upto b (with_graphs <[g := set_nextFlush true G]>
        (with_arrays
           <[queue_of (_queued G) k := xs ++ [SRelationship r; SPayload p]]> w)).
Proof.
  intros [[F1 F2 F3 F4 F5] W1 W2 W3 W4 W5 W6 W7 W8 W9] Hg Hxs Hent.
  split; [split|..]; try assumption; simpl.
  - intros g' Hg'. ins; [|by apply F1]. apply F1. by rewrite Hg.
  - intros a Ha. ins; [|by apply F5]. apply F5. by rewrite Hxs.
  - intros s g' Hs. destruct (W1 s g' Hs) as (G0 & HG0 & Hsw).
    destruct (decide (g' = g)) as [->|Hgg].
    + rewrite lookup_insert_eq. eexists; split; [done|]. simpl. congruence.
    + exists G0. by rewrite lookup_insert_ne.
  - intros g' G' k' Hg'.
    assert (∃ G0, graphs w !! g' = Some G0 ∧ _queued G' = _queued G0)
      as (G0 & HG0 & Hq).
    { apply lookup_insert_Some in Hg' as [[<- <-]|[? ?]]; eauto. }
    rewrite Hq. destruct (W2 g' G0 k' HG0) as (ps & Hps & Hall).
    destruct (decide (queue_of (_queued G) k = queue_of (_queued G0) k'))
      as [Heq|Hne].
    + destruct (W3 _ _ _ _ _ _ Hg HG0 Heq) as [<- <-].
      assert (G0 = G) as -> by congruence.
      exists (ps ++ [(r, p)]). rewrite lookup_insert_eq. split.
      * rewrite slots_app. simpl. congruence.
      * apply Forall_app. split; [done|]. by constructor.
    + exists ps. rewrite lookup_insert_ne by done. done.
  - intros g1 G1 k1 g2 G2 k2 H1 H2 Heq. ins; eauto.
  - intros Hb g' G' Hg'. specialize (W4 Hb). ins.
    + split; [done|]. intros [Hbt Hhm]. destruct k; simpl in *.
      * rewrite lookup_insert_eq in Hbt. by destruct xs.
      * rewrite lookup_insert_eq in Hhm. by destruct xs.
    + assert (∀ k', queue_of (_queued G) k ≠ queue_of (_queued G') k') as Hne.
      { intros k' Heq. destruct (W3 _ _ _ _ _ _ Hg Hg' Heq). congruence. }
      pose proof (Hne BelongsTo). pose proof (Hne HasMany). simpl in *.
      rewrite !lookup_insert_ne by done. exact (W4 _ _ Hg').
  - intros g' G' i' c' Hg' Hi. ins; eauto.
  - intros c' C' HC'. destruct (W7 c' C' HC') as [G0 HG0].
    destruct (decide (rs_graph C' = g)) as [->|?].
    + rewrite lookup_insert_eq. done.
    + rewrite lookup_insert_ne by done. done.
  - intros r' R HR. destruct (W8 r' R HR) as [G0 HG0].
    destruct (decide (rel_graph R = g)) as [->|?].
    + rewrite lookup_insert_eq. done.
    + rewrite lookup_insert_ne by done. done.
Qed.

Lemma payloadsFor_app r (l l' : list (Ref * JsonApiRelationship)) :
  payloadsFor r (l ++ l') = payloadsFor r l ++ payloadsFor r l'.
Proof. unfold payloadsFor. by rewrite filter_app, fmap_app. Qed.

Lemma payloadsFor_one r r' (p : JsonApiRelationship) :
  payloadsFor r [(r', p)] = if decide (r' = r) then [p] else [].
Proof.
  unfold payloadsFor. rewrite filter_cons, filter_nil. simpl.
  by repeat case_decide.
Qed.

(** The head of [Relationship.push]: the payload reaches the relationship. *)
Lemma wf_apply {b} (w : World) r R p :
  wf_upto b w → relationships w !! r = Some R →
  wf_upto b (with_relationships
        <[r := {| kind := kind R; rel_graph := rel_graph R;
                  rel_identifier := rel_identifier R; rel_key := rel_key R;
                  canonicalPushes := canonicalPushes R ++ [p] |}]>
        (with_applied (λ l, l ++ [(r, p)]) w)).
Proof.
  intros [[F1 F2 F3 F4 F5] W1 W2 W3 W4 W5 W6 W7 W8 W9] HR.
  set (R1 := {| kind := kind R; rel_graph := rel_graph R;
                rel_identifier := rel_identifier R; rel_key := rel_key R;
                canonicalPushes := canonicalPushes R ++ [p] |}).
  assert (Hmono : ∀ r' R', relationships w !! r' = Some R' →
     ∃ R'', <[r := R1]> (relationships w) !! r' = Some R'' ∧ kind R'' = kind R'
           ∧ rel_graph R'' = rel_graph R'
           ∧ rel_identifier R'' = rel_identifier R' ∧ rel_key R'' = rel_key R').
  { intros r' R' HR'. destruct (decide (r' = r)) as [->|?].
    - rewrite lookup_insert_eq. exists R1. by simplify_eq.
    - rewrite lookup_insert_ne by done. exists R'. done. }
  split; [split|..]; try assumption; simpl.
  - intros r' Hr'. ins; [|by apply F3]. apply F3. by rewrite HR.
  - intros g G k HG. destruct (W2 g G k HG) as (ps & ? & Hall).
    exists ps. split; [done|]. eapply Forall_impl; [exact Hall|].
    intros rp. apply entryOf_mono. simpl. intros r' R' HR'.
    destruct (Hmono _ _ HR') as (R'' & ? & ? & ? & _). eauto.
  - intros c C n r' HC Hn.
    destruct (W6 c C n r' HC Hn) as (R' & HR' & ? & ? & ? & ?).
    destruct (Hmono _ _ HR') as (R'' & ? & ? & ? & ? & ?).
    exists R''. split_and!; congruence.
  - intros r' R' HR'. ins; eauto.
  - intros r'. rewrite payloadsFor_app, payloadsFor_one, <- W9.
    unfold pushedTo. simpl. destruct (decide (r' = r)) as [->|?].
    + rewrite lookup_insert_eq, HR. simpl. by rewrite decide_True.
    + rewrite lookup_insert_ne by done. rewrite decide_False by done.
      by rewrite app_nil_r.
Qed.

(** *** Later stores extend earlier ones *)

Lemma extends_refl (w : World) : extends w w.
Proof. split; ext_same. Qed.

Lemma extends_trans (w1 w2 w3 : World) :
  extends w1 w2 → extends w2 w3 → extends w1 w3.
Proof.
  intros [A1 A2 A3 A4 A5 A6 A7 A8] [B1 B2 B3 B4 B5 B6 B7 B8]. split.
  - lia.
  - eauto.
  - intros g G HG. destruct (A3 _ _ HG) as (G' & HG' & ? & ? & ?).
    destruct (B3 _ _ HG') as (G'' & HG'' & ? & ? & ?).
    exists G''. split_and!; [done|congruence|by etrans..].
  - intros c C HC. destruct (A4 _ _ HC) as (C' & HC' & ? & ? & ?).
    destruct (B4 _ _ HC') as (C'' & HC'' & ? & ? & ?).
    exists C''. split_and!; [done|congruence..|by etrans].
  - intros r R HR. destruct (A5 _ _ HR) as (R' & HR' & ? & ? & ? & ? & ?).
    destruct (B5 _ _ HR') as (R'' & HR'' & ? & ? & ? & ? & ?).
    exists R''. split_and!; [done|congruence..|by etrans].
  - by etrans.
  - by etrans.
  - congruence.
Qed.

(** Updates that leave graphs, containers and relationships as they are. *)
Lemma extends_frame (w w' : World) :
  Graphs w' = Graphs w → graphs w' = graphs w → containers w' = containers w →
  relationships w' = relationships w →
  applied w `prefix_of` applied w' → enqueued w `prefix_of` enqueued w' →
  (next_ref w ≤ next_ref w')%positive → inRunLoop w' = inRunLoop w →
  extends w w'.
Proof.
  intros E1 E2 E3 E4 Ha He Hn Hl. split; rewrite ?E1, ?E2, ?E3, ?E4; ext_same.
Qed.

Lemma extends_Graphs (w : World) s g :
  Graphs w !! s = None → extends w (with_Graphs <[s := g]> w).
Proof.
  intros Hs. split; simpl; ext_same.
  intros s' g' Hs'. rewrite lookup_insert_ne by congruence. done.
Qed.

Lemma extends_graph (w : World) g G' :
  (∀ G, graphs w !! g = Some G →
     storeWrapper G' = storeWrapper G ∧ identifiers G ⊆ identifiers G'
     ∧ implicitMap G ⊆ implicitMap G') →
  extends w (with_graphs <[g := G']> w).
Proof.
  intros Hold. split; simpl; ext_same.
  intros g0 G0 HG0. destruct (decide (g0 = g)) as [->|?].
  - rewrite lookup_insert_eq. exists G'. split; [done|]. by apply Hold.
  - rewrite lookup_insert_ne by done. eexists; split_and!; [eassumption|done..].
Qed.

Lemma extends_container (w : World) c C' :
  (∀ C, containers w !! c = Some C →
     rs_graph C' = rs_graph C ∧ rs_identifier C' = rs_identifier C
     ∧ initializedRelationships C ⊆ initializedRelationships C') →
  extends w (with_containers <[c := C']> w).
Proof.
  intros Hold. split; simpl; ext_same.
  intros c0 C0 HC0. destruct (decide (c0 = c)) as [->|?].
  - rewrite lookup_insert_eq. exists C'. split; [done|]. by apply Hold.
  - rewrite lookup_insert_ne by done. eexists; split_and!; [eassumption|done..].
Qed.

Lemma extends_relationship (w : World) r R' :
  (∀ R, relationships w !! r = Some R →
     kind R' = kind R ∧ rel_graph R' = rel_graph R
     ∧ rel_identifier R' = rel_identifier R ∧ rel_key R' = rel_key R
     ∧ canonicalPushes R `prefix_of` canonicalPushes R') →
  extends w (with_relationships <[r := R']> w).
Proof.
  intros Hold. split; simpl; ext_same.
  intros r0 R0 HR0. destruct (decide (r0 = r)) as [->|?].
  - rewrite lookup_insert_eq. exists R'. split; [done|]. by apply Hold.
  - rewrite lookup_insert_ne by done. eexists; split_and!; [eassumption|done..].
Qed.

(** *** Stretches without a flush *)

Lemma queued_alt (w : World) g k :
  queued w g k =
  match _queued <$> graphs w !! g with
  | Some q => entries (default [] (arrays w !! queue_of q k))
  | None => []
  end.
Proof. unfold queued. by destruct (graphs w !! g). Qed.

Lemma eventsOf_app g k
    (e1 e2 : list (Ref * RelationshipKind * Ref * JsonApiRelationship)) :
  eventsOf g k (e1 ++ e2) = eventsOf g k e1 ++ eventsOf g k e2.
Proof. unfold eventsOf. apply omap_app. Qed.

Lemma detached_queues (w w' : World) a :
  (∀ g, _queued <$> graphs w' !! g = _queued <$> graphs w !! g) →
  detached w a → detached w' a.
Proof.
  intros Hq Hd g G k HG Heq. specialize (Hq g). rewrite HG in Hq. simpl in Hq.
  destruct (graphs w !! g) as [G0|] eqn:HG0; simplify_eq/=.
  eapply (Hd g G0 k); [exact HG0|]. congruence.
Qed.

Lemma delta_refl (w : World) : delta [] [] w w.
Proof. split; try done; intros; by rewrite app_nil_r. Qed.

Lemma delta_trans aps1 evs1 aps2 evs2 (w1 w2 w3 : World) :
  delta aps1 evs1 w1 w2 → delta aps2 evs2 w2 w3 →
  delta (aps1 ++ aps2) (evs1 ++ evs2) w1 w3.
Proof.
  intros [A1 A2 A3 A4 A5 A6] [B1 B2 B3 B4 B5 B6]. split.
  - by rewrite B1, A1, app_assoc.
  - by rewrite B2, A2, app_assoc.
  - intros g. by rewrite B3.
  - intros g k. by rewrite B4, A4, eventsOf_app, app_assoc.
  - intros a Ha. rewrite B5; [by apply A5|]. by eapply detached_queues.
  - congruence.
Qed.

(** Updates that touch neither a queue nor a trace. *)
Lemma delta_frame (w w' : World) :
  applied w' = applied w → enqueued w' = enqueued w →
  arrays w' = arrays w → Graphs w' = Graphs w →
  (∀ g, _queued <$> graphs w' !! g = _queued <$> graphs w !! g) →
  delta [] [] w w'.
Proof.
  intros E1 E2 E3 E4 Hq. split; rewrite ?E1, ?E2, ?E3, ?E4, ?app_nil_r; try done.
  intros g k. rewrite !queued_alt, Hq, E3. simpl. by rewrite app_nil_r.
Qed.

Lemma with_graphs_id (w : World) g G :
  graphs w !! g = Some G → with_graphs <[g := G]> w = w.
Proof.
  intros HG. destruct w. unfold with_graphs. simpl in *. f_equal.
  by apply insert_id.
Qed.

Lemma with_graphs_twice (w : World) g G G' :
  with_graphs <[g := G']> (with_graphs <[g := G]> w)
  = with_graphs <[g := G']> w.
Proof. unfold with_graphs. simpl. f_equal. apply insert_insert_eq. Qed.

Lemma set_nextFlush_id b G : _nextFlush G = b → set_nextFlush b G = G.
Proof. intros <-. by destruct G. Qed.

Lemma set_identifiers_id i c G :
  identifiers G !! i = Some c → set_identifiers <[i := c]> G = G.
Proof.
  intros Hi. destruct G. unfold set_identifiers. simpl in *. f_equal.
  by apply insert_id.
Qed.

(** The tail of [Graph.push] as a stretch: one pair enqueued. *)
Lemma delta_enqueue {b} (w w' : World) g G k ps r p :
  wf_upto b w → graphs w !! g = Some G →
  arrays w !! queue_of (_queued G) k = Some (slots ps) →
  applied w' = applied w → enqueued w' = enqueued w ++ [(g, k, r, p)] →
  Graphs w' = Graphs w →
  graphs w' = <[g := set_nextFlush true G]> (graphs w) →
  arrays w' =
    <[queue_of (_queued G) k := slots ps ++ [SRelationship r; SPayload p]]>
      (arrays w) →
  delta [] [(g, k, r, p)] w w'.
Proof.
  intros Hwf HG Hps E1 E2 E3 E4 E5.
  assert (Hq : ∀ g', _queued <$> graphs w' !! g' = _queued <$> graphs w !! g').
  { intros g'. rewrite E4. destruct (decide (g' = g)) as [->|?].
    - by rewrite lookup_insert_eq, HG.
    - by rewrite lookup_insert_ne. }
  split; rewrite ?app_nil_r; try done.
  - intros g' k'. rewrite !queued_alt, Hq, E5.
    destruct (graphs w !! g') as [G'|] eqn:HG'; simpl.
    + destruct (decide (queue_of (_queued G) k = queue_of (_queued G') k'))
        as [Heq|Hne].
      * destruct (wf_queue_inj _ _ _ Hwf _ _ _ _ _ _ HG HG' Heq) as [<- <-].
        assert (G' = G) as -> by congruence.
        rewrite lookup_insert_eq, Hps. simpl.
        rewrite decide_True by done.
        change [SRelationship r; SPayload p] with (slots [(r, p)]).
        by rewrite <- slots_app, !entries_slots.
      * rewrite lookup_insert_ne by done.
        rewrite decide_False; [by rewrite app_nil_r|].
        intros [-> ->]. apply Hne. congruence.
    + rewrite decide_False; [done|]. intros [-> _]. congruence.
  - intros a Ha. rewrite E5. rewrite lookup_insert_ne; [done|].
    intros <-. by eapply Ha.
Qed.

(** *** The scheduling discipline *)

Lemma oneFlush_frame (w w' : World) :
  oneFlush w → flushRelationships w' = flushRelationships w →
  (∀ g, _nextFlush <$> graphs w' !! g = _nextFlush <$> graphs w !! g) →
  oneFlush w'.
Proof.
  intros [O1 O2] E Hf. split; unfold scheduledFlushes; rewrite E.
  - intros g G HG. specialize (Hf g). rewrite HG in Hf.
    destruct (graphs w !! g) as [G0|] eqn:HG0; simplify_eq/=.
    rewrite Hf. by apply O1.
  - intros g Hg. specialize (Hf g). destruct (O2 g Hg) as [G0 HG0].
    rewrite HG0 in Hf. by destruct (graphs w' !! g).
Qed.

Lemma scheduledFlushes_absent (w : World) g :
  oneFlush w → graphs w !! g = None → scheduledFlushes w g = 0.
Proof.
  intros [_ O2] Hg. unfold scheduledFlushes.
  induction (flushRelationships w) as [|g' l IH]; [done|].
  rewrite filter_cons. case_decide as Heq.
  - subst g'. destruct (O2 g) as [G HG]; [by left|]. congruence.
  - apply IH. intros g'' Hg''. apply O2. by right.
Qed.

Lemma oneFlush_new_graph (w : World) g G :
  oneFlush w → graphs w !! g = None → _nextFlush G = false →
  oneFlush (with_graphs <[g := G]> w).
Proof.
  intros Ho Hg Hf. pose proof (scheduledFlushes_absent _ _ Ho Hg) as H0.
  destruct Ho as [O1 O2]. split; simpl.
  - intros g' G' HG'. ins.
    + by rewrite Hf.
    + by apply O1.
  - intros g' Hg'. apply O2 in Hg'. rewrite lookup_insert_is_Some'. by right.
Qed.

(** The tail of [Graph.push]: a flush is scheduled unless one is pending. *)
Lemma oneFlush_enqueue (w w' : World) g G :
  oneFlush w → graphs w !! g = Some G →
  graphs w' = <[g := set_nextFlush true G]> (graphs w) →
  flushRelationships w' =
    flushRelationships w ++ (if _nextFlush G then [] else [g]) →
  oneFlush w'.
Proof.
  intros [O1 O2] HG E1 E2. split; unfold scheduledFlushes; rewrite E1, E2.
  - intros g' G' HG'. rewrite filter_app, length_app.
    apply lookup_insert_Some in HG' as [[<- <-]|[Hne HG']]; simpl.
    + pose proof (O1 _ _ HG) as Hc. unfold scheduledFlushes in Hc.
      rewrite Hc. destruct (_nextFlush G); [done|].
      rewrite filter_cons, decide_True by done. done.
    + pose proof (O1 _ _ HG') as Hc. unfold scheduledFlushes in Hc.
      rewrite Hc. destruct (_nextFlush G).
      * rewrite filter_nil. simpl. lia.
      * rewrite filter_cons, decide_False by done. rewrite filter_nil.
        simpl. lia.
  - intros g' Hg'. rewrite lookup_insert_is_Some'.
    apply elem_of_app in Hg' as [Hg'|Hg'].
    + apply O2 in Hg'. by right.
    + left. destruct (_nextFlush G); [by apply elem_of_nil in Hg'|].
      by apply list_elem_of_singleton in Hg'.
Qed.

(** The run loop takes the flush of [g] off its queue and [flush] clears the
    flag. *)
Lemma oneFlush_taken (w : World) g G rest :
  oneFlush w → flushRelationships w = g :: rest → graphs w !! g = Some G →
  oneFlush (with_graphs <[g := set_nextFlush false G]>
              (with_flushRelationships (λ _, rest) w)).
Proof.
  intros [O1 O2] Hq HG. split; unfold scheduledFlushes in *; simpl.
  - intros g' G' HG'.
    apply lookup_insert_Some in HG' as [[<- <-]|[Hne HG']]; simpl.
    + pose proof (O1 _ _ HG) as Hc. rewrite Hq in Hc.
      rewrite filter_cons, decide_True in Hc by done. simpl in Hc.
      destruct (_nextFlush G); lia.
    + pose proof (O1 _ _ HG') as Hc. rewrite Hq in Hc.
      rewrite filter_cons, decide_False in Hc by done. done.
  - intros g' Hg'. rewrite lookup_insert_is_Some'. right.
    apply O2. rewrite Hq. by apply elem_of_cons; right.
Qed.

(** *** What each operation does *)

Lemma graphFor_spec {b} (w : World) s :
  wf_upto b w →
  ∃ g w', graphFor s w = Some (g, w') ∧ wf_upto b w' ∧ extends w w'
    ∧ (oneFlush w → oneFlush w')
    ∧ Graphs w' !! s = Some g
    ∧ (Graphs w !! s = Some g ∧ w' = w
       ∨ Graphs w !! s = None ∧ graphs w !! g = None
         ∧ Graphs w' = <[s := g]> (Graphs w)).
Proof.
  intros Hwf. unfold graphFor, new_Graph, new_Queued, new_Array. munfold.
  destruct (Graphs w !! s) as [g|] eqn:Hs; simpl.
  { exists g, w. split_and!; auto using extends_refl. }
  assert (Hg : graphs w !! next_ref w = None).
  { apply eq_None_not_Some. intros H%(fresh_graphs _ (wf_fresh _ _ _ Hwf)). lia. }
  assert (Ha : ∀ a, (next_ref w ≤ a)%positive → arrays w !! a = None).
  { intros a Hle. apply eq_None_not_Some.
    intros H%(fresh_arrays _ (wf_fresh _ _ _ Hwf)). lia. }
  set (w1 := with_next_ref Pos.succ (with_next_ref Pos.succ w)).
  set (w2 := with_arrays <[Pos.succ (next_ref w) := []]> w1).
  set (w3 := with_next_ref Pos.succ w2).
  set (w4 := with_arrays <[Pos.succ (Pos.succ (next_ref w)) := []]> w3).
  assert (wf_upto b w1) as Hwf1 by (by do 2 apply wf_next).
  assert (wf_upto b w2) as Hwf2.
  { apply wf_new_array; [done|apply Ha; lia|simpl; lia]. }
  assert (wf_upto b w3) as Hwf3 by (by apply wf_next).
  assert (wf_upto b w4) as Hwf4.
  { apply wf_new_array; [done| |simpl; lia]. simpl.
    rewrite lookup_insert_ne by lia. apply Ha. lia. }
  eexists _, _. split; [reflexivity|]. split_and!.
  - apply wf_Graphs_insert with (G := {|
      _queued := {| belongsTo := Pos.succ (next_ref w);
                    hasMany := Pos.succ (Pos.succ (next_ref w)) |};
      _nextFlush := false; identifiers := ∅; implicitMap := ∅;
      storeWrapper := s |}); [|simpl; by rewrite lookup_insert_eq|done].
    apply wf_fresh_queues with
      (q := {| belongsTo := Pos.succ (next_ref w);
               hasMany := Pos.succ (Pos.succ (next_ref w)) |});
      simpl; try done.
    + lia.
    + intros G0. rewrite Hg. done.
    + rewrite lookup_insert_ne by lia. by rewrite lookup_insert_eq.
    + by rewrite lookup_insert_eq.
    + lia.
    + intros g G k HG Heq. destruct (wf_queue _ _ _ Hwf g G k HG) as (? & Hl & _).
      rewrite Heq, Ha in Hl by lia. done.
    + intros g G k HG Heq. destruct (wf_queue _ _ _ Hwf g G k HG) as (? & Hl & _).
      rewrite Heq, Ha in Hl by lia. done.
  - split; simpl; ext_same.
    + intros s' g' Hs'. rewrite lookup_insert_ne by congruence. done.
    + intros g' G' HG'. rewrite lookup_insert_ne by congruence.
      eexists; split_and!; [eassumption|done..].
  - intros Ho. apply oneFlush_frame with
      (w := with_graphs <[next_ref w := {|
          _queued := {| belongsTo := Pos.succ (next_ref w);
                        hasMany := Pos.succ (Pos.succ (next_ref w)) |};
          _nextFlush := false; identifiers := ∅; implicitMap := ∅;
          storeWrapper := s |}]> w); [|done..].
    by apply oneFlush_new_graph.
  - simpl. by rewrite lookup_insert_eq.
  - right. done.
Qed.

Lemma Graph_get_spec {b} (w : World) g G i :
  wf_upto b w → graphs w !! g = Some G →
  ∃ c w', Graph_get g i w = Some (c, w') ∧ wf_upto b w' ∧ extends w w'
    ∧ delta [] [] w w' ∧ (oneFlush w → oneFlush w')
    ∧ relationships w' = relationships w
    ∧ flushRelationships w' = flushRelationships w
    ∧ arrays w' = arrays w
    ∧ graphs w' = <[g := set_identifiers <[i := c]> G]> (graphs w)
    ∧ (identifiers G !! i = Some c ∧ w' = w
       ∨ identifiers G !! i = None ∧ containers w !! c = None
         ∧ containers w' =
             <[c := {| rs_graph := g; rs_identifier := i;
                       initializedRelationships := ∅ |}]> (containers w)).
Proof.
  intros Hwf HG. unfold Graph_get, this, assign, this, new_Relationships.
  munfold. rewrite HG. simpl.
  destruct (identifiers G !! i) as [c|] eqn:Hi; simpl.
  { exists c, w. split_and!; auto using extends_refl, delta_refl.
    rewrite set_identifiers_id by done. by rewrite insert_id. }
  rewrite HG. simpl.
  assert (Hc : containers w !! next_ref w = None).
  { apply eq_None_not_Some.
    intros H%(fresh_containers _ (wf_fresh _ _ _ Hwf)). lia. }
  set (C0 := {| rs_graph := g; rs_identifier := i;
                initializedRelationships := ∅ |}).
  eexists _, _. split; [reflexivity|]. split_and!; try done.
  - apply wf_set_identifiers with (C := C0); try done.
    + apply wf_new_container; simpl; try done.
      * by apply wf_next.
      * lia.
    + simpl. by rewrite lookup_insert_eq.
  - split; simpl; ext_same.
    + intros g' G' HG'. destruct (decide (g' = g)) as [->|?].
      * rewrite lookup_insert_eq. eexists. split; [done|]. simplify_eq/=.
        split_and!; [done| |done]. by apply insert_subseteq.
      * rewrite lookup_insert_ne by done.
        eexists; split_and!; [eassumption|done..].
    + intros c' C' HC'. rewrite lookup_insert_ne by congruence.
      eexists; split_and!; [eassumption|done..].
  - apply delta_frame; try done. simpl. intros g'.
    destruct (decide (g' = g)) as [->|?].
    + by rewrite lookup_insert_eq, HG.
    + by rewrite lookup_insert_ne.
  - intros Ho. eapply oneFlush_frame; [exact Ho|done|]. simpl. intros g'.
    destruct (decide (g' = g)) as [->|?].
    + by rewrite lookup_insert_eq, HG.
    + by rewrite lookup_insert_ne.
  - right. done.
Qed.

Lemma Graph_getImplicit_spec {b} (w : World) g G i :
  wf_upto b w → graphs w !! g = Some G →
  ∃ d w', Graph_getImplicit g i w = Some (d, w') ∧ wf_upto b w' ∧ extends w w'
    ∧ (oneFlush w → oneFlush w')
    ∧ (∃ G', graphs w' !! g = Some G' ∧ implicitMap G' !! i = Some d)
    ∧ (implicitMap G !! i = Some d ∧ w' = w
       ∨ implicitMap G !! i = None ∧ dicts w !! d = None).
Proof.
  intros Hwf HG. unfold Graph_getImplicit, this, assign, this. munfold.
  rewrite HG. simpl.
  destruct (implicitMap G !! i) as [d|] eqn:Hi; simpl.
  { exists d, w. split_and!; eauto using extends_refl. }
  rewrite HG. simpl.
  assert (Hd : dicts w !! next_ref w = None).
  { apply eq_None_not_Some. intros H%(fresh_dicts _ (wf_fresh _ _ _ Hwf)). lia. }
  eexists _, _. split; [reflexivity|]. split_and!.
  - apply wf_set_implicitMap; [|done]. apply wf_new_dict; [|simpl; lia].
    by apply wf_next.
  - split; simpl; ext_same.
    intros g' G' HG'. destruct (decide (g' = g)) as [->|?].
    + rewrite lookup_insert_eq. eexists. split; [done|]. simplify_eq/=.
      split_and!; [done..|]. by apply insert_subseteq.
    + rewrite lookup_insert_ne by done.
      eexists; split_and!; [eassumption|done..].
  - intros Ho. eapply oneFlush_frame; [exact Ho|done|]. simpl. intros g'.
    destruct (decide (g' = g)) as [->|?].
    + by rewrite lookup_insert_eq, HG.
    + by rewrite lookup_insert_ne.
  - simpl. rewrite lookup_insert_eq. eexists. split; [done|]. simpl.
    by rewrite lookup_insert_eq.
  - right. done.
Qed.

Lemma Relationships_get_spec {b} (w : World) c C n :
  wf_upto b w → containers w !! c = Some C →
  ∃ r w', Relationships_get c n w = Some (r, w') ∧ wf_upto b w' ∧ extends w w'
    ∧ delta [] [] w w' ∧ (oneFlush w → oneFlush w')
    ∧ graphs w' = graphs w
    ∧ flushRelationships w' = flushRelationships w
    ∧ arrays w' = arrays w
    ∧ relationships w ⊆ relationships w'
    ∧ (∃ C', containers w' !! c = Some C'
             ∧ initializedRelationships C' !! n = Some r)
    ∧ (initializedRelationships C !! n = Some r ∧ w' = w
       ∨ initializedRelationships C !! n = None ∧ relationships w !! r = None).
Proof.
  intros Hwf HC. unfold Relationships_get. munfold. rewrite HC. simpl.
  destruct (initializedRelationships C !! n) as [r|] eqn:Hn; simpl.
  { exists r, w. split_and!; eauto using extends_refl, delta_refl. }
  assert (Hr : relationships w !! next_ref w = None).
  { apply eq_None_not_Some.
    intros H%(fresh_relationships _ (wf_fresh _ _ _ Hwf)). lia. }
  set (R0 := {| kind := relationshipKind (rs_identifier C) n;
                rel_graph := rs_graph C; rel_identifier := rs_identifier C;
                rel_key := n; canonicalPushes := [] |}).
  eexists _, _. split; [reflexivity|]. split_and!; try done.
  - apply wf_set_initialized with (R := R0); try done.
    + apply wf_relationship_insert; simpl.
      * by apply wf_next.
      * lia.
      * by eapply wf_container_owner.
      * intros R1. rewrite Hr. done.
      * unfold pushedTo. simpl. by rewrite Hr.
    + simpl. by rewrite lookup_insert_eq.
  - split; simpl; ext_same.
    + intros c' C' HC'. destruct (decide (c' = c)) as [->|?].
      * rewrite lookup_insert_eq. eexists. split; [done|]. simplify_eq/=.
        split_and!; [done..|]. by apply insert_subseteq.
      * rewrite lookup_insert_ne by done.
        eexists; split_and!; [eassumption|done..].
    + intros r' R' HR'. rewrite lookup_insert_ne by congruence.
      eexists; split_and!; [eassumption|done..].
  - by apply delta_frame.
  - intros Ho. by eapply oneFlush_frame.
  - simpl. by apply insert_subseteq.
  - simpl. rewrite lookup_insert_eq. eexists. split; [done|]. simpl.
    by rewrite lookup_insert_eq.
  - right. done.
Qed.

(** The body of [Graph.push], whatever the fuel. *)
Lemma Graph_push_eq fuel g i n p :
  Graph_push fuel g i n p =
  bind (Graph_get g i) (λ c,
  bind (Relationships_get c n) (λ relationship,
  bind (deref (λ w : World, relationships w !! relationship)) (λ R,
  bind (this g) (λ G,
  bind (Array_push (queue_of (_queued G) (kind R))
          [SRelationship relationship; SPayload p]) (λ _,
  bind (modify (with_enqueued
          (λ l, l ++ [(g, kind R, relationship, p)]))) (λ _,
  if _nextFlush G then ret tt
  else
    bind (join (schedule g)
            (match fuel with
             | O => throw
             | S fuel' => backburner_end_via reenter (λ _, Graph_push fuel') fuel'
             end))
         (λ _, assign g (set_nextFlush true)))))))).
Proof. destruct fuel; reflexivity. Qed.

(** *** Steps of the monad *)

Lemma bind_Some {A B} (m : M A) (k : A → M B) (w w' : World) b :
  bind m k w = Some (b, w') →
  ∃ a w1, m w = Some (a, w1) ∧ k a w1 = Some (b, w').
Proof. unfold bind. destruct (m w) as [[a w1]|]; [eauto|done]. Qed.

Lemma deref_Some {A} (f : World → option A) (w w' : World) a :
  deref f w = Some (a, w') → f w = Some a ∧ w' = w.
Proof. unfold deref. destruct (f w); [|done]. by intros [= <- <-]. Qed.

Lemma forEach_preserves {A} (R : World → World → Prop) (f : A → M unit) l :
  (∀ w, R w w) → (∀ w1 w2 w3, R w1 w2 → R w2 w3 → R w1 w3) →
  (∀ x w w', f x w = Some (tt, w') → R w w') →
  ∀ w w', forEach f l w = Some (tt, w') → R w w'.
Proof.
  intros Hrefl Htrans Hf. induction l as [|x l IH]; intros w w'; simpl.
  { intros [= <-]. apply Hrefl. }
  intros (u & w1 & H1 & H2)%bind_Some. destruct u; eauto.
Qed.

(** *** The run loop stays open *)

Lemma Graph_get_inRunLoop (w w' : World) g i c :
  Graph_get g i w = Some (c, w') → inRunLoop w' = inRunLoop w.
Proof.
  unfold Graph_get, this, assign, this, new_Relationships. munfold.
  destruct (graphs w !! g) as [G|] eqn:HG; [|done]. simpl.
  destruct (identifiers G !! i); simpl.
  { by intros [= <- <-]. }
  rewrite HG. simpl. by intros [= <- <-].
Qed.

Lemma Relationships_get_inRunLoop (w w' : World) c n r :
  Relationships_get c n w = Some (r, w') → inRunLoop w' = inRunLoop w.
Proof.
  unfold Relationships_get. munfold.
  destruct (containers w !! c) as [C|]; [|done]. simpl.
  destruct (initializedRelationships C !! n); simpl; by intros [= <- <-].
Qed.

(** Inside a run loop [Graph.push] runs no loop of its own: the fuel does
    not matter, and the loop is open afterwards. *)
Lemma Graph_push_open fuel fuel' g i n p (w : World) :
  inRunLoop w = true →
  Graph_push fuel g i n p w = Graph_push fuel' g i n p w
  ∧ ∀ w', Graph_push fuel g i n p w = Some (tt, w') → inRunLoop w' = true.
Proof.
  intros Hloop. rewrite !Graph_push_eq. unfold bind.
  destruct (Graph_get g i w) as [[c w1]|] eqn:E1; [|done].
  apply Graph_get_inRunLoop in E1.
  destruct (Relationships_get c n w1) as [[r w2]|] eqn:E2; [|done].
  apply Relationships_get_inRunLoop in E2.
  assert (Hloop2 : inRunLoop w2 = true) by congruence.
  unfold join, this, assign, this, Array_push, schedule. munfold.
  destruct (relationships w2 !! r) as [R|]; [|done]. simpl.
  destruct (graphs w2 !! g) as [G|] eqn:HG; [|done]. simpl.
  destruct (arrays w2 !! _) as [old|]; [|done]. simpl.
  destruct (_nextFlush G); simpl.
  { split; [done|]. by intros w' [= <-]. }
  rewrite Hloop2. simpl. rewrite HG. simpl.
  split; [done|]. by intros w' [= <-].
Qed.

Lemma Relationship_push_open fuel fuel' r p (w : World) :
  inRunLoop w = true ∨ (∀ w0 r p, reenter w0 r p = []) →
  Relationship_push fuel r p w = Relationship_push fuel' r p w
  ∧ ∀ w', Relationship_push fuel r p w = Some (tt, w') →
          inRunLoop w' = inRunLoop w.
Proof.
  intros Hloop. unfold Relationship_push, Relationship_push_via. munfold.
  destruct (relationships w !! r) as [R|]; [|done]. simpl.
  destruct Hloop as [Hloop|Hq].
  2:{ rewrite Hq. simpl. split; [done|]. by intros w' [= <-]. }
  set (w1 := with_relationships _ _).
  assert (Hloop1 : inRunLoop w1 = true) by done.
  rewrite Hloop. clearbody w1. revert w1 Hloop1.
  induction (reenter w r p) as [|[[i n] p'] calls IH]; intros w1 Hloop1; simpl.
  { split; [done|]. by intros w' [= <-]. }
  munfold.
  destruct (Graph_push_open fuel fuel' (rel_graph R) i n p' w1 Hloop1)
    as [<- Hkeep].
  destruct (Graph_push fuel (rel_graph R) i n p' w1) as [[[] w2]|]; [|done].
  apply IH. by apply Hkeep.
Qed.

(** A push that runs no flush: a run loop is open, or the flag is set. *)
Lemma Graph_push_spec {b} (w : World) fuel g G i n p :
  wf_upto b w → graphs w !! g = Some G →
  inRunLoop w = true ∨ _nextFlush G = true →
  ∃ r w', Graph_push fuel g i n p w = Some (tt, w') ∧ wf_upto b w' ∧ extends w w'
    ∧ delta [] [(g, relationshipKind i n, r, p)] w w'
    ∧ (oneFlush w → oneFlush w')
    ∧ relationships w ⊆ relationships w'
    ∧ lookupRelationship w' g i n = Some r
    ∧ flushRelationships w' =
        flushRelationships w ++ (if _nextFlush G then [] else [g])
    ∧ (∃ G', graphs w' !! g = Some G' ∧ _nextFlush G' = true
             ∧ _queued G' = _queued G).
Proof.
  intros Hwf HG Hloop.
  destruct (Graph_get_spec w g G i Hwf HG)
    as (c & w1 & E1 & Hwf1 & Hext1 & Hd1 & Ho1 & Hr1 & Hf1 & Ha1 & Hg1 & _).
  remember (set_identifiers <[i := c]> G) as G1 eqn:EG1.
  assert (HG1 : graphs w1 !! g = Some G1) by (by rewrite Hg1, lookup_insert_eq).
  assert (Hi1 : identifiers G1 !! i = Some c).
  { subst G1. simpl. by rewrite lookup_insert_eq. }
  assert (Hq1 : _queued G1 = _queued G) by (by subst G1).
  assert (Hn1 : _nextFlush G1 = _nextFlush G) by (by subst G1).
  clear EG1.
  destruct (wf_identifiers _ _ _ Hwf1 g G1 i c HG1 Hi1) as (C & HC & HCg & HCi).
  destruct (Relationships_get_spec w1 c C n Hwf1 HC)
    as (r & w2 & E2 & Hwf2 & Hext2 & Hd2 & Ho2 & Hg2 & Hf2 & Ha2 & Hr2
        & (C' & HC' & Hn') & _).
  destruct (wf_initialized _ _ _ Hwf2 c C' n r HC' Hn')
    as (R & HR & Hk & HRg & HRi & HRn).
  destruct (ext_containers _ _ Hext2 c C HC) as (C'' & HC'' & HCg' & HCi' & _).
  assert (C'' = C') as -> by congruence.
  assert (HG2 : graphs w2 !! g = Some G1) by (by rewrite Hg2).
  destruct (wf_queue _ _ _ Hwf2 g G1 (kind R) HG2) as (ps & Hps & _).
  assert (Hent : entryOf w2 g (kind R) (r, p)).
  { exists R. split_and!; [done..|congruence]. }
  assert (Hkind : kind R = relationshipKind i n) by congruence.
  exists r.
  set (w3 := with_enqueued (λ l, l ++ [(g, kind R, r, p)])
               (with_arrays
                  <[queue_of (_queued G1) (kind R) :=
                      slots ps ++ [SRelationship r; SPayload p]]> w2)).
  set (w4 := if _nextFlush G1 then w3
             else with_graphs <[g := set_nextFlush true G1]>
                    (with_flushRelationships (λ q, q ++ [g]) w3)).
  exists w4.
  assert (Hrun : Graph_push fuel g i n p w = Some (tt, w4)).
  { rewrite Graph_push_eq.
    unfold join, this, assign, this, Array_push, schedule. munfold.
    rewrite E1. simpl. rewrite E2. simpl. rewrite HR. simpl. rewrite HG2.
    simpl. rewrite Hps. simpl. unfold w4.
    destruct (_nextFlush G1) eqn:Hflag; [done|]. simpl.
    rewrite (ext_inRunLoop _ _ Hext2), (ext_inRunLoop _ _ Hext1).
    destruct Hloop as [->|Hflag']; [|congruence]. simpl. rewrite HG2. done. }
  assert (Hgraphs : graphs w4 = <[g := set_nextFlush true G1]> (graphs w2)).
  { unfold w4. destruct (_nextFlush G1) eqn:Hflag; simpl; [|done].
    rewrite set_nextFlush_id by done. by rewrite insert_id. }
  assert (Harrays : arrays w4 =
    <[queue_of (_queued G1) (kind R) :=
        slots ps ++ [SRelationship r; SPayload p]]> (arrays w2)).
  { unfold w4. by destruct (_nextFlush G1). }
  assert (Hflush : flushRelationships w4 =
    flushRelationships w2 ++ (if _nextFlush G1 then [] else [g])).
  { unfold w4. destruct (_nextFlush G1); simpl; [|done]. by rewrite app_nil_r. }
  assert (Hrels : relationships w4 = relationships w2).
  { unfold w4. by destruct (_nextFlush G1). }
  assert (Hconts : containers w4 = containers w2).
  { unfold w4. by destruct (_nextFlush G1). }
  assert (Hwf4 : wf_upto b w4).
  { pose proof (wf_enqueue w2 g G1 (kind R) (slots ps) r p Hwf2 HG2 Hps Hent)
      as Hwf3.
    unfold w4. destruct (_nextFlush G1) eqn:Hflag.
    - eapply wf_frame; [exact Hwf3|done..].
    - eapply wf_frame; [exact Hwf3|done..]. }
  assert (Hext4 : extends w2 w4).
  { split; rewrite ?Hrels, ?Hconts, ?Hgraphs; ext_same.
    - unfold w4. destruct (_nextFlush G1); simpl; lia.
    - unfold w4. by destruct (_nextFlush G1).
    - intros g' G' HG'. destruct (decide (g' = g)) as [->|?].
      + rewrite lookup_insert_eq. eexists. split; [done|]. by simplify_eq/=.
      + rewrite lookup_insert_ne by done.
        eexists; split_and!; [eassumption|done..].
    - unfold w4. by destruct (_nextFlush G1).
    - unfold w4. destruct (_nextFlush G1); simpl; by apply prefix_app_r.
    - unfold w4. by destruct (_nextFlush G1). }
  assert (Hd4 : delta [] [(g, kind R, r, p)] w2 w4).
  { eapply delta_enqueue; try done; unfold w4; by destruct (_nextFlush G1). }
  split; [done|]. split_and!.
  - done.
  - eapply extends_trans; [exact Hext1|]. by eapply extends_trans.
  - rewrite <- Hkind.
    pose proof (delta_trans _ _ _ _ _ _ _ Hd1
                  (delta_trans _ _ _ _ _ _ _ Hd2 Hd4)) as Hd.
    exact Hd.
  - intros Ho. apply Ho1, Ho2 in Ho.
    eapply oneFlush_enqueue; [exact Ho|exact HG2|done..].
  - rewrite Hrels, <- Hr1. done.
  - unfold lookupRelationship. rewrite Hgraphs, lookup_insert_eq. simpl.
    rewrite Hi1. simpl. rewrite Hconts, HC'. done.
  - rewrite Hflush, Hf2, Hf1, Hn1. done.
  - rewrite Hgraphs, lookup_insert_eq. eexists. done.
Qed.

Lemma lookupRelationship_mono (w w' : World) g i n r :
  extends w w' → lookupRelationship w g i n = Some r →
  lookupRelationship w' g i n = Some r.
Proof.
  intros Hext. unfold lookupRelationship. intros H.
  destruct (graphs w !! g) as [G|] eqn:HG; simplify_eq/=.
  destruct (identifiers G !! i) as [c|] eqn:Hi; simplify_eq/=.
  destruct (containers w !! c) as [C|] eqn:HC; simplify_eq/=.
  destruct (ext_graphs _ _ Hext _ _ HG) as (G' & -> & _ & Hsub & _). simpl.
  rewrite (lookup_weaken _ _ _ _ Hi Hsub). simpl.
  destruct (ext_containers _ _ Hext _ _ HC) as (C' & -> & _ & _ & Hsub'). simpl.
  by eapply lookup_weaken.
Qed.

Lemma pushAll_spec {b} reqs fuel : ∀ (w : World) g G,
  wf_upto b w → graphs w !! g = Some G →
  (reqs ≠ [] → inRunLoop w = true ∨ _nextFlush G = true) →
  ∃ evs w', pushAll fuel g reqs w = Some (tt, w') ∧ wf_upto b w' ∧ extends w w'
    ∧ delta [] evs w w' ∧ (oneFlush w → oneFlush w')
    ∧ relationships w ⊆ relationships w'
    ∧ Forall2 (pushed w' g) reqs evs
    ∧ flushRelationships w' =
        flushRelationships w ++
        (if bool_decide (reqs = []) || _nextFlush G then [] else [g])
    ∧ (∃ G', graphs w' !! g = Some G' ∧ _queued G' = _queued G
             ∧ _nextFlush G' = bool_decide (reqs ≠ []) || _nextFlush G).
Proof.
  induction reqs as [|[[i n] p] reqs IH]; intros w g G Hwf HG Hloop.
  { exists [], w. simpl. rewrite app_nil_r.
    split_and!; eauto using extends_refl, delta_refl. }
  destruct (Graph_push_spec w fuel g G i n p Hwf HG) as
    (r & w1 & E1 & Hwf1 & Hext1 & Hd1 & Ho1 & Hr1 & Hl1 & Hf1
     & (G1 & HG1 & Hn1 & Hq1)); [by apply Hloop|].
  destruct (IH w1 g G1 Hwf1 HG1 (λ _, or_intror Hn1))
    as (evs & w2 & E2 & Hwf2 & Hext2 & Hd2 & Ho2 & Hr2 & Hl2 & Hf2
        & (G2 & HG2 & Hq2 & Hn2)).
  exists ((g, relationshipKind i n, r, p) :: evs), w2. split_and!.
  - unfold pushAll in *. simpl. munfold. rewrite E1. exact E2.
  - done.
  - by eapply extends_trans.
  - exact (delta_trans _ _ _ _ _ _ _ Hd1 Hd2).
  - auto.
  - by etrans.
  - constructor; [|done]. split_and!; try done.
    by eapply lookupRelationship_mono.
  - rewrite Hf2, Hf1, Hn1, orb_true_r, app_nil_r.
    by rewrite (bool_decide_false (_ :: _ = [])).
  - exists G2. split_and!; [done|congruence|]. rewrite Hn2, Hn1.
    rewrite orb_true_r. by rewrite bool_decide_true.
Qed.

Lemma schedules_nil g (w : World) : schedules g [] w w.
Proof.
  split; [constructor|]. intros G HG. simpl. rewrite app_nil_r.
  split; [done|]. by exists G.
Qed.

Lemma schedules_trans g e1 e2 (w w1 w2 : World) :
  schedules g e1 w w1 → schedules g e2 w1 w2 → schedules g (e1 ++ e2) w w2.
Proof.
  intros [A1 A2] [B1 B2]. split; [by apply Forall_app|].
  intros G HG. destruct (A2 G HG) as (Hf1 & G1 & HG1 & Hn1).
  destruct (B2 G1 HG1) as (Hf2 & G2 & HG2 & Hn2).
  rewrite Hf2, Hf1, Hn1. split.
  - rewrite <- app_assoc. f_equal.
    destruct e1, e2, (_nextFlush G); done.
  - exists G2. split; [done|]. rewrite Hn2, Hn1.
    destruct e1, e2, (_nextFlush G); done.
Qed.

Lemma schedules_frame g (w w' : World) :
  graphs w' = graphs w → flushRelationships w' = flushRelationships w →
  schedules g [] w w'.
Proof.
  intros E1 E2. split; [constructor|]. intros G HG. simpl.
  rewrite E1, E2, app_nil_r. split; [done|]. by exists G.
Qed.

Lemma pushAll_schedules {b} reqs fuel (w : World) g G :
  wf_upto b w → graphs w !! g = Some G →
  (reqs ≠ [] → inRunLoop w = true ∨ _nextFlush G = true) →
  ∃ evs w', pushAll fuel g reqs w = Some (tt, w') ∧ wf_upto b w' ∧ extends w w'
    ∧ delta [] evs w w' ∧ (oneFlush w → oneFlush w')
    ∧ (reqs = [] → evs = []) ∧ schedules g evs w w'.
Proof.
  intros Hwf HG Hloop.
  destruct (pushAll_spec reqs fuel w g G Hwf HG Hloop)
    as (evs & w' & E & Hwf' & Hext & Hd & Ho & _ & Hall & Hf
        & (G' & HG' & _ & Hn)).
  exists evs, w'. split_and!; try done.
  - intros ->. by apply Forall2_nil_inv_l in Hall.
  - split.
    + clear -Hall. induction Hall as [|[[i n] p] [[[g' k] r] p'] ? ? Hp _ IH];
        constructor; [|done]. by destruct Hp as (-> & _).
    + intros G0 HG0. assert (G0 = G) as -> by congruence.
      assert (bool_decide (evs = []) = bool_decide (reqs = [])) as ->.
      { destruct Hall; done. }
      assert (bool_decide (evs ≠ []) = bool_decide (reqs ≠ [])) as ->.
      { destruct Hall; done. }
      split; [done|]. by exists G'.
Qed.

Lemma Relationship_push_spec {b} (w : World) fuel r R p :
  wf_upto b w → relationships w !! r = Some R →
  inRunLoop w = true ∨ reenter w r p = [] →
  ∃ evs w', Relationship_push fuel r p w = Some (tt, w') ∧ wf_upto b w' ∧ extends w w'
    ∧ delta [(r, p)] evs w w' ∧ (oneFlush w → oneFlush w')
    ∧ (reenter w r p = [] → evs = [])
    ∧ schedules (rel_graph R) evs w w'.
Proof.
  intros Hwf HR Hloop.
  set (R1 := {| kind := kind R; rel_graph := rel_graph R;
                rel_identifier := rel_identifier R; rel_key := rel_key R;
                canonicalPushes := canonicalPushes R ++ [p] |}).
  set (w1 := with_relationships <[r := R1]>
               (with_applied (λ l, l ++ [(r, p)]) w)).
  assert (Hwf1 : wf_upto b w1) by (by apply wf_apply).
  destruct (wf_owner _ _ _ Hwf r R HR) as [G HG].
  destruct (pushAll_schedules (reenter w r p) fuel w1 (rel_graph R) G Hwf1 HG)
    as (evs & w2 & E2 & Hwf2 & Hext2 & Hd2 & Ho2 & Hnil & Hs2).
  { intros Hne. left. by destruct Hloop. }
  exists evs, w2. split_and!.
  - unfold Relationship_push, Relationship_push_via. munfold.
    rewrite HR. simpl. exact E2.
  - done.
  - eapply extends_trans; [|exact Hext2]. split; simpl; ext_same.
    + intros r' R' HR'. destruct (decide (r' = r)) as [->|?].
      * rewrite lookup_insert_eq. exists R1. simplify_eq/=.
        split_and!; try done. by apply prefix_app_r.
      * rewrite lookup_insert_ne by done.
        eexists; split_and!; [eassumption|done..].
    + by apply prefix_app_r.
  - assert (Hd1 : delta [(r, p)] [] w w1).
    { split; simpl; rewrite ?app_nil_r; try done.
      intros g' k'. by rewrite app_nil_r. }
    exact (delta_trans _ _ _ _ _ _ _ Hd1 Hd2).
  - intros Ho. apply Ho2. eapply oneFlush_frame; [exact Ho|done..].
  - done.
  - apply (schedules_trans _ [] evs w w1 w2); [|done].
    by apply schedules_frame.
Qed.

Lemma slots_lookup (done : list (Ref * JsonApiRelationship)) r p rest :
  slots (done ++ (r, p) :: rest) !! (2 * length done) = Some (SRelationship r)
  ∧ slots (done ++ (r, p) :: rest) !! (2 * length done + 1) = Some (SPayload p).
Proof.
  rewrite slots_app. split.
  - rewrite lookup_app_r by (rewrite slots_length; lia).
    rewrite slots_length. by replace (_ - _) with 0 by lia.
  - rewrite lookup_app_r by (rewrite slots_length; lia).
    rewrite slots_length. by replace (_ - _) with 1 by lia.
Qed.

Lemma drain_S fuel a i (w : World) :
  drain (S fuel) a i w =
  match arrays w !! a with
  | None => None
  | Some xs =>
      if decide (i < length xs) then
        match xs !! i, xs !! (i + 1) with
        | Some (SRelationship r), Some (SPayload p) =>
            match Relationship_push fuel r p w with
            | Some (_, w1) => drain fuel a (i + 2) w1
            | None => None
            end
        | _, _ => None
        end
      else Some (tt, w)
  end.
Proof.
  simpl. munfold. destruct (arrays w !! a) as [xs|]; [|done]. simpl.
  case_decide; [|done].
  destruct (xs !! i) as [[r|?]|]; [|done..].
  destruct (xs !! (i + 1)) as [[?|p]|]; done.
Qed.

(** The loop of [flush] over an array that no graph holds any more: it
    returns after one iteration per pair, having handed every pair to its
    relationship in array order; what the relationships push meanwhile goes
    to the queues of the graphs. *)
Lemma drain_spec {b} a g rest : ∀ done fuel (w : World),
  wf_upto b w → arrays w !! a = Some (slots (done ++ rest)) → detached w a →
  Forall (λ rp, ∃ R, relationships w !! rp.1 = Some R ∧ rel_graph R = g) rest →
  length rest < fuel →
  (rest ≠ [] → inRunLoop w = true ∨ (∀ w0 r p, reenter w0 r p = [])) →
  ∃ evs w', drain fuel a (2 * length done) w = Some (tt, w') ∧ wf_upto b w'
    ∧ extends w w' ∧ delta rest evs w w' ∧ (oneFlush w → oneFlush w')
    ∧ ((∀ w0 r p, reenter w0 r p = []) → evs = [])
    ∧ schedules g evs w w'.
Proof.
  induction rest as [|[r p] rest IH];
    intros done fuel w Hwf Ha Hdet Hlive Hfuel Hloop.
  - destruct fuel as [|fuel]; [simpl in Hfuel; lia|].
    exists [], w.
    split_and!; auto using extends_refl, delta_refl, schedules_nil.
    rewrite drain_S, Ha.
    rewrite decide_False; [done|]. rewrite slots_length, app_nil_r. lia.
  - destruct fuel as [|fuel]; [simpl in Hfuel; lia|]. simpl in Hfuel.
    apply Forall_cons in Hlive as [(R & HR & HRg) Hlive]. simpl in HR.
    destruct (Relationship_push_spec w fuel r R p Hwf HR)
      as (evs1 & w1 & E1 & Hwf1 & Hext1 & Hd1 & Ho1 & Hnil1 & Hs1).
    { destruct Hloop as [?|Hq]; [done|by left|right; apply Hq]. }
    rewrite HRg in Hs1.
    assert (Ha1 : arrays w1 !! a = Some (slots ((done ++ [(r, p)]) ++ rest))).
    { rewrite (d_detached _ _ _ _ Hd1 a Hdet), Ha. by rewrite <- app_assoc. }
    assert (Hdet1 : detached w1 a).
    { eapply detached_queues; [|exact Hdet]. apply Hd1. }
    assert (Hlive1 : Forall (λ rp, ∃ R, relationships w1 !! rp.1 = Some R
                                        ∧ rel_graph R = g) rest).
    { eapply Forall_impl; [exact Hlive|]. intros rp (R' & HR' & HRg').
      destruct (ext_relationships _ _ Hext1 _ _ HR') as (R'' & ? & _ & ? & _).
      exists R''. split; congruence. }
    destruct (IH (done ++ [(r, p)]) fuel w1 Hwf1 Ha1 Hdet1 Hlive1)
      as (evs2 & w2 & E2 & Hwf2 & Hext2 & Hd2 & Ho2 & Hnil2 & Hs2); [lia| |].
    { intros _. rewrite (ext_inRunLoop _ _ Hext1). by apply Hloop. }
    exists (evs1 ++ evs2), w2. split_and!.
    + rewrite drain_S, Ha.
      rewrite decide_True by (rewrite slots_length, length_app; simpl; lia).
      destruct (slots_lookup done r p rest) as [-> ->].
      rewrite E1.
      replace (2 * length done + 2) with (2 * length (done ++ [(r, p)]))
        by (rewrite length_app; simpl; lia).
      exact E2.
    + done.
    + by eapply extends_trans.
    + exact (delta_trans _ _ _ _ _ _ _ Hd1 Hd2).
    + auto.
    + intros Hnil. rewrite Hnil1, Hnil2 by auto. done.
    + by eapply schedules_trans.
Qed.

(** More fuel does not change what a loop returns. *)
Lemma drain_fuel_mono fuel : ∀ fuel' a i (w : World) x,
  inRunLoop w = true ∨ (∀ w0 r p, reenter w0 r p = []) →
  fuel ≤ fuel' → drain fuel a i w = Some x → drain fuel' a i w = Some x.
Proof.
  induction fuel as [|fuel IH]; intros fuel' a i w x Hloop Hle H; [done|].
  destruct fuel' as [|fuel']; [lia|].
  rewrite drain_S in *.
  destruct (arrays w !! a) as [xs|]; [|done].
  case_decide; [|done].
  destruct (xs !! i) as [[r|?]|]; [|done..].
  destruct (xs !! (i + 1)) as [[?|p]|]; [done| |done].
  destruct (Relationship_push_open fuel fuel' r p w Hloop) as [<- Hkeep].
  destruct (Relationship_push fuel r p w) as [[[] w1]|]; [|done].
  apply IH; [|lia|done].
  destruct Hloop as [Hloop|?]; [left|by right].
  by rewrite (Hkeep w1 eq_refl).
Qed.

(** The first three statements of [flush]. *)
Lemma flush_head (w : World) fuel g G :
  graphs w !! g = Some G →
  flush fuel g w =
  bind (drain fuel (hasMany (_queued G)) 0)
       (λ _, drain fuel (belongsTo (_queued G)) 0)
    (with_graphs
       <[g := set_queued {| belongsTo := next_ref w;
                            hasMany := Pos.succ (next_ref w) |}
                (set_nextFlush false G)]>
       (with_arrays <[Pos.succ (next_ref w) := []]>
          (with_next_ref Pos.succ
             (with_arrays <[next_ref w := []]>
                (with_next_ref Pos.succ w))))).
Proof.
  intros HG.
  unfold flush, flush_via, drain, assign, this, new_Queued, new_Array. munfold.
  rewrite HG. simpl. rewrite lookup_insert_eq. simpl.
  rewrite lookup_insert_eq. simpl.
  match goal with
  | |- match _ ?w1 with _ => _ end = match _ ?w2 with _ => _ end =>
      replace w1 with w2; [done|]
  end.
  unfold with_graphs. simpl. f_equal. by rewrite insert_insert_eq.
Qed.

Lemma queued_lookup (w : World) g G k ps :
  graphs w !! g = Some G → arrays w !! queue_of (_queued G) k = Some (slots ps) →
  queued w g k = ps.
Proof. intros HG Ha. unfold queued. rewrite HG, Ha. apply entries_slots. Qed.

(** [Graph.flush] on a live graph of a well-formed store, with fuel for its
    two loops. *)
Lemma flush_spec {b} (w : World) fuel g G :
  wf_upto b w → graphs w !! g = Some G →
  length (queued w g HasMany) < fuel → length (queued w g BelongsTo) < fuel →
  (queued w g HasMany ++ queued w g BelongsTo ≠ [] →
   inRunLoop w = true ∨ (∀ w0 r p, reenter w0 r p = [])) →
  ∃ evs w', flush fuel g w = Some (tt, w') ∧ wf_upto b w' ∧ extends w w'
    ∧ applied w' = applied w ++ queued w g HasMany ++ queued w g BelongsTo
    ∧ enqueued w' = enqueued w ++ evs
    ∧ (∀ k, queued w' g k = eventsOf g k evs)
    ∧ (∀ g' k, g' ≠ g → queued w' g' k = queued w g' k ++ eventsOf g' k evs)
    ∧ (∀ k, arrays w' !! queue_of (_queued G) k
            = arrays w !! queue_of (_queued G) k)
    ∧ (∃ G', graphs w' !! g = Some G'
             ∧ _queued G' = {| belongsTo := next_ref w;
                               hasMany := Pos.succ (next_ref w) |}
             ∧ _nextFlush G' = bool_decide (evs ≠ []))
    ∧ (oneFlush (with_graphs <[g := set_nextFlush false G]> w) → oneFlush w')
    ∧ ((∀ w0 r p, reenter w0 r p = []) → evs = [])
    ∧ Graphs w' = Graphs w
    ∧ Forall (λ e, e.1.1.1 = g) evs
    ∧ flushRelationships w' =
        flushRelationships w ++ (if bool_decide (evs = []) then [] else [g]).
Proof.
  intros Hwf HG Hfuel1 Hfuel2 Hloop. rewrite (flush_head w fuel g G HG).
  set (q := {| belongsTo := next_ref w; hasMany := Pos.succ (next_ref w) |}).
  set (G3 := set_queued q (set_nextFlush false G)).
  set (W := with_arrays <[Pos.succ (next_ref w) := []]>
              (with_next_ref Pos.succ
                 (with_arrays <[next_ref w := []]> (with_next_ref Pos.succ w)))).
  set (w3 := with_graphs <[g := G3]> W).
  assert (Hold : ∀ a, is_Some (arrays w !! a) → (a < next_ref w)%positive).
  { apply (fresh_arrays _ (wf_fresh _ _ _ Hwf)). }
  assert (Hnone : ∀ a, (next_ref w ≤ a)%positive → arrays w !! a = None).
  { intros a Hle. apply eq_None_not_Some. intros H%Hold. lia. }
  assert (HwfW : wf_upto b W).
  { apply wf_new_array; [apply wf_next, wf_new_array; [by apply wf_next|..]|..];
      simpl; try lia.
    - apply Hnone. lia.
    - rewrite lookup_insert_ne by lia. apply Hnone. lia. }
  assert (HdetW : ∀ a, (next_ref w ≤ a)%positive → detached W a).
  { intros a Hle g' G' k HG' Heq. simpl in HG'.
    destruct (wf_queue _ _ _ Hwf g' G' k HG') as (? & Hl & _).
    rewrite Heq, Hnone in Hl by done. done. }
  assert (Hwf3 : wf_upto b w3).
  { apply wf_fresh_queues with (q := q); simpl; try done.
    - pose proof (fresh_graphs _ (wf_fresh _ _ _ Hwf) g) as Hlt.
      rewrite HG in Hlt. specialize (Hlt (mk_is_Some _ _ eq_refl)). lia.
    - intros G0. rewrite HG. intros [= <-]. done.
    - rewrite HG. done.
    - rewrite lookup_insert_ne by lia. by rewrite lookup_insert_eq.
    - by rewrite lookup_insert_eq.
    - lia.
    - apply HdetW. lia.
    - apply HdetW. lia. }
  destruct (wf_queue _ _ _ Hwf g G HasMany HG) as (hm & Hhm & Ehm).
  destruct (wf_queue _ _ _ Hwf g G BelongsTo HG) as (bt & Hbt & Ebt).
  simpl in Hhm, Hbt.
  rewrite (queued_lookup w g G HasMany hm HG Hhm) in *.
  rewrite (queued_lookup w g G BelongsTo bt HG Hbt) in *.
  assert (Hkeep : ∀ a xs, arrays w !! a = Some xs → arrays w3 !! a = Some xs).
  { intros a xs Ha. simpl.
    assert (a < next_ref w)%positive by (apply Hold; by rewrite Ha).
    rewrite !lookup_insert_ne by lia. done. }
  assert (Hdet3 : ∀ k, detached w3 (queue_of (_queued G) k)).
  { intros k g' G' k' HG' Heq. simpl in HG'.
    apply lookup_insert_Some in HG' as [[<- <-]|[Hne HG']].
    - assert (queue_of (_queued G) k < next_ref w)%positive as Hlt.
      { apply Hold. destruct (wf_queue _ _ _ Hwf g G k HG) as (? & -> & _). done. }
      rewrite <- Heq in Hlt. destruct k'; simpl in Hlt; lia.
    - destruct (wf_queue_inj _ _ _ Hwf _ _ _ _ _ _ HG' HG Heq). done. }
  assert (Hlive : ∀ k ps, Forall (entryOf w g k) ps →
            Forall (λ rp, ∃ R, relationships w3 !! rp.1 = Some R
                               ∧ rel_graph R = g) ps).
  { intros k ps Hall. eapply Forall_impl; [exact Hall|].
    intros rp (R & HR & _ & HRg). exists R. done. }
  destruct (drain_spec (hasMany (_queued G)) g hm [] fuel w3 Hwf3)
    as (evs1 & w4 & E1 & Hwf4 & Hext4 & Hd4 & Ho4 & Hnil4 & Hs4); try done.
  { by apply Hkeep. }
  { apply (Hdet3 HasMany). }
  { by eapply Hlive. }
  { intros Hne. apply Hloop. by destruct hm. }
  assert (Hloop4 : bt ≠ [] →
            inRunLoop w4 = true ∨ (∀ w0 r p, reenter w0 r p = [])).
  { intros Hne. rewrite (ext_inRunLoop _ _ Hext4). apply Hloop.
    by destruct hm, bt. }
  destruct (drain_spec (belongsTo (_queued G)) g bt [] fuel w4 Hwf4)
    as (evs2 & w5 & E2 & Hwf5 & Hext5 & Hd5 & Ho5 & Hnil5 & Hs5); try done.
  { pose proof (d_detached _ _ _ _ Hd4 _ (Hdet3 BelongsTo)) as Hsame.
    simpl in Hsame. rewrite Hsame. by apply Hkeep. }
  { eapply detached_queues; [apply Hd4|]. apply (Hdet3 BelongsTo). }
  { eapply Forall_impl; [exact (Hlive _ _ Ebt)|]. intros rp (R' & HR' & HRg').
    destruct (ext_relationships _ _ Hext4 _ _ HR') as (R'' & ? & _ & ? & _).
    exists R''. split; congruence. }
  pose proof (delta_trans _ _ _ _ _ _ _ Hd4 Hd5) as Hd.
  pose proof (schedules_trans _ _ _ _ _ _ Hs4 Hs5) as [Hon Hs].
  destruct (Hs G3) as (Hsched & G5 & HG5 & Hn5).
  { simpl. by rewrite lookup_insert_eq. }
  simpl in Hsched, Hn5. rewrite orb_false_r in Hsched, Hn5.
  assert (Hext3 : extends w w3).
  { split; simpl; ext_same.
    intros g' G' HG'. destruct (decide (g' = g)) as [->|?].
    - rewrite lookup_insert_eq. eexists. split; [done|]. by simplify_eq/=.
    - rewrite lookup_insert_ne by done.
      eexists; split_and!; [eassumption|done..]. }
  assert (Hq3 : ∀ k, queued w3 g k = []).
  { intros k. unfold queued. simpl. rewrite lookup_insert_eq. simpl.
    destruct k; simpl.
    - rewrite lookup_insert_ne by lia. by rewrite lookup_insert_eq.
    - by rewrite lookup_insert_eq. }
  assert (Hq3' : ∀ g' k, g' ≠ g → queued w3 g' k = queued w g' k).
  { intros g' k Hne. unfold queued.
    replace (graphs w3 !! g') with (graphs w !! g')
      by (simpl; by rewrite lookup_insert_ne).
    destruct (graphs w !! g') as [G'|] eqn:HG'; [|done].
    destruct (wf_queue _ _ _ Hwf g' G' k HG') as (ps & Hps & _).
    by rewrite (Hkeep _ _ Hps), Hps. }
  exists (evs1 ++ evs2), w5. split_and!.
  - unfold bind. simpl in E1. rewrite E1. exact E2.
  - done.
  - eapply extends_trans; [exact Hext3|]. by eapply extends_trans.
  - rewrite (d_applied _ _ _ _ Hd). done.
  - rewrite (d_enqueued _ _ _ _ Hd). done.
  - intros k. by rewrite (d_queued _ _ _ _ Hd), Hq3.
  - intros g' k Hne. by rewrite (d_queued _ _ _ _ Hd), Hq3'.
  - intros k. rewrite (d_detached _ _ _ _ Hd _ (Hdet3 k)).
    destruct (wf_queue _ _ _ Hwf g G k HG) as (ps & Hps & _).
    by rewrite (Hkeep _ _ Hps).
  - pose proof (d_queues _ _ _ _ Hd g) as Hq. simpl in Hq.
    rewrite lookup_insert_eq, HG5 in Hq. simplify_eq/=. by exists G5.
  - intros Ho. apply Ho5, Ho4. eapply oneFlush_frame; [exact Ho|done|].
    intros g'. simpl. destruct (decide (g' = g)) as [->|?].
    + by rewrite !lookup_insert_eq.
    + by rewrite !lookup_insert_ne.
  - intros Hnil. rewrite Hnil4, Hnil5 by done. done.
  - by rewrite (d_Graphs _ _ _ _ Hd).
  - done.
  - done.
Qed.

Lemma drain_inRunLoop fuel : ∀ a i (w w' : World),
  inRunLoop w = true ∨ (∀ w0 r p, reenter w0 r p = []) →
  drain fuel a i w = Some (tt, w') → inRunLoop w' = inRunLoop w.
Proof.
  induction fuel as [|fuel IH]; intros a i w w' Hloop; [done|].
  rewrite drain_S.
  destruct (arrays w !! a) as [xs|]; [|done].
  case_decide; [|by intros [= <-]].
  destruct (xs !! i) as [[r|?]|]; [|done..].
  destruct (xs !! (i + 1)) as [[?|p]|]; [done| |done].
  destruct (Relationship_push_open fuel fuel r p w Hloop) as [_ Hkeep].
  destruct (Relationship_push fuel r p w) as [[[] w1]|]; [|done].
  specialize (Hkeep w1 eq_refl). intros Hrest. rewrite <- Hkeep.
  apply (IH a (i + 2)); [|done]. by rewrite Hkeep.
Qed.

Lemma flush_fuel_mono fuel fuel' g (w : World) x :
  inRunLoop w = true ∨ (∀ w0 r p, reenter w0 r p = []) →
  fuel ≤ fuel' → flush fuel g w = Some x → flush fuel' g w = Some x.
Proof.
  intros Hloop Hle. destruct (graphs w !! g) as [G|] eqn:HG.
  - rewrite !(flush_head w _ g G HG). unfold bind.
    match goal with
    | |- match drain fuel _ _ ?w3 with _ => _ end = _ → _ => set (w0 := w3)
    end.
    assert (Hloop0 : inRunLoop w0 = true ∨ (∀ w0 r p, reenter w0 r p = []))
      by exact Hloop.
    destruct (drain fuel _ _ w0) as [[[] w1]|] eqn:E1; [|done].
    rewrite (drain_fuel_mono _ _ _ _ _ _ Hloop0 Hle E1).
    apply drain_fuel_mono; [|done].
    by rewrite (drain_inRunLoop _ _ _ _ _ Hloop0 E1).
  - unfold flush, flush_via, assign, this. munfold. by rewrite HG.
Qed.

(** Whatever fuel made [flush] return, the result is the specified one. *)
Lemma flush_sound (w w' : World) fuel g G :
  wf w → graphs w !! g = Some G →
  inRunLoop w = true ∨ (∀ w0 r p, reenter w0 r p = []) →
  flush fuel g w = Some (tt, w') →
  wf w' ∧ extends w w'
  ∧ (oneFlush (with_graphs <[g := set_nextFlush false G]> w) → oneFlush w').
Proof.
  intros Hwf HG Hloop Hrun.
  set (F := fuel + S (length (queued w g HasMany)
                      + length (queued w g BelongsTo))).
  destruct (flush_spec w F g G Hwf HG) as (evs & w'' & E & ? & ? & Hrest);
    [unfold F; lia..|done|].
  apply (flush_fuel_mono fuel F) in Hrun; [|done|unfold F; lia].
  assert (w'' = w') as -> by congruence.
  split_and!; [done..|]. apply Hrest.
Qed.

Lemma flush_dead (w : World) fuel g :
  graphs w !! g = None → flush fuel g w = None.
Proof.
  intros HG. unfold flush, flush_via, assign, this. munfold. by rewrite HG.
Qed.

Lemma runScheduled_sound (w w' : World) fuel :
  wf w → inRunLoop w = true ∨ (∀ w0 r p, reenter w0 r p = []) →
  runScheduled fuel w = Some (tt, w') →
  wf w' ∧ extends w w' ∧ (oneFlush w → oneFlush w').
Proof.
  intros Hwf Hloop. unfold runScheduled, runScheduled_via. fold flush. munfold.
  destruct (flushRelationships w) as [|g rest] eqn:Hq; simpl.
  { intros [= <-]. auto using extends_refl. }
  intros Hrun.
  set (w1 := with_flushRelationships (λ _, rest) w) in *.
  destruct (graphs w1 !! g) as [G|] eqn:HG.
  2:{ by rewrite (flush_dead w1 fuel g HG) in Hrun. }
  assert (Hwf1 : wf w1) by (by apply wf_flushRelationships).
  destruct (flush_sound w1 w' fuel g G Hwf1 HG Hloop Hrun)
    as (Hwf' & Hext & Ho').
  split_and!; [done| |].
  - eapply extends_trans; [|exact Hext]. by apply extends_frame.
  - intros Ho. apply Ho'. by apply oneFlush_taken.
Qed.

Lemma wf_init : wf (@init JsonApiRelationship).
Proof.
  split; [split|..]; simpl; try (intros; simplify_map_eq; done).
  all: intros ? [? H]; by rewrite lookup_empty in H.
Qed.


Lemma call_sound c (w w' : World) :
  wf w → inRunLoop w = true → call c w = Some (tt, w') →
  wf w' ∧ extends w w' ∧ (byRunLoop c = true → oneFlush w → oneFlush w').
Proof.
  intros Hwf Hloop.
  destruct c as [s|s i|s i|s i n p fuel|s i n|s fuel|fuel]; simpl;
    try (destruct (graphFor_spec w s Hwf)
           as (g & w1 & E1 & Hwf1 & Hext1 & Ho1 & Hs1 & _);
         destruct (wf_Graphs _ _ _ Hwf1 s g Hs1) as (G & HG & _);
         assert (Hloop1 : inRunLoop w1 = true)
           by (by rewrite (ext_inRunLoop _ _ Hext1))).
  - munfold. rewrite E1. intros [= <-]. auto.
  - destruct (Graph_get_spec w1 g G i Hwf1 HG)
      as (c & w2 & E2 & Hwf2 & Hext2 & _ & Ho2 & _).
    munfold. rewrite E1. simpl. rewrite E2. intros [= <-].
    split_and!; [done|by eapply extends_trans|auto].
  - destruct (Graph_getImplicit_spec w1 g G i Hwf1 HG)
      as (d & w2 & E2 & Hwf2 & Hext2 & Ho2 & _).
    munfold. rewrite E1. simpl. rewrite E2. intros [= <-].
    split_and!; [done|by eapply extends_trans|auto].
  - destruct (Graph_push_spec w1 fuel g G i n p Hwf1 HG (or_introl Hloop1))
      as (r & w2 & E2 & Hwf2 & Hext2 & _ & Ho2 & _).
    munfold. rewrite E1. simpl. rewrite E2. intros [= <-].
    split_and!; [done|by eapply extends_trans|auto].
  - destruct (Graph_get_spec w1 g G i Hwf1 HG)
      as (c & w2 & E2 & Hwf2 & Hext2 & _ & Ho2 & _ & _ & _ & Hg2 & _).
    destruct (wf_identifiers _ _ _ Hwf2 g (set_identifiers <[i := c]> G) i c)
      as (C & HC & _).
    { by rewrite Hg2, lookup_insert_eq. }
    { simpl. by rewrite lookup_insert_eq. }
    destruct (Relationships_get_spec w2 c C n Hwf2 HC)
      as (r & w3 & E3 & Hwf3 & Hext3 & _ & Ho3 & _).
    unfold relationshipStateFor, relationshipsFor. munfold.
    rewrite E1. simpl. rewrite E2. simpl. rewrite E3. intros [= <-].
    split_and!; [done| |auto].
    eapply extends_trans; [exact Hext1|]. by eapply extends_trans.
  - munfold. rewrite E1. intros Hrun.
    destruct (flush_sound w1 w' fuel g G Hwf1 HG (or_introl Hloop1) Hrun)
      as (Hwf' & Hext' & _).
    split_and!; [done|by eapply extends_trans|done].
  - intros Hrun.
    destruct (runScheduled_sound w w' fuel Hwf (or_introl Hloop) Hrun)
      as (? & ? & ?).
    auto.
Qed.

Lemma run_sound cs : ∀ (w w' : World),
  wf w → inRunLoop w = true → run cs w = Some (tt, w') →
  wf w' ∧ extends w w'
  ∧ (forallb byRunLoop cs = true → oneFlush w → oneFlush w').
Proof.
  induction cs as [|c cs IH]; intros w w' Hwf Hloop.
  { intros [= <-]. auto using extends_refl. }
  unfold run. simpl. munfold.
  destruct (call c w) as [[[] w1]|] eqn:E1; [|done]. intros Hrun.
  destruct (call_sound c w w1 Hwf Hloop E1) as (Hwf1 & Hext1 & Ho1).
  destruct (IH w1 w' Hwf1) as (Hwf' & Hext' & Ho'); [|done|].
  { by rewrite (ext_inRunLoop _ _ Hext1). }
  split_and!; [done|by eapply extends_trans|].
  intros [Hc Hcs]%andb_true_iff Ho. auto.
Qed.

(** The empty store when a run loop has opened. *)
Lemma inRun_init cs (w : World) :
  inRun cs init = Some (tt, w) ↔
  run cs (with_inRunLoop (λ _, true) init) = Some (tt, w).
Proof. done. Qed.

Lemma wf_begin : wf (with_inRunLoop (λ _, true) (@init JsonApiRelationship)).
Proof. eapply wf_frame; [exact wf_init|done..]. Qed.


Lemma reachable_wf (w : World) : reachable w → wf w.
Proof.
  intros [cs Hrun%inRun_init].
  by destruct (run_sound cs _ w wf_begin eq_refl Hrun) as (? & _).
Qed.

(** A program that runs inside a run loop leaves the loop open. *)
Lemma reachable_inRunLoop (w : World) : reachable w → inRunLoop w = true.
Proof.
  intros [cs Hrun%inRun_init].
  destruct (run_sound cs _ w wf_begin eq_refl Hrun) as (_ & Hext & _).
  by rewrite (ext_inRunLoop _ _ Hext).
Qed.

(** *** Relationships and the queues *)

Lemma lookupRelationship_inv {b} (w : World) g i n r :
  wf_upto b w → lookupRelationship w g i n = Some r →
  ∃ R, relationships w !! r = Some R ∧ kind R = relationshipKind i n
       ∧ rel_graph R = g ∧ rel_identifier R = i ∧ rel_key R = n.
Proof.
  intros Hwf. unfold lookupRelationship. intros H.
  destruct (graphs w !! g) as [G|] eqn:HG; simplify_eq/=.
  destruct (identifiers G !! i) as [c|] eqn:Hi; simplify_eq/=.
  destruct (containers w !! c) as [C|] eqn:HC; simplify_eq/=.
  destruct (wf_identifiers _ _ _ Hwf g G i c HG Hi) as (C' & HC' & Hg & Hid).
  assert (C' = C) as -> by congruence.
  destruct (wf_initialized _ _ _ Hwf c C n r HC H) as (R & HR & ? & ? & ? & ?).
  exists R. split_and!; congruence.
Qed.

Lemma queued_inv {b} (w : World) g k :
  wf_upto b w → Forall (entryOf w g k) (queued w g k).
Proof.
  intros Hwf. unfold queued.
  destruct (graphs w !! g) as [G|] eqn:HG; [|constructor].
  destruct (wf_queue _ _ _ Hwf g G k HG) as (ps & -> & Hall). simpl.
  by rewrite entries_slots.
Qed.

Lemma payloadsFor_none r (ps : list (Ref * JsonApiRelationship)) :
  Forall (λ rp, rp.1 ≠ r) ps → payloadsFor r ps = [].
Proof.
  unfold payloadsFor. induction 1 as [|rp ps Hne _ IH]; [done|].
  rewrite filter_cons_False by done. exact IH.
Qed.

Lemma payloadsFor_other_kind {b} (w : World) g k r R :
  wf_upto b w → relationships w !! r = Some R → kind R ≠ k →
  payloadsFor r (queued w g k) = [].
Proof.
  intros Hwf HR Hk. apply payloadsFor_none.
  eapply Forall_impl; [exact (queued_inv w g k Hwf)|].
  intros rp (R' & HR' & Hk' & _) Heq. rewrite Heq in HR'. congruence.
Qed.

Lemma payloadsFor_cons r r' (p : JsonApiRelationship) l :
  payloadsFor r ((r', p) :: l) =
  if decide (r' = r) then p :: payloadsFor r l else payloadsFor r l.
Proof. unfold payloadsFor. rewrite filter_cons. simpl. by case_decide. Qed.

Lemma eventsOf_cons g k g' k' r (p : JsonApiRelationship) evs :
  eventsOf g k ((g', k', r, p) :: evs) =
  if decide (g' = g ∧ k' = k) then (r, p) :: eventsOf g k evs
  else eventsOf g k evs.
Proof. unfold eventsOf. simpl. by case_decide. Qed.

Lemma payloadsOf_cons i n i' n' (p : JsonApiRelationship) reqs :
  payloadsOf i n ((i', n', p) :: reqs) =
  if decide (i' = i ∧ n' = n) then p :: payloadsOf i n reqs
  else payloadsOf i n reqs.
Proof. unfold payloadsOf. simpl. by case_decide. Qed.

Lemma payloadsFor_events {b} (w : World) g i n r reqs evs k :
  wf_upto b w → Forall2 (pushed w g) reqs evs →
  lookupRelationship w g i n = Some r →
  payloadsFor r (eventsOf g k evs) =
  if decide (k = relationshipKind i n) then payloadsOf i n reqs else [].
Proof.
  intros Hwf Hall Hl.
  destruct (lookupRelationship_inv w g i n r Hwf Hl)
    as (R & HR & Hk & _ & Hi & Hn).
  induction Hall as [|[[i' n'] p'] [[[g' k'] r'] p''] reqs evs Hp _ IH].
  { by case_decide. }
  destruct Hp as (-> & -> & -> & Hl').
  destruct (lookupRelationship_inv w g i' n' r' Hwf Hl')
    as (R' & HR' & Hk' & _ & Hi' & Hn').
  rewrite eventsOf_cons, payloadsOf_cons.
  destruct (decide (r' = r)) as [->|Hr].
  - assert (R' = R) as -> by congruence.
    assert (i' = i ∧ n' = n) as [-> ->] by (split; congruence).
    rewrite (decide_True (P := i = i ∧ n = n)) by done.
    destruct (decide (k = relationshipKind i n)) as [->|Hne].
    + rewrite decide_True by done. rewrite payloadsFor_cons, decide_True by done.
      by rewrite IH.
    + rewrite decide_False by (intros [_ ?]; congruence). exact IH.
  - assert (¬ (i' = i ∧ n' = n)) as Hne.
    { intros [-> ->]. congruence. }
    rewrite (decide_False (P := i' = i ∧ n' = n)) by done.
    destruct (decide (g = g ∧ relationshipKind i' n' = k)); [|exact IH].
    rewrite payloadsFor_cons, decide_False by done. exact IH.
Qed.

Lemma eventsOf_length g k
    (evs : list (Ref * RelationshipKind * Ref * JsonApiRelationship)) :
  length (eventsOf g k evs) ≤ length evs.
Proof.
  induction evs as [|[[[g' k'] r] p] evs IH]; [done|].
  rewrite eventsOf_cons. case_decide; simpl; lia.
Qed.

Lemma flush_pushedTo {b} (w w' : World) g r :
  wf_upto b w → wf_upto b w' →
  applied w' = applied w ++ queued w g HasMany ++ queued w g BelongsTo →
  pushedTo w' r = pushedTo w r ++ pending w g r.
Proof.
  intros Hwf Hwf' Ha.
  rewrite (wf_log _ _ _ Hwf'), (wf_log _ _ _ Hwf), Ha.
  by rewrite payloadsFor_app.
Qed.

(** *** The implicit relationships are left alone *)

Lemma sameImplicit_refl (w : World) : sameImplicit w w.
Proof. by split. Qed.

Lemma sameImplicit_trans (w1 w2 w3 : World) :
  sameImplicit w1 w2 → sameImplicit w2 w3 → sameImplicit w1 w3.
Proof.
  intros [Hd1 Hi1] [Hd2 Hi2]. split; [congruence|].
  intros g. by rewrite Hi2, Hi1.
Qed.

(** An update of a graph object that keeps its [implicitMap]. *)
Lemma sameImplicit_graph (w w' : World) g G G' :
  graphs w !! g = Some G → graphs w' = <[g := G']> (graphs w) →
  implicitMap G' = implicitMap G → dicts w' = dicts w →
  sameImplicit w w'.
Proof.
  intros HG Hg Hi Hd. split; [done|]. intros g'. unfold implicitOf.
  rewrite Hg. destruct (decide (g' = g)) as [->|?].
  - by rewrite lookup_insert_eq, HG.
  - by rewrite lookup_insert_ne.
Qed.

Lemma sameImplicit_frame (w w' : World) :
  graphs w' = graphs w → dicts w' = dicts w → sameImplicit w w'.
Proof. intros Hg Hd. split; [done|]. intros g. unfold implicitOf. by rewrite Hg. Qed.

Lemma implicitOk_same (w w' : World) :
  sameImplicit w w' → implicitOk w → implicitOk w'.
Proof.
  intros [Hd Hi] [Hlive Hinj]. split.
  - intros g i d. rewrite Hi, Hd. apply Hlive.
  - intros g1 i1 g2 i2 d. rewrite !Hi. apply Hinj.
Qed.

Lemma Graph_get_sameImplicit (w w' : World) g i c :
  Graph_get g i w = Some (c, w') → sameImplicit w w'.
Proof.
  unfold Graph_get, this, assign, this, new_Relationships. munfold.
  destruct (graphs w !! g) as [G|] eqn:HG; [|done]. simpl.
  destruct (identifiers G !! i); simpl.
  { intros [= <- <-]. apply sameImplicit_refl. }
  rewrite HG. simpl. intros [= <- <-].
  eapply sameImplicit_graph; [exact HG|reflexivity|done..].
Qed.

Lemma Relationships_get_sameImplicit (w w' : World) c n r :
  Relationships_get c n w = Some (r, w') → sameImplicit w w'.
Proof.
  unfold Relationships_get. munfold.
  destruct (containers w !! c) as [C|]; [|done]. simpl.
  destruct (initializedRelationships C !! n); simpl; intros [= <- <-].
  - apply sameImplicit_refl.
  - by apply sameImplicit_frame.
Qed.

(** *** Steps that queue, apply and schedule nothing *)

Lemma undisturbed_refl (w : World) : undisturbed w w.
Proof. split; eauto. Qed.

Lemma undisturbed_trans (w1 w2 w3 : World) :
  undisturbed w1 w2 → undisturbed w2 w3 → undisturbed w1 w3.
Proof.
  intros [A1 E1 F1 Q1 G1 R1] [A2 E2 F2 Q2 G2 R2]. split; try congruence.
  - intros g G HG. destruct (G1 g G HG) as (G' & HG' & Hn' & Hq').
    destruct (G2 g G' HG') as (G'' & HG'' & Hn'' & Hq'').
    exists G''. split_and!; [done|congruence..].
  - by etrans.
Qed.

Lemma queued_frame (w w' : World) g G G' k :
  graphs w !! g = Some G → graphs w' !! g = Some G' → _queued G' = _queued G →
  arrays w' !! queue_of (_queued G) k = arrays w !! queue_of (_queued G) k →
  queued w' g k = queued w g k.
Proof. intros HG HG' Hq Ha. unfold queued. by rewrite HG, HG', Hq, Ha. Qed.

(** A step without pushes and flushes that keeps flags and relationships. *)
Lemma delta_undisturbed (w w' : World) :
  delta [] [] w w' → flushRelationships w' = flushRelationships w →
  relationships w ⊆ relationships w' →
  (∀ g G, graphs w !! g = Some G →
     ∃ G', graphs w' !! g = Some G' ∧ _nextFlush G' = _nextFlush G) →
  undisturbed w w'.
Proof.
  intros [Ha He Hqs Hq _ _] Hf Hr Hg. rewrite app_nil_r in Ha, He.
  split; try done.
  - intros g k. by rewrite Hq, app_nil_r.
  - intros g G HG. destruct (Hg g G HG) as (G' & HG' & Hn).
    exists G'. split_and!; [done..|].
    specialize (Hqs g). rewrite HG, HG' in Hqs. by simplify_eq/=.
Qed.

(** The graph that [graphFor] creates for a store wrapper without one. *)
Lemma graphFor_new (w : World) s :
  Graphs w !! s = None →
  ∃ w', graphFor s w = Some (next_ref w, w')
    ∧ Graphs w' = <[s := next_ref w]> (Graphs w)
    ∧ graphs w' =
        <[next_ref w :=
            {| _queued := {| belongsTo := Pos.succ (next_ref w);
                             hasMany := Pos.succ (Pos.succ (next_ref w)) |};
               _nextFlush := false; identifiers := ∅; implicitMap := ∅;
               storeWrapper := s |}]> (graphs w)
    ∧ arrays w' =
        <[Pos.succ (Pos.succ (next_ref w)) := []]>
          (<[Pos.succ (next_ref w) := []]> (arrays w))
    ∧ containers w' = containers w ∧ relationships w' = relationships w
    ∧ dicts w' = dicts w ∧ flushRelationships w' = flushRelationships w
    ∧ applied w' = applied w ∧ enqueued w' = enqueued w.
Proof.
  intros H. unfold graphFor, new_Graph, new_Queued, new_Array. munfold.
  rewrite H. eexists. split; [reflexivity|]. simpl. done.
Qed.

Lemma graphFor_frame {b} (w w' : World) s g :
  wf_upto b w → graphFor s w = Some (g, w') →
  wf_upto b w' ∧ (∃ G, graphs w' !! g = Some G ∧ storeWrapper G = s)
  ∧ Graphs w' !! s = Some g
  ∧ undisturbed w w' ∧ sameImplicit w w'
  ∧ containers w' = containers w ∧ relationships w' = relationships w.
Proof.
  intros Hwf Hrun.
  destruct (graphFor_spec w s Hwf) as (g0 & w0 & E & Hwf' & _ & _ & Hs & _).
  rewrite Hrun in E. injection E as <- <-.
  split; [done|]. split; [by apply (wf_Graphs _ _ _ Hwf')|]. split; [done|].
  destruct (Graphs w !! s) as [g'|] eqn:HGs.
  { rewrite (graphFor_cached w s g' HGs) in Hrun. injection Hrun as <- <-.
    split_and!; [apply undisturbed_refl|apply sameImplicit_refl|done..]. }
  destruct (graphFor_new w s HGs)
    as (w0 & E & _ & Hg & Ha & Hc & Hr & Hd & Hf & Hap & Hen).
  rewrite Hrun in E. injection E as -> <-.
  assert (Hnone : graphs w !! next_ref w = None).
  { apply eq_None_not_Some. intros H%(fresh_graphs _ (wf_fresh _ _ _ Hwf)). lia. }
  assert (Hne : ∀ g', is_Some (graphs w !! g') → g' ≠ next_ref w).
  { intros g' H ->. rewrite Hnone in H. by destruct H. }
  split_and!; [|split; [done|]|done..].
  - split; try done.
    + intros g' k. unfold queued. rewrite Hg.
      destruct (decide (g' = next_ref w)) as [->|Hg'].
      { rewrite lookup_insert_eq, Hnone, Ha. simpl.
        destruct k; simpl.
        - rewrite lookup_insert_ne by lia. by rewrite lookup_insert_eq.
        - by rewrite lookup_insert_eq. }
      rewrite lookup_insert_ne by done.
      destruct (graphs w !! g') as [G'|] eqn:HG'; [|done].
      destruct (wf_queue _ _ _ Hwf g' G' k HG') as (ps & Hps & _).
      assert (queue_of (_queued G') k < next_ref w)%positive.
      { apply (fresh_arrays _ (wf_fresh _ _ _ Hwf)). by rewrite Hps. }
      rewrite Ha, !lookup_insert_ne by lia. done.
    + intros g' G' HG'. exists G'. rewrite Hg.
      rewrite lookup_insert_ne by (apply not_eq_sym, Hne; by rewrite HG').
      done.
    + by rewrite Hr.
  - intros g'. unfold implicitOf. rewrite Hg.
    destruct (decide (g' = next_ref w)) as [->|Hg'].
    + by rewrite lookup_insert_eq, Hnone.
    + by rewrite lookup_insert_ne.
Qed.

Lemma Graph_get_frame {b} (w : World) g G i :
  wf_upto b w → graphs w !! g = Some G →
  ∃ c w', Graph_get g i w = Some (c, w') ∧ wf_upto b w'
    ∧ undisturbed w w' ∧ sameImplicit w w' ∧ Graphs w' = Graphs w
    ∧ ∃ G' C, graphs w' !! g = Some G' ∧ storeWrapper G' = storeWrapper G
              ∧ identifiers G' !! i = Some c ∧ containers w' !! c = Some C
              ∧ rs_graph C = g ∧ rs_identifier C = i.
Proof.
  intros Hwf HG.
  destruct (Graph_get_spec w g G i Hwf HG)
    as (c & w' & E & Hwf' & _ & Hd & _ & Hr & Hf & _ & Hg & _).
  exists c, w'. split; [done|]. split; [done|].
  assert (HG' : graphs w' !! g = Some (set_identifiers <[i := c]> G))
    by (by rewrite Hg, lookup_insert_eq).
  assert (Hi : identifiers (set_identifiers <[i := c]> G) !! i = Some c)
    by (simpl; by rewrite lookup_insert_eq).
  split_and!.
  - apply delta_undisturbed; [done..|by rewrite Hr|].
    intros g' G' HG0. rewrite Hg. destruct (decide (g' = g)) as [->|?].
    + rewrite lookup_insert_eq. eexists. split; [done|]. by simplify_eq/=.
    + rewrite lookup_insert_ne by done. eauto.
  - by eapply Graph_get_sameImplicit.
  - apply (d_Graphs _ _ _ _ Hd).
  - destruct (wf_identifiers _ _ _ Hwf' g _ i c HG' Hi) as (C & HC & ? & ?).
    eexists _, C. split_and!; [exact HG'|done..].
Qed.

Lemma Relationships_get_frame {b} (w : World) c C n :
  wf_upto b w → containers w !! c = Some C →
  ∃ r w', Relationships_get c n w = Some (r, w') ∧ wf_upto b w'
    ∧ undisturbed w w' ∧ sameImplicit w w' ∧ Graphs w' = Graphs w
    ∧ graphs w' = graphs w
    ∧ ∃ C', containers w' !! c = Some C'
            ∧ initializedRelationships C' !! n = Some r.
Proof.
  intros Hwf HC.
  destruct (Relationships_get_spec w c C n Hwf HC)
    as (r & w' & E & Hwf' & _ & Hd & _ & Hg & Hf & _ & Hr & HC' & _).
  exists r, w'. split; [done|]. split; [done|]. split_and!; [| | |done..].
  - apply delta_undisturbed; [done..|]. intros g G HG. rewrite Hg. eauto.
  - by eapply Relationships_get_sameImplicit.
  - apply (d_Graphs _ _ _ _ Hd).
Qed.

Lemma relationshipsFor_spec {b} (w : World) s i :
  wf_upto b w →
  ∃ g c w', relationshipsFor s i w = Some (c, w') ∧ wf_upto b w'
    ∧ undisturbed w w' ∧ sameImplicit w w' ∧ Graphs w' !! s = Some g
    ∧ (∀ g0, Graphs w !! s = Some g0 → g0 = g)
    ∧ ∃ G' C, graphs w' !! g = Some G' ∧ storeWrapper G' = s
              ∧ identifiers G' !! i = Some c ∧ containers w' !! c = Some C
              ∧ rs_graph C = g ∧ rs_identifier C = i.
Proof.
  intros Hwf.
  destruct (graphFor_spec w s Hwf) as (g & w1 & E1 & _ & Hext1 & _).
  destruct (graphFor_frame w w1 s g Hwf E1)
    as (Hwf1 & (G & HG & HGs) & Hs1 & Hu1 & Hi1 & _).
  destruct (Graph_get_frame w1 g G i Hwf1 HG)
    as (c & w2 & E2 & Hwf2 & Hu2 & Hi2 & HGs2 & G' & C & HG' & Hst & Hrest).
  exists g, c, w2. unfold relationshipsFor. munfold. rewrite E1. simpl.
  split; [done|]. split_and!; [done| | | | |].
  - by eapply undisturbed_trans.
  - by eapply sameImplicit_trans.
  - by rewrite HGs2.
  - intros g0 H0. apply (ext_Graphs _ _ Hext1) in H0. congruence.
  - exists G', C. split_and!; [done|congruence|apply Hrest..].
Qed.

Lemma relationshipStateFor_spec {b} (w : World) s i n :
  wf_upto b w →
  ∃ g r w', relationshipStateFor s i n w = Some (r, w') ∧ wf_upto b w'
    ∧ undisturbed w w' ∧ sameImplicit w w' ∧ Graphs w' !! s = Some g
    ∧ (∀ g0, Graphs w !! s = Some g0 → g0 = g)
    ∧ lookupRelationship w' g i n = Some r.
Proof.
  intros Hwf.
  destruct (relationshipsFor_spec w s i Hwf)
    as (g & c & w1 & E1 & Hwf1 & Hu1 & Hi1 & Hs1 & Hg0 & G' & C & HG' & _
        & Hid & HC & _).
  destruct (Relationships_get_frame w1 c C n Hwf1 HC)
    as (r & w2 & E2 & Hwf2 & Hu2 & Hi2 & HGs2 & Hg2 & C' & HC' & Hn).
  exists g, r, w2. unfold relationshipStateFor. munfold. rewrite E1. simpl.
  split; [done|]. split_and!; [done| | | |done|].
  - by eapply undisturbed_trans.
  - by eapply sameImplicit_trans.
  - by rewrite HGs2.
  - unfold lookupRelationship. rewrite Hg2, HG'. simpl. rewrite Hid. simpl.
    rewrite HC'. done.
Qed.

(** *** The dictionaries of implicit relationships *)

Lemma implicitOf_lookup (w : World) g G :
  graphs w !! g = Some G → implicitOf w g = implicitMap G.
Proof. intros HG. unfold implicitOf. by rewrite HG. Qed.

Lemma Graph_getImplicit_undisturbed (w w' : World) g G i d :
  graphs w !! g = Some G → Graph_getImplicit g i w = Some (d, w') →
  undisturbed w w'.
Proof.
  intros HG. unfold Graph_getImplicit, this, assign, this. munfold.
  rewrite HG. simpl. destruct (implicitMap G !! i); simpl.
  { intros [= <- <-]. apply undisturbed_refl. }
  rewrite HG. simpl. intros [= <- <-]. split; simpl; try done.
  - intros g' k. unfold queued. simpl.
    destruct (decide (g' = g)) as [->|?].
    + by rewrite lookup_insert_eq, HG.
    + by rewrite lookup_insert_ne.
  - intros g' G' HG'. destruct (decide (g' = g)) as [->|?].
    + rewrite lookup_insert_eq. eexists. split; [done|]. by simplify_eq/=.
    + rewrite lookup_insert_ne by done. eauto.
Qed.

Lemma Graph_getImplicit_frame {b} (w : World) g G i :
  wf_upto b w → implicitOk w → graphs w !! g = Some G →
  ∃ d w', Graph_getImplicit g i w = Some (d, w') ∧ wf_upto b w' ∧ implicitOk w'
    ∧ undisturbed w w' ∧ Graphs w' = Graphs w
    ∧ containers w' = containers w ∧ relationships w' = relationships w
    ∧ implicitOf w' g !! i = Some d
    ∧ (implicitOf w g !! i = Some d ∧ w' = w
       ∨ implicitOf w g !! i = None ∧ dicts w !! d = None
         ∧ dicts w' = <[d := ∅]> (dicts w)
         ∧ ∀ g', implicitOf w' g' =
                 if decide (g' = g) then <[i := d]> (implicitOf w g)
                 else implicitOf w g').
Proof.
  intros Hwf Hok HG.
  destruct (Graph_getImplicit_spec w g G i Hwf HG)
    as (d & w' & E & Hwf' & _ & _ & _ & _).
  exists d, w'. split; [done|]. split; [done|].
  revert E. unfold Graph_getImplicit, this, assign, this. munfold.
  rewrite HG. simpl. rewrite (implicitOf_lookup w g G HG).
  destruct (implicitMap G !! i) as [d0|] eqn:Hi; simpl.
  { intros [= <- <-]. rewrite (implicitOf_lookup w g G HG).
    split_and!; [done|apply undisturbed_refl|done..|by left]. }
  rewrite HG. simpl. intros [= <- <-].
  assert (Hd : dicts w !! next_ref w = None).
  { apply eq_None_not_Some. intros H%(fresh_dicts _ (wf_fresh _ _ _ Hwf)). lia. }
  assert (Himp : ∀ g', implicitOf
      (with_graphs <[g := set_implicitMap <[i := next_ref w]> G]>
         (with_dicts <[next_ref w := ∅]> (with_next_ref Pos.succ w))) g' =
      if decide (g' = g) then <[i := next_ref w]> (implicitOf w g)
      else implicitOf w g').
  { intros g'. unfold implicitOf. simpl. case_decide as Hg'.
    - subst g'. by rewrite lookup_insert_eq, HG.
    - by rewrite lookup_insert_ne. }
  assert (Hold : ∀ g' i', implicitOf w g' !! i' ≠ Some (next_ref w)).
  { intros g' i' H%(implicit_live _ Hok). rewrite Hd in H. by destruct H. }
  split_and!; simpl; try done.
  - split.
    + intros g' i' d'. rewrite Himp. simpl. case_decide as Hg'.
      * intros [[_ <-]|[_ H]]%lookup_insert_Some.
        { by rewrite lookup_insert_eq. }
        apply (implicit_live _ Hok) in H.
        apply lookup_insert_is_Some'. by right.
      * intros H%(implicit_live _ Hok).
        apply lookup_insert_is_Some'. by right.
    + intros g1 i1 g2 i2 d'. rewrite !Himp.
      case_decide as H1; case_decide as H2; subst.
      * intros [[<- <-]|[? Ha]]%lookup_insert_Some
               [[<- Hb]|[? Hb]]%lookup_insert_Some; try done.
        { by destruct (Hold g i2). }
        { subst d'. by destruct (Hold g i1). }
        by destruct (implicit_inj _ Hok _ _ _ _ _ Ha Hb).
      * intros [[<- <-]|[? Ha]]%lookup_insert_Some Hb.
        { by destruct (Hold g2 i2). }
        apply (implicit_inj _ Hok _ _ _ _ _ Ha Hb).
      * intros Ha [[<- <-]|[? Hb]]%lookup_insert_Some.
        { by destruct (Hold g1 i1). }
        apply (implicit_inj _ Hok _ _ _ _ _ Ha Hb).
      * apply (implicit_inj _ Hok).
  - apply (Graph_getImplicit_undisturbed w _ g G i (next_ref w) HG).
    unfold Graph_getImplicit, this, assign, this. munfold.
    rewrite HG. simpl. rewrite Hi. simpl. by rewrite HG.
  - rewrite Himp. rewrite decide_True by done. by rewrite lookup_insert_eq.
  - right. split_and!; [done..|]. intros g'. rewrite Himp.
    by rewrite (implicitOf_lookup w g G HG).
Qed.

(** *** What every program keeps

    With no run loop open a push runs a flush of its own and sets the flag
    afterwards, so that the flags no longer tell what the queues hold.  The
    rest of the shape of the store is kept by every call, whatever the
    relationships do when they are updated. *)

Lemma wf_weaken {b} (w : World) : wf_upto b w → wf_upto false w.
Proof.
  intros [F W1 W2 W3 W4 W5 W6 W7 W8 W9]. split; try assumption. intros [=].
Qed.

Lemma wf_set_nextFlush (w : World) g G x :
  wf_upto false w → graphs w !! g = Some G →
  wf_upto false (with_graphs <[g := set_nextFlush x G]> w).
Proof.
  intros [[F1 F2 F3 F4 F5] W1 W2 W3 W4 W5 W6 W7 W8 W9] Hg.
  split; [split|..]; try assumption; simpl.
  - intros g' Hg'. ins; [|by apply F1]. apply F1. by rewrite Hg.
  - intros s g' Hs. destruct (W1 s g' Hs) as (G0 & HG0 & Hsw).
    destruct (decide (g' = g)) as [->|Hgg].
    + rewrite lookup_insert_eq. eexists; split; [done|]. simpl. congruence.
    + exists G0. by rewrite lookup_insert_ne.
  - intros g' G' k Hg'. ins; eauto.
  - intros g1 G1 k1 g2 G2 k2 H1 H2 Heq. ins; eauto.
  - intros [=].
  - intros g' G' i' c' Hg' Hi. ins; eauto.
  - intros c' C' HC'. destruct (W7 c' C' HC') as [G0 HG0].
    destruct (decide (rs_graph C' = g)) as [->|?].
    + rewrite lookup_insert_eq. done.
    + rewrite lookup_insert_ne by done. done.
  - intros r R HR. destruct (W8 r R HR) as [G0 HG0].
    destruct (decide (rel_graph R = g)) as [->|?].
    + rewrite lookup_insert_eq. done.
    + rewrite lookup_insert_ne by done. done.
Qed.

Lemma grows_refl (w : World) : grows w w.
Proof. split; ext_same. Qed.

Lemma grows_trans (w1 w2 w3 : World) :
  grows w1 w2 → grows w2 w3 → grows w1 w3.
Proof.
  intros [A1 A2 A3 A4 A5 A6 A7] [B1 B2 B3 B4 B5 B6 B7]. split.
  - lia.
  - eauto.
  - intros g G HG. destruct (A3 _ _ HG) as (G' & HG' & ? & ? & ?).
    destruct (B3 _ _ HG') as (G'' & HG'' & ? & ? & ?).
    exists G''. split_and!; [done|congruence|by etrans..].
  - intros c C HC. destruct (A4 _ _ HC) as (C' & HC' & ? & ? & ?).
    destruct (B4 _ _ HC') as (C'' & HC'' & ? & ? & ?).
    exists C''. split_and!; [done|congruence..|by etrans].
  - intros r R HR. destruct (A5 _ _ HR) as (R' & HR' & ? & ? & ? & ? & ?).
    destruct (B5 _ _ HR') as (R'' & HR'' & ? & ? & ? & ? & ?).
    exists R''. split_and!; [done|congruence..|by etrans].
  - by etrans.
  - by etrans.
Qed.

Lemma extends_grows (w w' : World) : extends w w' → grows w w'.
Proof. intros [A1 A2 A3 A4 A5 A6 A7 A8]. by split. Qed.

Lemma grows_frame (w w' : World) :
  Graphs w' = Graphs w → graphs w' = graphs w → containers w' = containers w →
  relationships w' = relationships w →
  applied w `prefix_of` applied w' → enqueued w `prefix_of` enqueued w' →
  (next_ref w ≤ next_ref w')%positive →
  grows w w'.
Proof.
  intros E1 E2 E3 E4 Ha He Hn. split; rewrite ?E1, ?E2, ?E3, ?E4; ext_same.
Qed.

Lemma keeps_refl (w : World) : keeps w w.
Proof.
  intros Hwf. split_and!; [done|apply grows_refl|apply sameImplicit_refl].
Qed.

Lemma keeps_trans (w1 w2 w3 : World) : keeps w1 w2 → keeps w2 w3 → keeps w1 w3.
Proof.
  intros H12 H23 Hwf. destruct (H12 Hwf) as (Hwf2 & ? & ?).
  destruct (H23 Hwf2) as (? & ? & ?).
  split_and!; [done|by eapply grows_trans|by eapply sameImplicit_trans].
Qed.

(** A step on the run loop or on the log of pushes. *)
Lemma keeps_frame (w w' : World) :
  Graphs w' = Graphs w → graphs w' = graphs w → containers w' = containers w →
  relationships w' = relationships w → dicts w' = dicts w →
  arrays w' = arrays w → applied w' = applied w →
  enqueued w `prefix_of` enqueued w' → next_ref w' = next_ref w →
  keeps w w'.
Proof.
  intros E1 E2 E3 E4 E5 E6 E7 He Hn Hwf. split_and!.
  - eapply wf_frame; [exact Hwf|done..|lia].
  - apply grows_frame; try done; [by rewrite E7|lia].
  - by apply sameImplicit_frame.
Qed.

Lemma graphFor_keeps (w w' : World) s g :
  graphFor s w = Some (g, w') → keeps w w'.
Proof.
  intros H Hwf.
  destruct (graphFor_spec w s Hwf) as (g0 & w0 & E & _ & Hext & _).
  rewrite H in E. injection E as <- <-.
  destruct (graphFor_frame w w' s g Hwf H) as (Hwf' & _ & _ & _ & Hi & _).
  split_and!; [done|by apply extends_grows|done].
Qed.

Lemma Graph_get_keeps (w w' : World) g i c :
  Graph_get g i w = Some (c, w') → keeps w w'.
Proof.
  intros H Hwf.
  destruct (graphs w !! g) as [G|] eqn:HG.
  2:{ revert H. unfold Graph_get, this. munfold. by rewrite HG. }
  destruct (Graph_get_spec w g G i Hwf HG) as (c0 & w0 & E & Hwf' & Hext & _).
  rewrite H in E. injection E as <- <-.
  split_and!; [done|by apply extends_grows|by eapply Graph_get_sameImplicit].
Qed.

Lemma Relationships_get_keeps (w w' : World) c n r :
  Relationships_get c n w = Some (r, w') → keeps w w'.
Proof.
  intros H Hwf.
  destruct (containers w !! c) as [C|] eqn:HC.
  2:{ revert H. unfold Relationships_get. munfold. by rewrite HC. }
  destruct (Relationships_get_spec w c C n Hwf HC)
    as (r0 & w0 & E & Hwf' & Hext & _).
  rewrite H in E. injection E as <- <-.
  split_and!; [done|by apply extends_grows|].
  by eapply Relationships_get_sameImplicit.
Qed.

(** The pair goes to the end of the queue; the flag is another matter. *)
Lemma Array_push_keeps (w w' : World) g G r R p :
  graphs w !! g = Some G → relationships w !! r = Some R → rel_graph R = g →
  Array_push (queue_of (_queued G) (kind R)) [SRelationship r; SPayload p] w
    = Some (tt, w') →
  keeps w w'.
Proof.
  intros HG HR Hg. unfold Array_push. munfold.
  destruct (arrays w !! queue_of (_queued G) (kind R)) as [xs|] eqn:Hxs;
    [|done].
  simpl. intros [= <-] Hwf. split_and!.
  - assert (Hent : entryOf w g (kind R) (r, p)) by (by exists R).
    pose proof (wf_enqueue w g G (kind R) xs r p Hwf HG Hxs Hent) as H1.
    apply (wf_set_nextFlush _ g (set_nextFlush true G) (_nextFlush G)) in H1.
    2:{ simpl. by rewrite lookup_insert_eq. }
    rewrite with_graphs_twice in H1.
    replace (set_nextFlush (_nextFlush G) (set_nextFlush true G)) with G in H1
      by (by destruct G).
    by rewrite with_graphs_id in H1.
  - by apply grows_frame.
  - by apply sameImplicit_frame.
Qed.

Lemma assign_nextFlush_keeps (w w' : World) g x :
  assign g (set_nextFlush x) w = Some (tt, w') → keeps w w'.
Proof.
  unfold assign, this. munfold.
  destruct (graphs w !! g) as [G|] eqn:HG; [|done]. simpl.
  intros [= <-] Hwf. split_and!.
  - by apply wf_set_nextFlush.
  - apply extends_grows, extends_graph. intros G0 HG0. by simplify_eq/=.
  - eapply sameImplicit_graph; [exact HG|reflexivity|done..].
Qed.

(** The head of [flush]: the flag is cleared and the graph has two new
    arrays. *)
Lemma wf_flush_head {b} (w : World) g G :
  wf_upto b w → graphs w !! g = Some G →
  wf_upto b
    (with_graphs
       <[g := set_queued {| belongsTo := next_ref w;
                            hasMany := Pos.succ (next_ref w) |}
                (set_nextFlush false G)]>
       (with_arrays <[Pos.succ (next_ref w) := []]>
          (with_next_ref Pos.succ
             (with_arrays <[next_ref w := []]>
                (with_next_ref Pos.succ w))))).
Proof.
  intros Hwf HG.
  set (q := {| belongsTo := next_ref w; hasMany := Pos.succ (next_ref w) |}).
  set (W := with_arrays <[Pos.succ (next_ref w) := []]>
              (with_next_ref Pos.succ
                 (with_arrays <[next_ref w := []]> (with_next_ref Pos.succ w)))).
  assert (Hold : ∀ a, is_Some (arrays w !! a) → (a < next_ref w)%positive).
  { apply (fresh_arrays _ (wf_fresh _ _ _ Hwf)). }
  assert (Hnone : ∀ a, (next_ref w ≤ a)%positive → arrays w !! a = None).
  { intros a Hle. apply eq_None_not_Some. intros H%Hold. lia. }
  assert (HwfW : wf_upto b W).
  { apply wf_new_array; [apply wf_next, wf_new_array; [by apply wf_next|..]|..];
      simpl; try lia.
    - apply Hnone. lia.
    - rewrite lookup_insert_ne by lia. apply Hnone. lia. }
  assert (HdetW : ∀ a, (next_ref w ≤ a)%positive → detached W a).
  { intros a Hle g' G' k HG' Heq. simpl in HG'.
    destruct (wf_queue _ _ _ Hwf g' G' k HG') as (? & Hl & _).
    rewrite Heq, Hnone in Hl by done. done. }
  apply wf_fresh_queues with (q := q); simpl; try done.
  - pose proof (fresh_graphs _ (wf_fresh _ _ _ Hwf) g) as Hlt.
    rewrite HG in Hlt. specialize (Hlt (mk_is_Some _ _ eq_refl)). lia.
  - intros G0. rewrite HG. intros [= <-]. done.
  - rewrite HG. done.
  - rewrite lookup_insert_ne by lia. by rewrite lookup_insert_eq.
  - by rewrite lookup_insert_eq.
  - lia.
  - apply HdetW. lia.
  - apply HdetW. lia.
Qed.

Section Nested.

(** Whatever stands for [this.graph.push] in the update of a relationship,
    as long as it keeps the shape of the store. *)
Variable graph_push :
  nat → Ref → Ref → string → JsonApiRelationship → @M JsonApiRelationship unit.
Hypothesis graph_push_keeps : ∀ fuel g i n p (w w' : World),
  graph_push fuel g i n p w = Some (tt, w') → keeps w w'.

Lemma Relationship_push_via_keeps fuel r p (w w' : World) :
  Relationship_push_via reenter graph_push fuel r p w = Some (tt, w') →
  keeps w w'.
Proof.
  unfold Relationship_push_via. unfold mbind, M_bind.
  intros (R & w1 & [HR ->]%deref_Some & H)%bind_Some.
  revert H. unfold bind at 1 2 3. unfold gets, modify. intros H.
  assert (Hstep : ∀ x (wa wb : World),
            (λ '(identifier, propertyName, payload'),
               graph_push fuel (rel_graph R) identifier propertyName payload')
              x wa = Some (tt, wb) → keeps wa wb).
  { intros [[i n] p'] wa wb. apply graph_push_keeps. }
  eapply keeps_trans;
    [|exact (forEach_preserves keeps _ _ keeps_refl keeps_trans Hstep _ _ H)].
  intros Hwf. split_and!.
  - by apply wf_apply.
  - split; simpl; ext_same.
    + intros r' R' HR'. destruct (decide (r' = r)) as [->|?].
      * rewrite lookup_insert_eq. eexists. split; [done|]. simplify_eq/=.
        split_and!; try done. by apply prefix_app_r.
      * rewrite lookup_insert_ne by done.
        eexists; split_and!; [eassumption|done..].
    + by apply prefix_app_r.
  - by apply sameImplicit_frame.
Qed.

Lemma drain_via_keeps fuel : ∀ a i (w w' : World),
  drain_via reenter graph_push fuel a i w = Some (tt, w') → keeps w w'.
Proof.
  induction fuel as [|fuel IH]; intros a i w w'; [done|].
  simpl. unfold mbind, M_bind.
  intros (xs & w1 & [Hxs ->]%deref_Some & H)%bind_Some.
  revert H. case_decide; [|intros [= <-]; apply keeps_refl].
  destruct (xs !! i) as [[r|?]|]; [|done..].
  destruct (xs !! (i + 1)) as [[?|p]|]; [done| |done].
  intros (u & w2 & H1 & H2)%bind_Some. destruct u.
  eapply keeps_trans; [by eapply Relationship_push_via_keeps|by eapply IH].
Qed.

Lemma flush_via_head (w : World) fuel g G :
  graphs w !! g = Some G →
  flush_via reenter graph_push fuel g w =
  bind (drain_via reenter graph_push fuel (hasMany (_queued G)) 0)
       (λ _, drain_via reenter graph_push fuel (belongsTo (_queued G)) 0)
    (with_graphs
       <[g := set_queued {| belongsTo := next_ref w;
                            hasMany := Pos.succ (next_ref w) |}
                (set_nextFlush false G)]>
       (with_arrays <[Pos.succ (next_ref w) := []]>
          (with_next_ref Pos.succ
             (with_arrays <[next_ref w := []]>
                (with_next_ref Pos.succ w))))).
Proof.
  intros HG.
  unfold flush_via, assign, this, new_Queued, new_Array. munfold.
  rewrite HG. simpl. rewrite lookup_insert_eq. simpl.
  rewrite lookup_insert_eq. simpl.
  match goal with
  | |- match _ ?w1 with _ => _ end = match _ ?w2 with _ => _ end =>
      replace w1 with w2; [done|]
  end.
  unfold with_graphs. simpl. f_equal. by rewrite insert_insert_eq.
Qed.

Lemma flush_via_keeps fuel g (w w' : World) :
  flush_via reenter graph_push fuel g w = Some (tt, w') → keeps w w'.
Proof.
  destruct (graphs w !! g) as [G|] eqn:HG.
  2:{ unfold flush_via, assign, this. munfold. by rewrite HG. }
  rewrite (flush_via_head w fuel g G HG).
  intros ([] & w1 & H1 & H2)%bind_Some.
  refine (keeps_trans _ _ _ _
            (keeps_trans _ _ _ (drain_via_keeps _ _ _ _ _ H1)
               (drain_via_keeps _ _ _ _ _ H2))).
  intros Hwf. split_and!.
  - by apply wf_flush_head.
  - split; simpl; ext_same.
    intros g0 G0 HG0. destruct (decide (g0 = g)) as [->|?].
    + rewrite lookup_insert_eq. eexists. split; [done|]. by simplify_eq/=.
    + rewrite lookup_insert_ne by done.
      eexists; split_and!; [eassumption|done..].
  - eapply sameImplicit_graph; [exact HG|reflexivity|done..].
Qed.

Lemma backburner_end_via_keeps fuel : ∀ (w w' : World),
  backburner_end_via reenter graph_push fuel w = Some (tt, w') → keeps w w'.
Proof.
  induction fuel as [|fuel IH]; intros w w'; [done|].
  simpl. unfold mbind, M_bind.
  intros (q & w1 & [= <- <-] & H)%bind_Some.
  destruct (flushRelationships w) as [|g rest].
  { revert H. unfold modify. intros [= <-]. by apply keeps_frame. }
  apply bind_Some in H as (u & w2 & [= <- <-] & H').
  apply bind_Some in H' as (u & w3 & H3 & H4). destruct u.
  eapply keeps_trans;
    [|exact (keeps_trans _ _ _ (flush_via_keeps _ _ _ _ H3) (IH _ _ H4))].
  by apply keeps_frame.
Qed.

End Nested.

(** The body of [Graph.push] around whatever ends the run loop that [join]
    opens. *)
Lemma Graph_push_body_keeps (finish : @M JsonApiRelationship unit) g i n p
    (w w' : World) :
  (∀ w0 w0' : World, finish w0 = Some (tt, w0') → keeps w0 w0') →
  bind (Graph_get g i) (λ c,
  bind (Relationships_get c n) (λ relationship,
  bind (deref (λ w : World, relationships w !! relationship)) (λ R,
  bind (this g) (λ G,
  bind (Array_push (queue_of (_queued G) (kind R))
          [SRelationship relationship; SPayload p]) (λ _,
  bind (modify (with_enqueued
          (λ l, l ++ [(g, kind R, relationship, p)]))) (λ _,
  if _nextFlush G then ret tt
  else
    bind (join (schedule g) finish)
         (λ _, assign g (set_nextFlush true)))))))) w = Some (tt, w') →
  keeps w w'.
Proof.
  intros Hfin. unfold this.
  intros (c & w1 & H1 & Ha)%bind_Some.
  apply bind_Some in Ha as (r & w2 & H2 & Hb).
  apply bind_Some in Hb as (R & w3 & [HR ->]%deref_Some & Hc).
  apply bind_Some in Hc as (G & w4 & [HG ->]%deref_Some & Hd).
  apply bind_Some in Hd as (u5 & w5 & H5 & He). destruct u5.
  apply bind_Some in He as (u6 & w6 & [= <- <-] & H).
  intros Hwf.
  assert (HRg : rel_graph R = g).
  { destruct (graphs w !! g) as [G0|] eqn:HG0.
    2:{ revert H1. unfold Graph_get, this. munfold. by rewrite HG0. }
    destruct (Graph_get_spec w g G0 i Hwf HG0)
      as (c0 & w0 & E & Hwf1 & _ & _ & _ & _ & _ & _ & Hgr1 & _).
    rewrite H1 in E. injection E as <- <-.
    destruct (wf_identifiers _ _ _ Hwf1 g (set_identifiers <[i := c]> G0) i c)
      as (C & HC & HCg & _).
    { by rewrite Hgr1, lookup_insert_eq. }
    { simpl. by rewrite lookup_insert_eq. }
    destruct (Relationships_get_spec w1 c C n Hwf1 HC)
      as (r0 & w0 & E & Hwf2 & Hext2 & _ & _ & _ & _ & _ & _
          & (C' & HC' & Hr) & _).
    rewrite H2 in E. injection E as <- <-.
    destruct (wf_initialized _ _ _ Hwf2 c C' n r HC' Hr)
      as (R' & HR' & _ & HRg & _).
    destruct (ext_containers _ _ Hext2 c C HC) as (C'' & HC'' & HCg'' & _).
    congruence. }
  assert (Ktail : keeps (with_enqueued
                           (λ l, l ++ [(g, kind R, r, p)]) w5) w').
  { destruct (_nextFlush G).
    { revert H. intros [= <-]. apply keeps_refl. }
    apply bind_Some in H as (u & w7 & H7 & H8). destruct u.
    eapply keeps_trans; [|by eapply assign_nextFlush_keeps].
    revert H7. unfold join, schedule, begin. unfold mbind, M_bind.
    intros (running & w8 & [= <- <-] & H9)%bind_Some.
    destruct (inRunLoop _).
    { revert H9. intros [= <-]. by apply keeps_frame. }
    apply bind_Some in H9 as (u & w9 & [= <- <-] & H10).
    apply bind_Some in H10 as (u & w10 & [= <- <-] & H11).
    eapply keeps_trans; [|exact (Hfin _ _ H11)].
    by apply keeps_frame. }
  refine (keeps_trans _ _ _ (Graph_get_keeps _ _ _ _ _ H1)
            (keeps_trans _ _ _ (Relationships_get_keeps _ _ _ _ _ H2)
               (keeps_trans _ _ _ (Array_push_keeps _ _ _ _ _ _ _ HG HR HRg H5)
                  (keeps_trans _ _ _ _ Ktail))) Hwf).
  apply keeps_frame; try done. by apply prefix_app_r.
Qed.

Lemma Graph_push_keeps fuel : ∀ g i n p (w w' : World),
  Graph_push fuel g i n p w = Some (tt, w') → keeps w w'.
Proof.
  induction fuel as [|fuel IH]; intros g i n p w w'; rewrite Graph_push_eq;
    apply Graph_push_body_keeps.
  - done.
  - apply backburner_end_via_keeps. intros _. apply IH.
Qed.

Lemma flush_keeps fuel g (w w' : World) :
  flush fuel g w = Some (tt, w') → keeps w w'.
Proof. apply flush_via_keeps. intros f. apply Graph_push_keeps. Qed.

Lemma runScheduled_keeps fuel (w w' : World) :
  runScheduled fuel w = Some (tt, w') → keeps w w'.
Proof.
  unfold runScheduled, runScheduled_via. fold flush. unfold mbind, M_bind.
  intros (q & w1 & [= <- <-] & H)%bind_Some.
  destruct (flushRelationships w) as [|g rest].
  { revert H. intros [= <-]. apply keeps_refl. }
  apply bind_Some in H as (u & w2 & [= <- <-] & H').
  eapply keeps_trans; [|exact (flush_keeps _ _ _ _ H')].
  by apply keeps_frame.
Qed.

Lemma backburner_end_keeps fuel (w w' : World) :
  backburner_end fuel w = Some (tt, w') → keeps w w'.
Proof. apply backburner_end_via_keeps. intros f. apply Graph_push_keeps. Qed.

(** Every call keeps the shape of the store, the flags apart, and the
    dictionaries of implicit relationships. *)
Lemma call_sane c (w w' : World) :
  wf_upto false w → call c w = Some (tt, w') →
  wf_upto false w' ∧ grows w w' ∧ (implicitOk w → implicitOk w').
Proof.
  intros Hwf.
  assert (Hk : ∀ w0 : World, keeps w w0 →
            wf_upto false w0 ∧ grows w w0 ∧ (implicitOk w → implicitOk w0)).
  { intros w0 K. destruct (K Hwf) as (? & ? & ?).
    eauto using implicitOk_same. }
  destruct c as [s|s i|s i|s i n p fuel|s i n|s fuel|fuel]; simpl;
    unfold mbind, M_bind.
  - intros (g & w1 & H1 & [= <-])%bind_Some. apply Hk.
    by eapply graphFor_keeps.
  - intros (g & w1 & H1 & (c & w2 & H2 & [= <-])%bind_Some)%bind_Some.
    apply Hk. eapply keeps_trans; [by eapply graphFor_keeps|].
    by eapply Graph_get_keeps.
  - intros (g & w1 & H1 & (d & w2 & H2 & [= <-])%bind_Some)%bind_Some.
    destruct (graphFor_keeps _ _ _ _ H1 Hwf) as (Hwf1 & Hg1 & Hi1).
    destruct (graphs w1 !! g) as [G|] eqn:HG.
    2:{ revert H2. unfold Graph_getImplicit, this. munfold. by rewrite HG. }
    destruct (Graph_getImplicit_spec w1 g G i Hwf1 HG)
      as (d' & w2' & E & Hwf2 & Hext2 & _).
    rewrite H2 in E. injection E as <- <-.
    split_and!; [done|eapply grows_trans; [done|by apply extends_grows]|].
    intros Hok.
    destruct (Graph_getImplicit_frame w1 g G i Hwf1) as (d' & w2' & E & _ & ? & _);
      [by eapply implicitOk_same|done|].
    rewrite H2 in E. by injection E as <- <-.
  - intros (g & w1 & H1 & H2)%bind_Some. apply Hk.
    eapply keeps_trans; [by eapply graphFor_keeps|by eapply Graph_push_keeps].
  - unfold relationshipStateFor, relationshipsFor. unfold mbind, M_bind.
    intros (r & w3 & (c & w2 & (g & w1 & H1 & H2)%bind_Some & H3)%bind_Some
            & [= <-])%bind_Some.
    apply Hk. eapply keeps_trans; [by eapply graphFor_keeps|].
    eapply keeps_trans; [by eapply Graph_get_keeps|].
    by eapply Relationships_get_keeps.
  - intros (g & w1 & H1 & H2)%bind_Some. apply Hk.
    eapply keeps_trans; [by eapply graphFor_keeps|by eapply flush_keeps].
  - intros H. apply Hk. by eapply runScheduled_keeps.
Qed.

Lemma step_sane s (w w' : World) :
  wf_upto false w → step s w = Some (tt, w') →
  wf_upto false w' ∧ grows w w' ∧ (implicitOk w → implicitOk w').
Proof.
  intros Hwf. destruct s as [c| |fuel]; simpl.
  - by apply call_sane.
  - unfold begin. munfold. destruct (inRunLoop w); [done|]. intros [= <-].
    destruct (keeps_frame w (with_inRunLoop (λ _, true) w)) as (? & ? & ?);
      try done.
    eauto using implicitOk_same.
  - munfold. destruct (inRunLoop w); [|done]. intros H.
    destruct (backburner_end_keeps _ _ _ H Hwf) as (? & ? & ?).
    eauto using implicitOk_same.
Qed.

Lemma steps_sane ss : ∀ (w w' : World),
  wf_upto false w → steps ss w = Some (tt, w') →
  wf_upto false w' ∧ grows w w' ∧ (implicitOk w → implicitOk w').
Proof.
  induction ss as [|s ss IH]; intros w w' Hwf.
  { intros [= <-]. split_and!; [done|apply grows_refl|done]. }
  unfold steps. simpl. unfold mbind, M_bind.
  intros ([] & w1 & H1 & H2)%bind_Some.
  destruct (step_sane s w w1 Hwf H1) as (Hwf1 & Hg1 & Hi1).
  destruct (IH w1 w' Hwf1 H2) as (Hwf' & Hg' & Hi').
  split_and!; [done|by eapply grows_trans|auto].
Qed.

Lemma produced_sane (w : World) : produced w → wf_upto false w ∧ implicitOk w.
Proof.
  intros [ss Hrun].
  destruct (steps_sane ss init w (wf_weaken _ wf_init) Hrun) as (? & _ & Hi).
  split; [done|]. apply Hi.
  split; unfold implicitOf; simpl; intros *; by rewrite !lookup_empty.
Qed.

Lemma steps_Do cs (w : World) : steps (Do <$> cs) w = run cs w.
Proof.
  revert w. induction cs as [|c cs IH]; intros w; [done|].
  unfold steps, run. simpl. unfold mbind, M_bind, bind.
  destruct (call c w) as [[[] w1]|]; [|done]. apply IH.
Qed.

(** The programs that run inside one run loop are among them. *)
Lemma reachable_produced (w : World) : reachable w → produced w.
Proof.
  intros [cs Hrun]. exists (Begin :: (Do <$> cs)).
  revert Hrun. unfold inRun, steps. simpl. unfold begin. munfold. simpl.
  intros <-. apply steps_Do.
Qed.

(** *** Programs that make their calls inside run loops *)

Lemma run_app cs cs' (w w1 : World) :
  run cs w = Some (tt, w1) → run (cs ++ cs') w = run cs' w1.
Proof.
  revert w. induction cs as [|c cs IH]; intros w; unfold run; simpl.
  { by intros [= <-]. }
  unfold mbind, M_bind, bind.
  destruct (call c w) as [[[] w0]|]; [|done]. apply IH.
Qed.

Lemma reachable_run cs (w w' : World) :
  reachable w → run cs w = Some (tt, w') → reachable w'.
Proof.
  intros [cs0 H%inRun_init] Hrun. exists (cs0 ++ cs). apply inRun_init.
  by rewrite (run_app _ _ _ _ H).
Qed.

(** The end of a run loop is a series of its tasks, after which the loop is
    closed. *)
Lemma backburner_end_tasks fuel (w w' : World) :
  backburner_end fuel w = Some (tt, w') →
  ∃ cs w0, run cs w = Some (tt, w0) ∧ flushRelationships w0 = []
    ∧ w' = with_inRunLoop (λ _, false) w0.
Proof.
  revert w w'. induction fuel as [|fuel IH]; intros w w'; [done|].
  unfold backburner_end. simpl. unfold mbind, M_bind.
  intros (q & w1 & [= <- <-] & H)%bind_Some.
  destruct (flushRelationships w) as [|g rest] eqn:Hq.
  { injection H as <-. by exists [], w. }
  apply bind_Some in H as (u & w2 & [= <- <-] & H).
  apply bind_Some in H as ([] & w3 & Hflush & Hend).
  destruct (IH _ _ Hend) as (cs & w0 & Hrun & Hnil & ->).
  exists (RunScheduled fuel :: cs), w0. split_and!; [|done..].
  unfold run. simpl. unfold runScheduled, runScheduled_via.
  unfold mbind, M_bind, bind, gets, modify. rewrite Hq.
  rewrite Hflush. exact Hrun.
Qed.

Lemma begin_after_end (w : World) :
  inRunLoop w = true →
  with_inRunLoop (λ _, true) (with_inRunLoop (λ _, false) w) = w.
Proof. destruct w. simpl. by intros ->. Qed.

(** A program that makes its calls inside run loops, however many, leaves a
    store of one run loop whenever a loop is open. *)
Lemma sheltered_reachable ss (w : World) :
  sheltered false ss = true → steps ss init = Some (tt, w) →
  inRunLoop w = true → reachable w.
Proof.
  set (P := λ w0 : World,
    if inRunLoop w0 then reachable w0
    else with_inRunLoop (λ _, true) w0 = with_inRunLoop (λ _, true) init
         ∨ reachable (with_inRunLoop (λ _, true) w0)).
  assert (Hstep : ∀ ss (w0 w1 : World),
            P w0 → sheltered (inRunLoop w0) ss = true →
            steps ss w0 = Some (tt, w1) → P w1).
  { clear ss w. induction ss as [|s ss IH]; intros w0 w1 HP Hs; unfold steps;
      simpl.
    { by intros [= <-]. }
    unfold mbind, M_bind. intros ([] & w2 & H1 & H2)%bind_Some.
    destruct s as [c| |fuel]; simpl in Hs, H1.
    - apply andb_true_iff in Hs as [Hopen Hs].
      unfold P in HP. rewrite Hopen in HP.
      assert (Hr : reachable w2).
      { apply (reachable_run [c] w0 w2 HP). unfold run. simpl.
        unfold mbind, M_bind, bind. by rewrite H1. }
      rewrite Hopen in Hs.
      apply (IH w2 w1); [|by rewrite (reachable_inRunLoop _ Hr)|done].
      unfold P. by rewrite (reachable_inRunLoop _ Hr).
    - apply andb_true_iff in Hs as [Hclosed Hs].
      apply negb_true_iff in Hclosed.
      revert H1. unfold begin. munfold. rewrite Hclosed. intros [= <-].
      apply (IH (with_inRunLoop (λ _, true) w0) w1); [|done..].
      unfold P in *. rewrite Hclosed in HP. simpl.
      destruct HP as [->|Hr]; [|done].
      exists []. done.
    - apply andb_true_iff in Hs as [Hopen Hs].
      unfold P in HP. rewrite Hopen in HP.
      revert H1. munfold. rewrite Hopen.
      intros (cs & w3 & Hrun & _ & ->)%backburner_end_tasks.
      apply (IH (with_inRunLoop (λ _, false) w3) w1); [|done..].
      pose proof (reachable_run cs w0 w3 HP Hrun) as Hr.
      unfold P. simpl. right.
      by rewrite (begin_after_end _ (reachable_inRunLoop _ Hr)). }
  intros Hs Hrun Hopen.
  assert (HP : P w).
  { apply (Hstep ss init w); [by left|done..]. }
  unfold P in HP. by rewrite Hopen in HP.
Qed.

(** ** The claims *)

(** C1, as amended.  In the store of any program, while a run loop is open
    [Graph.push] enqueues and applies nothing: the trace of applied updates
    and every relationship object are as before.  After any burst of pushes
    on a graph, the payloads waiting for a relationship are those that waited
    before followed by the payloads of the requests for it, in the order of
    the requests, one entry per request; and a flush hands exactly these
    payloads to the relationship, in that order. *)
Theorem push_enqueues_flush_applies_in_order (w : World) s g reqs fuel :
  produced w → inRunLoop w = true → Graphs w !! s = Some g →
  length (queued w g HasMany) + length reqs < fuel →
  length (queued w g BelongsTo) + length reqs < fuel →
  ∃ w1, pushAll fuel g reqs w = Some (tt, w1)
    ∧ applied w1 = applied w
    ∧ relationships w ⊆ relationships w1
    ∧ (∀ r, pushedTo w1 r = pushedTo w r)
    ∧ Forall (λ req, is_Some (lookupRelationship w1 g req.1.1 req.1.2)) reqs
    ∧ ∀ i n r, lookupRelationship w1 g i n = Some r →
        pending w1 g r = pending w g r ++ payloadsOf i n reqs
        ∧ ∃ w2, flush fuel g w1 = Some (tt, w2)
                ∧ pushedTo w2 r = pushedTo w1 r ++ pending w1 g r.
Proof.
  intros [Hwf _]%produced_sane Hloop Hs Hf1 Hf2.
  destruct (wf_Graphs _ _ _ Hwf s g Hs) as (G & HG & _).
  destruct (pushAll_spec reqs fuel w g G Hwf HG (λ _, or_introl Hloop))
    as (evs & w1 & E & Hwf1 & Hext & Hd & _ & Hsub & Hall & _
        & (G1 & HG1 & _)).
  pose proof (d_applied _ _ _ _ Hd) as Happ. rewrite app_nil_r in Happ.
  exists w1. split_and!; try done.
  - intros r. by rewrite (wf_log _ _ _ Hwf1), (wf_log _ _ _ Hwf), Happ.
  - clear -Hall. induction Hall as [|[[i n] p] [[[g' k] r] p'] ? ? Hp _ IH];
      constructor; [|done].
    destruct Hp as (_ & _ & _ & Hl). simpl. by rewrite Hl.
  - intros i n r Hl.
    destruct (lookupRelationship_inv w1 g i n r Hwf1 Hl)
      as (R & HR & Hk & _).
    split.
    + unfold pending.
      pose proof (payloadsFor_events w1 g i n r reqs evs HasMany Hwf1 Hall Hl)
        as EH.
      pose proof (payloadsFor_events w1 g i n r reqs evs BelongsTo Hwf1 Hall Hl)
        as EB.
      pose proof (d_queued _ _ _ _ Hd g HasMany) as QH.
      pose proof (d_queued _ _ _ _ Hd g BelongsTo) as QB.
      rewrite QH, QB, !payloadsFor_app, EH, EB.
      destruct (relationshipKind i n) eqn:Hkind.
      * rewrite decide_False by done. rewrite decide_True by done.
        by rewrite app_nil_r, app_assoc.
      * rewrite decide_True by done. rewrite decide_False by done.
        assert (payloadsFor r (queued w1 g BelongsTo) = []) as Hnone.
        { eapply payloadsFor_other_kind; [done..|]. congruence. }
        rewrite QB, payloadsFor_app, EB, decide_False, app_nil_r in Hnone
          by done.
        by rewrite Hnone, !app_nil_r.
    + pose proof (Forall2_length _ _ _ Hall) as Hlen.
      pose proof (eventsOf_length g HasMany evs).
      pose proof (eventsOf_length g BelongsTo evs).
      destruct (flush_spec w1 fuel g G1 Hwf1 HG1)
        as (evs' & w2 & E2 & Hwf2 & _ & Happ2 & _).
      { rewrite (d_queued _ _ _ _ Hd), length_app. lia. }
      { rewrite (d_queued _ _ _ _ Hd), length_app. lia. }
      { intros _. left. by rewrite (ext_inRunLoop _ _ Hext). }
      exists w2. split; [done|]. by eapply flush_pushedTo.
Qed.



Lemma sameState_refl (w : World) : sameState w w.
Proof. by split. Qed.




(** C10. In the store of any program, when [Graph.push] returns and no
    flush has run in it (a run loop is open, or a flush of the graph is
    already marked as pending), the [identifiers] map of the graph has a
    container for the identifier, that container has the relationship of the
    given name, and the last two slots of the queue of its kind are that
    relationship object and the payload.
    Later lookups return the same container and relationship, and later
    pushes leave the entry where it is. *)
Theorem push_materializes_lookup_state (w : World) fuel g G i n p :
  produced w → graphs w !! g = Some G →
  inRunLoop w = true ∨ _nextFlush G = true →
  ∃ w' G' c C r R xs,
    Graph_push fuel g i n p w = Some (tt, w')
    ∧ graphs w' !! g = Some G' ∧ identifiers G' !! i = Some c
    ∧ containers w' !! c = Some C ∧ initializedRelationships C !! n = Some r
    ∧ relationships w' !! r = Some R
    ∧ arrays w' !! queue_of (_queued G') (kind R)
        = Some (xs ++ [SRelationship r; SPayload p])
    ∧ entries xs = queued w g (kind R)
    ∧ Graph_get g i w' = Some (c, w')
    ∧ Relationships_get c n w' = Some (r, w')
    ∧ ∀ reqs, ∃ w'', pushAll fuel g reqs w' = Some (tt, w'')
        ∧ queued w' g (kind R) `prefix_of` queued w'' g (kind R).
Proof.
  intros [Hwf _]%produced_sane HG Hopen.
  destruct (Graph_push_spec w fuel g G i n p Hwf HG Hopen)
    as (r & w' & E & Hwf' & _ & Hd & _ & _ & Hl & _ & (G' & HG' & Hn' & _)).
  destruct (lookupRelationship_inv w' g i n r Hwf' Hl) as (R & HR & Hk & _).
  unfold lookupRelationship in Hl. rewrite HG' in Hl. simpl in Hl.
  destruct (identifiers G' !! i) as [c|] eqn:Hi; simplify_eq/=.
  destruct (containers w' !! c) as [C|] eqn:HC; simplify_eq/=.
  destruct (wf_queue _ _ _ Hwf' g G' (kind R) HG') as (ps & Hps & _).
  pose proof (d_queued _ _ _ _ Hd g (kind R)) as Hq.
  rewrite (queued_lookup w' g G' (kind R) ps HG' Hps) in Hq.
  rewrite <- Hk, eventsOf_cons, decide_True in Hq by done.
  exists w', G', c, C, r, R, (slots (queued w g (kind R))).
  split_and!; try done.
  - rewrite Hps, Hq, slots_app. done.
  - apply entries_slots.
  - unfold Graph_get, this. munfold. by rewrite HG', Hi.
  - unfold Relationships_get. munfold. by rewrite HC, Hl.
  - intros reqs.
    destruct (pushAll_spec reqs fuel w' g G' Hwf' HG' (λ _, or_intror Hn'))
      as (evs & w'' & E' & _ & _ & Hd' & _).
    exists w''. split; [done|].
    rewrite (d_queued _ _ _ _ Hd' g (kind R)). by apply prefix_app_r.
Qed.

Lemma Graph_get_cached (w : World) g G i c :
  graphs w !! g = Some G → identifiers G !! i = Some c →
  Graph_get g i w = Some (c, w).
Proof. intros HG Hi. unfold Graph_get, this. munfold. by rewrite HG, Hi. Qed.

(** C5. [Graph.get] creates the container of an identifier on the first
    call, as a new object that it stores in [identifiers]; every later call
    for that identifier, after whatever else the program does, inside a run
    loop or with none open, returns that same object and changes nothing;
    and a lookup that returns this object is a lookup of the same identifier
    on the same graph. *)
Theorem get_creates_once_and_caches (w : World) s g i :
  produced w → Graphs w !! s = Some g →
  ∃ G c w1, graphs w !! g = Some G ∧ Graph_get g i w = Some (c, w1)
    ∧ (identifiers G !! i = None →
         containers w !! c = None
         ∧ containers w1 !! c =
             Some {| rs_graph := g; rs_identifier := i;
                     initializedRelationships := ∅ |})
    ∧ (∃ G1, graphs w1 !! g = Some G1 ∧ identifiers G1 !! i = Some c)
    ∧ (∀ ss w2, steps ss w1 = Some (tt, w2) → Graph_get g i w2 = Some (c, w2))
    ∧ (∀ ss w2 g' j w3, steps ss w1 = Some (tt, w2) →
         Graph_get g' j w2 = Some (c, w3) → g' = g ∧ j = i).
Proof.
  intros [Hwf _]%produced_sane Hs.
  destruct (wf_Graphs _ _ _ Hwf s g Hs) as (G & HG & _).
  destruct (Graph_get_spec w g G i Hwf HG)
    as (c & w1 & E & Hwf1 & Hext & _ & _ & _ & _ & _ & Hg1 & Hcase).
  assert (HG1 : graphs w1 !! g = Some (set_identifiers <[i := c]> G)).
  { by rewrite Hg1, lookup_insert_eq. }
  assert (Hi1 : identifiers (set_identifiers <[i := c]> G) !! i = Some c).
  { simpl. by rewrite lookup_insert_eq. }
  destruct (wf_identifiers _ _ _ Hwf1 g _ i c HG1 Hi1) as (C & HC & HCg & HCi).
  exists G, c, w1. split_and!; try done.
  - intros Hnone. destruct Hcase as [[? _]|(_ & Hc & Hc1)]; [congruence|].
    split; [done|]. by rewrite Hc1, lookup_insert_eq.
  - eauto.
  - intros ss w2 Hrun.
    destruct (steps_sane ss w1 w2 Hwf1 Hrun) as (_ & Hext2 & _).
    destruct (grw_graphs _ _ Hext2 g _ HG1) as (G2 & HG2 & _ & Hsub & _).
    apply (Graph_get_cached w2 g G2 i c HG2).
    by eapply lookup_weaken.
  - intros ss w2 g' j w3 Hrun Hget.
    destruct (steps_sane ss w1 w2 Hwf1 Hrun) as (Hwf2 & Hext2 & _).
    destruct (graphs w2 !! g') as [G'|] eqn:HG'.
    2:{ unfold Graph_get, this in Hget. munfold. by rewrite HG' in Hget. }
    destruct (Graph_get_spec w2 g' G' j Hwf2 HG')
      as (c' & w3' & E' & Hwf3 & Hext3 & _ & _ & _ & _ & _ & Hg3 & _).
    assert (c' = c ∧ w3' = w3) as [-> ->] by (split; congruence).
    destruct (wf_identifiers _ _ _ Hwf3 g' (set_identifiers <[j := c]> G') j c)
      as (C3 & HC3 & HC3g & HC3i).
    { by rewrite Hg3, lookup_insert_eq. }
    { simpl. by rewrite lookup_insert_eq. }
    destruct (grw_containers _ _
                (grows_trans _ _ _ Hext2 (extends_grows _ _ Hext3)) c C HC)
      as (C3' & HC3' & HC3g' & HC3i' & _).
    assert (C3' = C3) as -> by congruence.
    split; congruence.
Qed.

Lemma reachableFrom_owner {b} (w : World) g r :
  wf_upto b w → reachableFrom w g r →
  ∃ R, relationships w !! r = Some R ∧ rel_graph R = g.
Proof.
  intros Hwf [(i & n & Hl)|(k & p & Hin)].
  - destruct (lookupRelationship_inv w g i n r Hwf Hl) as (R & ? & _ & ? & _).
    eauto.
  - pose proof (queued_inv w g k Hwf) as Hall.
    rewrite Forall_forall in Hall.
    destruct (Hall _ Hin) as (R & ? & _ & ?). eauto.
Qed.

(** C6. [graphFor] returns one graph per store wrapper: the call yields a
    live graph object whose [storeWrapper] is the wrapper given, a new object
    when the wrapper had none, and every later call for that wrapper, after
    whatever else the program does, returns this object again, still a graph
    of that wrapper, without changing anything.  The graphs of two different
    wrappers are different live objects; a relationship looked up through
    one of them is reachable from it and not from the other, and at no later
    time is a relationship reachable from both. *)
Theorem graph_is_singleton_per_store (w : World) :
  produced w →
  (∀ s, ∃ g w1 G, graphFor s w = Some (g, w1)
     ∧ graphs w1 !! g = Some G ∧ storeWrapper G = s
     ∧ Graphs w1 !! s = Some g
     ∧ (Graphs w !! s = None → graphs w !! g = None)
     ∧ ∀ ss w2, steps ss w1 = Some (tt, w2) →
         graphFor s w2 = Some (g, w2)
         ∧ ∃ G2, graphs w2 !! g = Some G2 ∧ storeWrapper G2 = s)
  ∧ (∀ s1 s2 g1 g2 w1 w2,
       graphFor s1 w = Some (g1, w1) → graphFor s2 w1 = Some (g2, w2) →
       s1 ≠ s2 →
       g1 ≠ g2
       ∧ (∃ G1 G2, graphs w2 !! g1 = Some G1 ∧ storeWrapper G1 = s1
                   ∧ graphs w2 !! g2 = Some G2 ∧ storeWrapper G2 = s2)
       ∧ (∀ i n, ∃ c r w3 w4,
            Graph_get g1 i w2 = Some (c, w3)
            ∧ Relationships_get c n w3 = Some (r, w4)
            ∧ reachableFrom w4 g1 r ∧ ¬ reachableFrom w4 g2 r)
       ∧ ∀ ss w3 r, steps ss w2 = Some (tt, w3) →
           reachableFrom w3 g1 r → ¬ reachableFrom w3 g2 r).
Proof.
  intros [Hwf _]%produced_sane.
  split.
  - intros s.
    destruct (graphFor_spec w s Hwf)
      as (g & w1 & E & Hwf1 & Hext1 & _ & Hs1 & Hcase).
    destruct (wf_Graphs _ _ _ Hwf1 s g Hs1) as (G & HG & HGs).
    exists g, w1, G. split_and!; try done.
    + intros Hnone. destruct Hcase as [[? _]|(_ & ? & _)]; [congruence|done].
    + intros ss w2 Hrun.
      destruct (steps_sane ss w1 w2 Hwf1 Hrun) as (Hwf2 & Hext & _).
      pose proof (grw_Graphs _ _ Hext _ _ Hs1) as Hs2.
      split; [by apply graphFor_cached|].
      by apply (wf_Graphs _ _ _ Hwf2).
  - intros s1 s2 g1 g2 w1 w2 E1 E2 Hne.
    destruct (graphFor_spec w s1 Hwf)
      as (g1' & w1' & E1' & Hwf1 & Hext1 & Ho1 & Hs1 & _).
    assert (g1' = g1 ∧ w1' = w1) as [-> ->] by (split; congruence).
    destruct (graphFor_spec w1 s2 Hwf1)
      as (g2' & w2' & E2' & Hwf2 & Hext2 & Ho2 & Hs2 & _).
    assert (g2' = g2 ∧ w2' = w2) as [-> ->] by (split; congruence).
    apply (ext_Graphs _ _ Hext2) in Hs1.
    destruct (wf_Graphs _ _ _ Hwf2 _ _ Hs1) as (G1 & HG1 & HGs1).
    destruct (wf_Graphs _ _ _ Hwf2 _ _ Hs2) as (G2 & HG2 & HGs2).
    assert (Hg : g1 ≠ g2) by (intros ->; congruence).
    assert (Hapart : ∀ (w3 : World) r, wf_upto false w3 →
              reachableFrom w3 g1 r → ¬ reachableFrom w3 g2 r).
    { intros w3 r Hwf3 H1 H2.
      destruct (reachableFrom_owner w3 g1 r Hwf3 H1) as (R & HR & HRg).
      destruct (reachableFrom_owner w3 g2 r Hwf3 H2) as (R' & HR' & HRg').
      congruence. }
    split_and!; [done|by exists G1, G2| |].
    + intros i n.
      destruct (Graph_get_spec w2 g1 G1 i Hwf2 HG1)
        as (c & w3 & E3 & Hwf3 & _ & _ & _ & _ & _ & _ & Hg3 & _).
      destruct (wf_identifiers _ _ _ Hwf3 g1 (set_identifiers <[i := c]> G1) i c)
        as (C & HC & _).
      { by rewrite Hg3, lookup_insert_eq. }
      { simpl. by rewrite lookup_insert_eq. }
      destruct (Relationships_get_spec w3 c C n Hwf3 HC)
        as (r & w4 & E4 & Hwf4 & _ & _ & _ & Hg4 & _ & _ & _
            & (C' & HC' & Hr) & _).
      assert (Hreached : reachableFrom w4 g1 r).
      { left. exists i, n. unfold lookupRelationship.
        rewrite Hg4, Hg3, lookup_insert_eq. simpl.
        rewrite lookup_insert_eq. simpl. by rewrite HC'. }
      exists c, r, w3, w4. split_and!; try done. by apply Hapart.
    + intros ss w3 r Hrun.
      destruct (steps_sane ss w2 w3 Hwf2 Hrun) as (Hwf3 & _).
      by apply Hapart.
Qed.

Lemma nextFlush_iff_queued (w : World) g G :
  wf w → graphs w !! g = Some G →
  _nextFlush G = true ↔ ∃ k, queued w g k ≠ [].
Proof.
  intros Hwf HG.
  destruct (wf_queue _ _ _ Hwf g G HasMany HG) as (hm & Hhm & _).
  destruct (wf_queue _ _ _ Hwf g G BelongsTo HG) as (bt & Hbt & _).
  pose proof (wf_flag _ _ _ Hwf eq_refl g G HG) as Hflag. simpl in Hhm, Hbt.
  rewrite Hhm, Hbt in Hflag.
  split.
  - intros Htrue. destruct hm as [|x hm]; [destruct bt as [|y bt]|].
    + destruct Hflag as [_ Hf]. rewrite Hf in Htrue; done.
    + exists BelongsTo. by rewrite (queued_lookup w g G BelongsTo _ HG Hbt).
    + exists HasMany. by rewrite (queued_lookup w g G HasMany _ HG Hhm).
  - intros [k Hk]. destruct (_nextFlush G) eqn:Hf; [done|].
    destruct Hflag as [[Hb Hh] _]; [done|]. exfalso. apply Hk.
    apply (inj Some), slots_nil_inv in Hb, Hh. subst.
    destruct k; by erewrite queued_lookup.
Qed.


(** C9. On an identifier object and a non-empty property name the two
    revisions of [relationshipsFor] and of [relationshipStateFor] do the same:
    same result, same store, whatever [_internalModel] would have given. *)
Theorem legacy_record_data_for_agrees
    (_internalModel : Ref → option InternalModel) (upgradeForInternal : Ref → Ref)
    (w : World) storeWrapper identifier propertyName :
  propertyName ≠ EmptyString →
  legacy_relationshipsFor _internalModel upgradeForInternal
      storeWrapper (VObject identifier) w
    = relationshipsFor storeWrapper identifier w
  ∧ legacy_relationshipStateFor relationshipKind _internalModel
      upgradeForInternal storeWrapper (VObject identifier)
      (VString propertyName) w
    = relationshipStateFor storeWrapper identifier propertyName w.
Proof.
  intros Hne.
  assert (E : legacy_relationshipsFor _internalModel upgradeForInternal
                storeWrapper (VObject identifier) w
              = relationshipsFor storeWrapper identifier w).
  { unfold legacy_relationshipsFor, relationshipsFor. by munfold. }
  split; [exact E|].
  unfold legacy_relationshipStateFor, relationshipStateFor.
  simpl. rewrite bool_decide_false by done. simpl.
  munfold. by rewrite E.
Qed.

(** ** Beyond the batching contract *)

(** *** Every waiting graph has its flush scheduled *)

Lemma eventsOf_other g g' k
    (evs : list (Ref * RelationshipKind * Ref * JsonApiRelationship)) :
  Forall (λ e, e.1.1.1 = g) evs → g' ≠ g → eventsOf g' k evs = [].
Proof.
  intros Hall Hne. induction Hall as [|[[[g0 k0] r] p] evs Hg _ IH]; [done|].
  rewrite eventsOf_cons. simpl in Hg. subst g0.
  rewrite decide_False by (intros [? _]; congruence). exact IH.
Qed.

Lemma eventsOf_nil_inv g
    (evs : list (Ref * RelationshipKind * Ref * JsonApiRelationship)) :
  Forall (λ e, e.1.1.1 = g) evs → (∀ k, eventsOf g k evs = []) → evs = [].
Proof.
  intros Hall Hnil. destruct Hall as [|[[[g0 k0] r] p] evs Hg _]; [done|].
  simpl in Hg. subst g0. specialize (Hnil k0).
  rewrite eventsOf_cons, decide_True in Hnil by done. done.
Qed.

(** Whatever fuel made [flush] return, it did what [flush_spec] says. *)
Lemma flush_inv (w w' : World) fuel g G :
  wf w → graphs w !! g = Some G →
  inRunLoop w = true ∨ (∀ w0 r p, reenter w0 r p = []) →
  flush fuel g w = Some (tt, w') →
  ∃ evs, wf w'
    ∧ applied w' = applied w ++ queued w g HasMany ++ queued w g BelongsTo
    ∧ enqueued w' = enqueued w ++ evs
    ∧ (∀ k, queued w' g k = eventsOf g k evs)
    ∧ (∀ g' k, g' ≠ g → queued w' g' k = queued w g' k)
    ∧ ((∀ w0 r p, reenter w0 r p = []) → evs = [])
    ∧ Graphs w' = Graphs w
    ∧ Forall (λ e, e.1.1.1 = g) evs
    ∧ flushRelationships w' =
        flushRelationships w ++ (if bool_decide (evs = []) then [] else [g]).
Proof.
  intros Hwf HG Hloop Hrun.
  set (F := fuel + S (length (queued w g HasMany)
                      + length (queued w g BelongsTo))).
  destruct (flush_spec w F g G Hwf HG)
    as (evs & w'' & E & Hwf' & _ & Ha & He & Hq & Hq' & _ & _ & _ & Hnil & HGs
        & Hall & Hf);
    [unfold F; lia..|done|].
  apply (flush_fuel_mono fuel F) in Hrun; [|done|unfold F; lia].
  assert (w'' = w') as -> by congruence.
  exists evs. split_and!; try done.
  intros g' k Hne. by rewrite Hq', (eventsOf_other g g' k evs Hall Hne), app_nil_r.
Qed.

Lemma queued_dead (w : World) g k : graphs w !! g = None → queued w g k = [].
Proof. intros H. unfold queued. by rewrite H. Qed.

(** With the flags as [wf] has them, [covered] speaks of the queues. *)
Lemma covered_alt (w : World) :
  wf w →
  covered w ↔ ∀ g k, queued w g k ≠ [] → g ∈ flushRelationships w.
Proof.
  intros Hwf. split.
  - intros Hc g k Hq. destruct (graphs w !! g) as [G|] eqn:HG.
    + apply (Hc g G HG). apply (nextFlush_iff_queued w g G Hwf HG). eauto.
    + by rewrite queued_dead in Hq.
  - intros Hc g G HG Hflag.
    apply (nextFlush_iff_queued w g G Hwf HG) in Hflag as [k Hk]. eauto.
Qed.

Lemma covered_undisturbed (w w' : World) :
  wf w → wf w' → undisturbed w w' → covered w → covered w'.
Proof.
  intros Hwf Hwf' Hu Hc. apply covered_alt; [done|]. intros g k.
  rewrite (und_queued _ _ Hu), (und_flushRelationships _ _ Hu).
  by apply covered_alt.
Qed.

Lemma Graph_push_covered (w w' : World) fuel g G i n p :
  wf w → inRunLoop w = true → graphs w !! g = Some G → covered w →
  Graph_push fuel g i n p w = Some (tt, w') → wf w' ∧ covered w'.
Proof.
  intros Hwf Hloop HG Hc Hrun.
  destruct (Graph_push_spec w fuel g G i n p Hwf HG (or_introl Hloop))
    as (r & w0 & E & Hwf' & _ & Hd & _ & _ & _ & Hf & _).
  rewrite Hrun in E. injection E as <-. split; [done|].
  apply covered_alt; [done|]. intros g' k. rewrite (d_queued _ _ _ _ Hd), Hf.
  destruct (decide (g' = g)) as [->|Hne].
  - intros _. destruct (_nextFlush G) eqn:Hflag.
    + rewrite app_nil_r. by apply (Hc g G).
    + set_solver.
  - rewrite (eventsOf_other g g' k) by (done || by constructor).
    rewrite app_nil_r. intros Hq. apply elem_of_app. left.
    by apply (proj1 (covered_alt w Hwf) Hc g' k).
Qed.

(** A flush repairs the schedule of its own graph. *)
Lemma flush_covered (w w' : World) fuel g G :
  wf w → inRunLoop w = true → graphs w !! g = Some G →
  (∀ g' k, g' ≠ g → queued w g' k ≠ [] → g' ∈ flushRelationships w) →
  flush fuel g w = Some (tt, w') → wf w' ∧ covered w'.
Proof.
  intros Hwf Hloop HG Hc Hrun.
  destruct (flush_inv w w' fuel g G Hwf HG (or_introl Hloop) Hrun)
    as (evs & Hwf' & _ & _ & Hq & Hq' & _ & _ & Hall & Hf).
  split; [done|]. apply covered_alt; [done|]. intros g' k. rewrite Hf.
  destruct (decide (g' = g)) as [->|Hne].
  - rewrite Hq. intros Hk. case_bool_decide as Hevs.
    + subst evs. done.
    + set_solver.
  - rewrite Hq' by done. intros Hk. apply elem_of_app. left. by apply (Hc g' k).
Qed.

Lemma runScheduled_covered (w w' : World) fuel :
  wf w → inRunLoop w = true → covered w →
  runScheduled fuel w = Some (tt, w') → wf w' ∧ covered w'.
Proof.
  intros Hwf Hloop Hc. unfold runScheduled, runScheduled_via. fold flush.
  munfold.
  destruct (flushRelationships w) as [|g rest] eqn:Hq; simpl.
  { intros [= <-]. done. }
  intros Hrun.
  set (w1 := with_flushRelationships (λ _, rest) w) in *.
  destruct (graphs w1 !! g) as [G|] eqn:HG.
  2:{ by rewrite (flush_dead w1 fuel g HG) in Hrun. }
  assert (Hwf1 : wf w1) by (by apply wf_flushRelationships).
  apply (flush_covered w1 w' fuel g G Hwf1 Hloop HG); [|done].
  intros g' k Hne Hk.
  assert (Hin : g' ∈ flushRelationships w).
  { apply (proj1 (covered_alt w Hwf) Hc g' k). exact Hk. }
  rewrite Hq in Hin. apply elem_of_cons in Hin as [Heq|Hin]; done.
Qed.

(** *** The invariants of every program *)

Lemma graphFor_inRunLoop (w w' : World) s g :
  graphFor s w = Some (g, w') → inRunLoop w' = inRunLoop w.
Proof.
  unfold graphFor, new_Graph, new_Queued, new_Array. munfold.
  destruct (Graphs w !! s); simpl; by intros [= <- <-].
Qed.

Lemma call_covered c (w w' : World) :
  wf w → inRunLoop w = true → covered w → call c w = Some (tt, w') →
  wf w' ∧ covered w'.
Proof.
  intros Hwf Hloop Hc.
  destruct c as [s|s i|s i|s i n p fuel|s i n|s fuel|fuel]; simpl;
    unfold mbind, M_bind.
  - intros (g & w1 & H1 & [= <-])%bind_Some.
    destruct (graphFor_frame w w1 s g Hwf H1) as (Hwf1 & _ & _ & Hu & _).
    eauto using covered_undisturbed.
  - intros (g & w1 & H1 & (c & w2 & H2 & [= <-])%bind_Some)%bind_Some.
    destruct (graphFor_frame w w1 s g Hwf H1)
      as (Hwf1 & (G & HG & _) & _ & Hu1 & _).
    destruct (Graph_get_frame w1 g G i Hwf1 HG)
      as (c' & w2' & E & Hwf2 & Hu2 & _).
    rewrite H2 in E. injection E as <- <-.
    eauto 8 using covered_undisturbed.
  - intros (g & w1 & H1 & (d & w2 & H2 & [= <-])%bind_Some)%bind_Some.
    destruct (graphFor_frame w w1 s g Hwf H1)
      as (Hwf1 & (G & HG & _) & _ & Hu1 & _).
    destruct (Graph_getImplicit_spec w1 g G i Hwf1 HG)
      as (d' & w2' & E & Hwf2 & _).
    rewrite H2 in E. injection E as <- <-.
    pose proof (Graph_getImplicit_undisturbed w1 w2 g G i d HG H2) as Hu2.
    eauto 8 using covered_undisturbed.
  - intros (g & w1 & H1 & H2)%bind_Some.
    destruct (graphFor_frame w w1 s g Hwf H1)
      as (Hwf1 & (G & HG & _) & _ & Hu1 & _).
    assert (Hloop1 : inRunLoop w1 = true).
    { by rewrite (graphFor_inRunLoop _ _ _ _ H1). }
    assert (Hc1 : covered w1) by eauto using covered_undisturbed.
    exact (Graph_push_covered w1 w' fuel g G i n p Hwf1 Hloop1 HG Hc1 H2).
  - intros (r & w1 & H1 & [= <-])%bind_Some.
    destruct (relationshipStateFor_spec w s i n Hwf)
      as (g & r' & w1' & E & Hwf1 & Hu & _).
    rewrite H1 in E. injection E as <- <-.
    eauto using covered_undisturbed.
  - intros (g & w1 & H1 & H2)%bind_Some.
    destruct (graphFor_frame w w1 s g Hwf H1)
      as (Hwf1 & (G & HG & _) & _ & Hu1 & _).
    assert (Hloop1 : inRunLoop w1 = true).
    { by rewrite (graphFor_inRunLoop _ _ _ _ H1). }
    assert (Hc1 : covered w1) by eauto using covered_undisturbed.
    apply (flush_covered w1 w' fuel g G Hwf1 Hloop1 HG); [|done].
    intros g' k _. by apply covered_alt.
  - intros Hrun. exact (runScheduled_covered w w' fuel Hwf Hloop Hc Hrun).
Qed.

Lemma run_covered cs : ∀ (w w' : World),
  wf w → inRunLoop w = true → covered w → run cs w = Some (tt, w') →
  wf w' ∧ covered w'.
Proof.
  induction cs as [|c cs IH]; intros w w' Hwf Hloop Hc.
  { by intros [= <-]. }
  unfold run. simpl. unfold mbind, M_bind.
  intros ([] & w1 & H1 & H2)%bind_Some.
  destruct (call_covered c w w1 Hwf Hloop Hc H1) as (? & ?).
  destruct (call_sound c w w1 Hwf Hloop H1) as (_ & Hext & _).
  apply (IH w1 w'); try done. by rewrite (ext_inRunLoop _ _ Hext).
Qed.

Lemma reachable_covered (w : World) : reachable w → wf w ∧ covered w.
Proof.
  intros [cs Hrun%inRun_init].
  apply (run_covered cs _ w wf_begin eq_refl); [|done].
  intros g G H. simpl in H. by rewrite lookup_empty in H.
Qed.

(** *** Lookups of implicit relationships *)

Lemma implicitOf_mono (w w' : World) g i d :
  grows w w' → implicitOf w g !! i = Some d → implicitOf w' g !! i = Some d.
Proof.
  intros Hext. unfold implicitOf.
  destruct (graphs w !! g) as [G|] eqn:HG; [|by rewrite lookup_empty].
  destruct (grw_graphs _ _ Hext g G HG) as (G' & -> & _ & _ & Hsub).
  intros H. by eapply lookup_weaken.
Qed.

Lemma Graph_getImplicit_cached (w : World) g i d :
  implicitOf w g !! i = Some d → Graph_getImplicit g i w = Some (d, w).
Proof.
  unfold implicitOf, Graph_getImplicit, this. munfold.
  destruct (graphs w !! g) as [G|]; [|by rewrite lookup_empty].
  simpl. by intros ->.
Qed.

(** X1. [Graph.getImplicit] creates the dictionary of an identifier on the
    first call, empty, and changes nothing when the identifier has one.  From
    then on, whatever the program does in between, inside a run loop or with
    none open, a call returns that same dictionary and leaves the store as it
    is, and no other identifier and no other graph is ever given the same
    dictionary. *)
Theorem getImplicit_creates_once_and_caches (w : World) s g i :
  produced w → Graphs w !! s = Some g →
  ∃ d w1, Graph_getImplicit g i w = Some (d, w1)
    ∧ (implicitOf w g !! i = None →
         dicts w !! d = None ∧ dicts w1 !! d = Some ∅)
    ∧ (∀ d0, implicitOf w g !! i = Some d0 → d = d0 ∧ w1 = w)
    ∧ implicitOf w1 g !! i = Some d
    ∧ (∀ ss w2, steps ss w1 = Some (tt, w2) →
         Graph_getImplicit g i w2 = Some (d, w2))
    ∧ (∀ ss w2 g' j w3, steps ss w1 = Some (tt, w2) →
         Graph_getImplicit g' j w2 = Some (d, w3) → g' = g ∧ j = i).
Proof.
  intros [Hwf Hok]%produced_sane Hs.
  destruct (wf_Graphs _ _ _ Hwf s g Hs) as (G & HG & _).
  destruct (Graph_getImplicit_frame w g G i Hwf Hok HG)
    as (d & w1 & E & Hwf1 & Hok1 & Hu1 & _ & _ & _ & Hd & Hcase).
  assert (Hlater : ∀ ss w2, steps ss w1 = Some (tt, w2) →
            wf_upto false w2 ∧ implicitOk w2 ∧ implicitOf w2 g !! i = Some d).
  { intros ss w2 Hrun.
    destruct (steps_sane ss w1 w2 Hwf1 Hrun) as (? & Hext & ?).
    eauto using implicitOf_mono. }
  exists d, w1. split_and!; try done.
  - intros Hnone. destruct Hcase as [[Hsome _]|(_ & Hnew & Hdicts & _)].
    + congruence.
    + split; [done|]. by rewrite Hdicts, lookup_insert_eq.
  - intros d0 Hsome. destruct Hcase as [[Hsome' ->]|(Hnone & _)]; [|congruence].
    split; congruence.
  - intros ss w2 Hrun. destruct (Hlater ss w2 Hrun) as (_ & _ & H2).
    by apply Graph_getImplicit_cached.
  - intros ss w2 g' j w3 Hrun Hget.
    destruct (Hlater ss w2 Hrun) as (Hwf2 & Hok2 & H2).
    destruct (graphs w2 !! g') as [G'|] eqn:HG'.
    2:{ revert Hget. unfold Graph_getImplicit, this. munfold. by rewrite HG'. }
    destruct (Graph_getImplicit_frame w2 g' G' j Hwf2 Hok2 HG')
      as (d' & w3' & E' & _ & _ & _ & _ & _ & _ & _ & Hcase').
    rewrite Hget in E'. injection E' as <- <-.
    destruct Hcase' as [[Hsome _]|(_ & Hnew & _)].
    + apply (implicit_inj _ Hok2 _ _ _ _ _ Hsome H2).
    + apply (implicit_live _ Hok2) in H2. rewrite Hnew in H2. by destruct H2.
Qed.

(** X2. [implicitRelationshipsFor] and [implicitRelationshipStateFor] always
    return, inside a run loop or with none open: the former gives the
    dictionary of the identifier in the graph of the store wrapper and gives
    it again when asked again, the latter the entry of that dictionary under
    the property name, which is [undefined] for an identifier that had no
    dictionary.  Neither queues, applies nor schedules an update. *)
Theorem implicit_lookups_read_the_dictionary (w : World) s i n :
  produced w →
  ∃ g d D w1, implicitRelationshipsFor s i w = Some (d, w1)
    ∧ implicitRelationshipStateFor s i n w = Some (D !! n, w1)
    ∧ Graphs w1 !! s = Some g ∧ implicitOf w1 g !! i = Some d
    ∧ dicts w1 !! d = Some D
    ∧ (implicitOf w g !! i = None → D !! n = None)
    ∧ undisturbed w w1
    ∧ implicitRelationshipsFor s i w1 = Some (d, w1).
Proof.
  intros [Hwf Hok]%produced_sane.
  destruct (graphFor_spec w s Hwf) as (g & w0 & E0 & _).
  destruct (graphFor_frame w w0 s g Hwf E0)
    as (Hwf0 & (G & HG & _) & Hs0 & Hu0 & Hi0 & _).
  assert (Hok0 : implicitOk w0) by eauto using implicitOk_same.
  destruct (Graph_getImplicit_frame w0 g G i Hwf0 Hok0 HG)
    as (d & w1 & E1 & Hwf1 & Hok1 & Hu1 & HGs1 & _ & _ & Hd & Hcase).
  destruct (implicit_live _ Hok1 g i d Hd) as [D HD].
  assert (Hfor : implicitRelationshipsFor s i w = Some (d, w1)).
  { unfold implicitRelationshipsFor. munfold. by rewrite E0. }
  assert (Hs1 : Graphs w1 !! s = Some g) by (by rewrite HGs1).
  exists g, d, D, w1. split_and!; try done.
  - unfold implicitRelationshipStateFor. munfold. rewrite Hfor. simpl.
    by rewrite HD.
  - intros Hnone. rewrite <- (proj2 Hi0 g) in Hnone.
    destruct Hcase as [[Hsome _]|(_ & _ & Hdicts & _)]; [congruence|].
    rewrite Hdicts, lookup_insert_eq in HD. by injection HD as <-.
  - by eapply undisturbed_trans.
  - unfold implicitRelationshipsFor. munfold.
    rewrite (graphFor_cached w1 s g Hs1). simpl.
    by apply Graph_getImplicit_cached.
Qed.

(** *** Lookups of relationships *)

Lemma relationshipStateFor_cached (w : World) s g i n r :
  Graphs w !! s = Some g → lookupRelationship w g i n = Some r →
  relationshipStateFor s i n w = Some (r, w).
Proof.
  intros Hs. unfold lookupRelationship.
  destruct (graphs w !! g) as [G|] eqn:HG; simpl; [|done].
  destruct (identifiers G !! i) as [c|] eqn:Hi; simpl; [|done].
  destruct (containers w !! c) as [C|] eqn:HC; simpl; [|done].
  intros Hn. unfold relationshipStateFor, relationshipsFor. munfold.
  rewrite (graphFor_cached w s g Hs). simpl.
  rewrite (Graph_get_cached w g G i c HG Hi). simpl.
  unfold Relationships_get. munfold. rewrite HC. simpl.
  by rewrite Hn.
Qed.

Lemma relationshipsFor_extends {b} (w w' : World) s i c :
  wf_upto b w → relationshipsFor s i w = Some (c, w') → extends w w'.
Proof.
  intros Hwf. unfold relationshipsFor. unfold mbind, M_bind.
  intros (g & w1 & H1 & H2)%bind_Some.
  destruct (graphFor_spec w s Hwf) as (g0 & w0 & E & Hwf1 & Hext1 & _ & Hs & _).
  rewrite H1 in E. injection E as <- <-.
  destruct (wf_Graphs _ _ _ Hwf1 s g Hs) as (G & HG & _).
  destruct (Graph_get_spec w1 g G i Hwf1 HG) as (c0 & w2 & E & _ & Hext2 & _).
  rewrite H2 in E. injection E as <- <-.
  by eapply extends_trans.
Qed.

(** X3. [relationshipStateFor] always returns, inside a run loop or with
    none open, and asked again it returns the same relationship and changes
    nothing.  The lookup neither queues,
    applies nor schedules an update: logs, run loop queue, the queues and
    flags of all graphs, the state of the relationships that existed and the
    implicit relationships are as before, and the relationship returned has
    been handed no payload that it had not been handed before. *)
Theorem lookups_leave_batches_alone (w : World) s i n :
  produced w →
  ∃ r w1, relationshipStateFor s i n w = Some (r, w1)
    ∧ undisturbed w w1 ∧ sameImplicit w w1
    ∧ pushedTo w1 r = pushedTo w r
    ∧ relationshipStateFor s i n w1 = Some (r, w1).
Proof.
  intros [Hwf _]%produced_sane.
  destruct (relationshipStateFor_spec w s i n Hwf)
    as (g & r & w1 & E & Hwf1 & Hu & Hi & Hs & _ & Hl).
  exists r, w1. split_and!; try done.
  - by rewrite (wf_log _ _ _ Hwf1), (wf_log _ _ _ Hwf), (und_applied _ _ Hu).
  - by eapply relationshipStateFor_cached.
Qed.

(** X4. [relationshipsFor] gives every pair of a store wrapper and an
    identifier a container of its own: two calls in a row, inside a run loop
    or with none open, return the same container exactly when they are for
    the same store wrapper and the same identifier. *)
Theorem relationshipsFor_one_container_per_identifier (w : World) s i s' i' :
  produced w →
  ∃ c w1 c' w2, relationshipsFor s i w = Some (c, w1)
    ∧ relationshipsFor s' i' w1 = Some (c', w2)
    ∧ (c = c' ↔ s = s' ∧ i = i').
Proof.
  intros [Hwf _]%produced_sane.
  destruct (relationshipsFor_spec w s i Hwf)
    as (g & c & w1 & E1 & Hwf1 & _ & _ & Hs1 & _ & G1 & C1 & HG1 & Hst1 & Hid1
        & HC1 & HCg1 & HCi1).
  destruct (relationshipsFor_spec w1 s' i' Hwf1)
    as (g' & c' & w2 & E2 & Hwf2 & _ & _ & Hs2 & Hg0 & G2 & C2 & HG2 & Hst2
        & Hid2 & HC2 & HCg2 & HCi2).
  pose proof (relationshipsFor_extends w1 w2 s' i' c' Hwf1 E2) as Hext.
  exists c, w1, c', w2. split_and!; [done..|]. split.
  - intros <-.
    destruct (ext_containers _ _ Hext c C1 HC1) as (C' & HC' & HCg' & HCi' & _).
    assert (C' = C2) as -> by congruence.
    assert (g' = g) as -> by congruence.
    destruct (ext_graphs _ _ Hext g G1 HG1) as (G' & HG' & Hst' & _).
    assert (G' = G2) as -> by congruence.
    split; congruence.
  - intros [<- <-]. assert (g = g') as <- by (by apply Hg0).
    destruct (ext_graphs _ _ Hext g G1 HG1) as (G' & HG' & _ & Hsub & _).
    assert (G' = G2) as -> by congruence.
    pose proof (lookup_weaken _ _ _ _ Hid1 Hsub) as Hid. congruence.
Qed.

(** What a burst of pushes adds to a queue is no longer than the burst. *)
Lemma pushAll_queued_length (w w1 : World) g k reqs evs :
  delta [] evs w w1 → Forall2 (pushed w1 g) reqs evs →
  length (queued w1 g k) ≤ length (queued w g k) + length reqs.
Proof.
  intros Hd Hall. rewrite (d_queued _ _ _ _ Hd), length_app.
  rewrite (Forall2_length _ _ _ Hall).
  pose proof (eventsOf_length g k evs). lia.
Qed.

(** *** The earlier calling convention *)

(** X6. The earlier revision called without a property name (the third
    argument missing, [null] or the empty string) takes its second argument
    as the property name and reads store wrapper and identifier off the
    [_internalModel] of its first argument: it then does what the later
    revision does on those three.  [relationshipsFor] without an identifier
    likewise. *)
Theorem legacy_call_reads_internal_model
    (_internalModel : Ref → option InternalModel) (upgradeForInternal : Ref → Ref)
    (w : World) recordData internalModel propertyName missing :
  _internalModel recordData = Some internalModel → truthy missing = false →
  legacy_relationshipStateFor relationshipKind _internalModel
      upgradeForInternal recordData (VString propertyName) missing w
    = relationshipStateFor
        (upgradeForInternal (im_storeWrapper internalModel))
        (im_identifier internalModel) propertyName w
  ∧ legacy_relationshipsFor _internalModel upgradeForInternal
      recordData missing w
    = relationshipsFor (upgradeForInternal (im_storeWrapper internalModel))
        (im_identifier internalModel) w.
Proof.
  intros Him Hmissing.
  unfold legacy_relationshipStateFor, legacy_relationshipsFor, internalModelOf,
    relationshipStateFor, relationshipsFor.
  rewrite Hmissing, Him. simpl. munfold. simpl. split; reflexivity.
Qed.

(** *** The order of a flush *)

Lemma ofKind_cons k g k' r (p : JsonApiRelationship) evs :
  ofKind k ((g, k', r, p) :: evs) =
  if decide (k' = k) then (r, p) :: ofKind k evs else ofKind k evs.
Proof. unfold ofKind. simpl. by case_decide. Qed.

Lemma eventsOf_pushed (w : World) g k reqs evs :
  Forall2 (pushed w g) reqs evs → eventsOf g k evs = ofKind k evs.
Proof.
  intros Hall.
  induction Hall as [|[[i n] p] [[[g' k'] r] p'] reqs evs Hp _ IH]; [done|].
  destruct Hp as (-> & _). rewrite eventsOf_cons, ofKind_cons, <- IH.
  destruct (decide (k' = k)) as [->|Hne].
  - by rewrite decide_True.
  - rewrite decide_False; [done|]. by intros [_ ?].
Qed.

(** X8. A flush applies the updates of a batch in two runs: what was queued
    for to-many relationships, then what was queued for to-one relationships,
    each run in the order of the pushes.  So after a burst of pushes made
    while a run loop is open, in the store of any program, the flush applies
    the to-many updates of the burst before its to-one updates wherever they
    stood in the burst. *)
Theorem flush_applies_to_many_then_to_one (w : World) g G reqs fuel :
  produced w → inRunLoop w = true → graphs w !! g = Some G →
  length (queued w g HasMany) + length reqs < fuel →
  length (queued w g BelongsTo) + length reqs < fuel →
  ∃ evs w1 w2, pushAll fuel g reqs w = Some (tt, w1)
    ∧ enqueued w1 = enqueued w ++ evs
    ∧ Forall2 (pushed w1 g) reqs evs
    ∧ flush fuel g w1 = Some (tt, w2)
    ∧ applied w2 =
        applied w ++ (queued w g HasMany ++ ofKind HasMany evs)
                  ++ (queued w g BelongsTo ++ ofKind BelongsTo evs).
Proof.
  intros [Hwf _]%produced_sane Hloop HG Hf1 Hf2.
  destruct (pushAll_spec reqs fuel w g G Hwf HG (λ _, or_introl Hloop))
    as (evs & w1 & E1 & Hwf1 & Hext & Hd & _ & _ & Hall & _ & G1 & HG1 & _).
  pose proof (pushAll_queued_length w w1 g HasMany reqs evs Hd Hall).
  pose proof (pushAll_queued_length w w1 g BelongsTo reqs evs Hd Hall).
  destruct (flush_spec w1 fuel g G1 Hwf1 HG1)
    as (evs' & w2 & E2 & _ & _ & Ha & _); [lia..| |].
  { intros _. left. by rewrite (ext_inRunLoop _ _ Hext). }
  exists evs, w1, w2. split_and!; [done|apply (d_enqueued _ _ _ _ Hd)|done..|].
  rewrite Ha, (d_applied _ _ _ _ Hd), app_nil_r, !(d_queued _ _ _ _ Hd).
  by rewrite !(eventsOf_pushed w1 g _ reqs evs Hall).
Qed.

(** *** Queues, flags and the schedule in every store *)

(** X9. No update is stranded inside a run loop: in the store of any
    program that runs in an open run loop, direct calls of [flush] included,
    a graph with an update in one of its queues has [_nextFlush] set and its
    flush in the run loop's queue. *)
Theorem queued_update_has_flush_scheduled (w : World) g k :
  reachable w → queued w g k ≠ [] →
  g ∈ flushRelationships w
  ∧ ∃ G, graphs w !! g = Some G ∧ _nextFlush G = true.
Proof.
  intros (Hwf & Hc)%reachable_covered Hq. split.
  - by apply (proj1 (covered_alt w Hwf) Hc g k).
  - destruct (graphs w !! g) as [G|] eqn:HG.
    + exists G. split; [done|].
      apply (nextFlush_iff_queued w g G Hwf HG). eauto.
    + by rewrite queued_dead in Hq.
Qed.

(** X10. In the store of any program that runs in an open run loop
    [_nextFlush] is set exactly while an update waits in one of the two
    queues of the graph. *)
Theorem nextFlush_set_while_queued (w : World) g G :
  reachable w → graphs w !! g = Some G →
  (_nextFlush G = true ↔ queued w g HasMany ≠ [] ∨ queued w g BelongsTo ≠ []).
Proof.
  intros Hwf%reachable_wf HG.
  rewrite (nextFlush_iff_queued w g G Hwf HG). split.
  - intros [[] Hk]; auto.
  - intros [H|H]; eauto.
Qed.

(** X11. In the store of any program, run inside a run loop or with none
    open, each queue of a graph is an array of (relationship, payload) pairs
    in which every relationship exists, is of the kind of the queue and
    belongs to the graph; and no two queues, of one graph or of two, are the
    same array. *)
Theorem queues_hold_pairs_of_their_kind (w : World) g G k :
  produced w → graphs w !! g = Some G →
  (∃ ps, arrays w !! queue_of (_queued G) k = Some (slots ps)
         ∧ queued w g k = ps
         ∧ Forall (λ rp, ∃ R, relationships w !! rp.1 = Some R
                              ∧ kind R = k ∧ rel_graph R = g) ps)
  ∧ ∀ g' G' k', graphs w !! g' = Some G' →
      queue_of (_queued G') k' = queue_of (_queued G) k → g' = g ∧ k' = k.
Proof.
  intros [Hwf _]%produced_sane HG. split.
  - destruct (wf_queue _ _ _ Hwf g G k HG) as (ps & Hps & Hall).
    exists ps. split_and!; [done|by eapply queued_lookup|exact Hall].
  - intros g' G' k' HG' Heq.
    apply (wf_queue_inj _ _ _ Hwf _ _ _ _ _ _ HG' HG Heq).
Qed.

Lemma nextFlush_same (w w' : World) g G G' :
  wf w → wf w' → graphs w !! g = Some G → graphs w' !! g = Some G' →
  (∀ k, queued w' g k = queued w g k) → _nextFlush G' = _nextFlush G.
Proof.
  intros Hwf Hwf' HG HG' Hq.
  pose proof (nextFlush_iff_queued w g G Hwf HG) as H1.
  pose proof (nextFlush_iff_queued w' g G' Hwf' HG') as H2.
  destruct (_nextFlush G) eqn:E.
  - apply H2. destruct (proj1 H1 eq_refl) as [k Hk]. exists k. by rewrite Hq.
  - destruct (_nextFlush G') eqn:E'; [|done].
    destruct (proj1 H2 eq_refl) as [k Hk]. rewrite Hq in Hk.
    symmetry. apply H1. eauto.
Qed.

Lemma Graph_get_others (w w' : World) g G i c g' :
  graphs w !! g = Some G → g' ≠ g → Graph_get g i w = Some (c, w') →
  graphs w' !! g' = graphs w !! g'
  ∧ ∃ G', graphs w' !! g = Some G' ∧ _nextFlush G' = _nextFlush G.
Proof.
  intros HG Hne. unfold Graph_get, this, assign, this, new_Relationships.
  munfold. rewrite HG. simpl.
  destruct (identifiers G !! i); simpl.
  { intros [= <- <-]. eauto. }
  rewrite HG. simpl. intros [= <- <-]. simpl.
  rewrite lookup_insert_ne by done. rewrite lookup_insert_eq. eauto.
Qed.

Lemma Relationships_get_graphs (w w' : World) c n r :
  Relationships_get c n w = Some (r, w') → graphs w' = graphs w.
Proof.
  unfold Relationships_get. munfold.
  destruct (containers w !! c) as [C|]; [|done]. simpl.
  destruct (initializedRelationships C !! n); simpl; by intros [= <- <-].
Qed.

(** A push that runs no flush writes to no graph but its own. *)
Lemma Graph_push_others (w w' : World) fuel g G i n p g' :
  graphs w !! g = Some G → inRunLoop w = true ∨ _nextFlush G = true →
  g' ≠ g → Graph_push fuel g i n p w = Some (tt, w') →
  graphs w' !! g' = graphs w !! g'.
Proof.
  intros HG Hopen Hne. rewrite Graph_push_eq. unfold this.
  intros (c & w1 & H1 & Ha)%bind_Some.
  apply bind_Some in Ha as (r & w2 & H2 & Hb).
  apply bind_Some in Hb as (R & w3 & [HR ->]%deref_Some & Hc).
  apply bind_Some in Hc as (G2 & w4 & [HG2 ->]%deref_Some & Hd).
  apply bind_Some in Hd as (u5 & w5 & H5 & He). destruct u5.
  apply bind_Some in He as (u6 & w6 & [= <- <-] & H).
  destruct (Graph_get_others _ _ _ _ _ _ _ HG Hne H1) as (E1 & G1 & HG1 & HF1).
  pose proof (Relationships_get_graphs _ _ _ _ _ H2) as E2.
  pose proof (Graph_get_inRunLoop _ _ _ _ _ H1) as L1.
  pose proof (Relationships_get_inRunLoop _ _ _ _ _ H2) as L2.
  assert (G2 = G1) as -> by (rewrite E2 in HG2; congruence).
  revert H5. unfold Array_push. munfold.
  destruct (arrays w2 !! _) as [old|]; [|done]. simpl. intros [= <-].
  revert H. unfold join, schedule, assign, this. munfold. simpl.
  destruct (_nextFlush G1) eqn:HF; simpl.
  { intros [= <-]. simpl. by rewrite E2. }
  assert (Hloop : inRunLoop w2 = true).
  { destruct Hopen as [?|?]; congruence. }
  rewrite Hloop. simpl. rewrite HG2. simpl. intros [= <-]. simpl.
  rewrite lookup_insert_ne by done. by rewrite E2.
Qed.

(** X12. In the store of any program a push that runs no flush (a run loop
    is open, or a flush of the graph is marked as pending) changes one queue:
    the update goes to the end of the queue that its graph has for the kind
    of the relationship, and the other queue of the graph, the queues and
    flags of all other graphs and the updates applied so far are as
    before. *)
Theorem push_changes_one_queue (w : World) fuel g G i n p :
  produced w → graphs w !! g = Some G →
  inRunLoop w = true ∨ _nextFlush G = true →
  ∃ r w1, Graph_push fuel g i n p w = Some (tt, w1)
    ∧ lookupRelationship w1 g i n = Some r
    ∧ queued w1 g (relationshipKind i n) =
        queued w g (relationshipKind i n) ++ [(r, p)]
    ∧ (∀ g' k, (g', k) ≠ (g, relationshipKind i n) →
         queued w1 g' k = queued w g' k)
    ∧ (∀ g' G', g' ≠ g → graphs w !! g' = Some G' →
         ∃ G1, graphs w1 !! g' = Some G1 ∧ _nextFlush G1 = _nextFlush G'
               ∧ _queued G1 = _queued G')
    ∧ applied w1 = applied w.
Proof.
  intros [Hwf _]%produced_sane HG Hopen.
  destruct (Graph_push_spec w fuel g G i n p Hwf HG Hopen)
    as (r & w1 & E & Hwf1 & Hext & Hd & _ & _ & Hl & _).
  exists r, w1. split_and!; [done..| | | |].
  - rewrite (d_queued _ _ _ _ Hd), eventsOf_cons. by rewrite decide_True.
  - intros g' k Hne. rewrite (d_queued _ _ _ _ Hd), eventsOf_cons.
    rewrite decide_False by (intros [? ?]; apply Hne; congruence).
    by rewrite app_nil_r.
  - intros g' G' Hne HG'. exists G'.
    by rewrite (Graph_push_others w w1 fuel g G i n p g' HG Hopen Hne E).
  - by rewrite (d_applied _ _ _ _ Hd), app_nil_r.
Qed.

(** X13. Inside a run loop a flush stays within its graph, also when the
    relationships it updates push again: in the store of any program that
    runs in an open run loop the flush returns, the queues and flags of every
    other graph are as before, no flush of another graph is scheduled or
    taken off the run loop's queue, and the map from store wrappers to graphs
    is unchanged. *)
Theorem flush_leaves_other_graphs_alone (w : World) s g fuel :
  reachable w → Graphs w !! s = Some g →
  length (queued w g HasMany) < fuel → length (queued w g BelongsTo) < fuel →
  ∃ w1, flush fuel g w = Some (tt, w1)
    ∧ (∀ g' k, g' ≠ g → queued w1 g' k = queued w g' k)
    ∧ (∀ g' G', g' ≠ g → graphs w !! g' = Some G' →
         ∃ G1, graphs w1 !! g' = Some G1 ∧ _nextFlush G1 = _nextFlush G')
    ∧ (∀ g', g' ≠ g →
         filter (λ x, x = g') (flushRelationships w1) =
         filter (λ x, x = g') (flushRelationships w))
    ∧ Graphs w1 = Graphs w.
Proof.
  intros Hreach Hs Hf1 Hf2.
  pose proof (reachable_wf w Hreach) as Hwf.
  pose proof (reachable_inRunLoop w Hreach) as Hloop.
  destruct (wf_Graphs _ _ _ Hwf s g Hs) as (G & HG & _).
  destruct (flush_spec w fuel g G Hwf HG Hf1 Hf2 (λ _, or_introl Hloop))
    as (evs & w1 & E & Hwf1 & Hext & _).
  destruct (flush_inv w w1 fuel g G Hwf HG (or_introl Hloop) E)
    as (evs' & _ & _ & _ & _ & Hq' & _ & HGs & _ & Hsched).
  exists w1. split_and!; [done..| | |done].
  - intros g' G' Hne HG'.
    destruct (ext_graphs _ _ Hext g' G' HG') as (G1 & HG1 & _).
    exists G1. split; [done|].
    apply (nextFlush_same w w1 g' G' G1); try done.
    intros k. by apply Hq'.
  - intros g' Hne. rewrite Hsched, filter_app.
    case_bool_decide; [by rewrite app_nil_r|].
    rewrite filter_cons_False by done. by rewrite app_nil_r.
Qed.

(** *** New graphs, and pushes after a lookup *)

(** X14. [graphFor] always returns, inside a run loop or with none open, a
    graph whose [storeWrapper] is its argument, and disturbs no queue, flag,
    log or schedule.  For a store
    wrapper without a graph the graph is a new object that starts idle:
    [_nextFlush] unset, both queues empty, no identifier known and no
    implicit relationship; the graphs that existed are as they were. *)
Theorem graphFor_creates_idle_graph (w : World) s :
  produced w →
  ∃ g G w1, graphFor s w = Some (g, w1)
    ∧ graphs w1 !! g = Some G ∧ storeWrapper G = s
    ∧ undisturbed w w1
    ∧ (∀ g' G', graphs w !! g' = Some G' → graphs w1 !! g' = Some G')
    ∧ (Graphs w !! s = None →
         graphs w !! g = None
         ∧ observeGraph w1 g = Some (false, ∅, ∅, s)
         ∧ (∀ k, queued w1 g k = [])
         ∧ (∀ i n, lookupRelationship w1 g i n = None)).
Proof.
  intros [Hwf _]%produced_sane.
  destruct (graphFor_spec w s Hwf) as (g & w1 & E & _).
  destruct (graphFor_frame w w1 s g Hwf E)
    as (Hwf1 & (G & HG & Hst) & Hs1 & Hu & _).
  assert (Hnone : graphs w !! next_ref w = None).
  { apply eq_None_not_Some. intros H%(fresh_graphs _ (wf_fresh _ _ _ Hwf)). lia. }
  exists g, G, w1. split_and!; try done.
  - intros g' G' HG'. destruct (Graphs w !! s) as [g0|] eqn:HGs.
    + rewrite (graphFor_cached w s g0 HGs) in E. by injection E as <- <-.
    + destruct (graphFor_new w s HGs) as (w0 & E0 & _ & Hg & _).
      rewrite E in E0. injection E0 as -> <-. rewrite Hg.
      rewrite lookup_insert_ne; [done|]. intros <-. congruence.
  - intros HGs.
    destruct (graphFor_new w s HGs) as (w0 & E0 & _ & Hg & Ha & _).
    rewrite E in E0. injection E0 as -> <-.
    split_and!; [done| | |].
    + unfold observeGraph. by rewrite Hg, lookup_insert_eq.
    + intros k. rewrite (und_queued _ _ Hu). by apply queued_dead.
    + intros i n. unfold lookupRelationship. rewrite Hg, lookup_insert_eq.
      simpl. by rewrite lookup_empty.
Qed.

(** A push for a relationship that exists creates no object. *)
Lemma Graph_push_known (w w' : World) fuel g i n p r :
  inRunLoop w = true →
  lookupRelationship w g i n = Some r →
  Graph_push fuel g i n p w = Some (tt, w') →
  containers w' = containers w ∧ relationships w' = relationships w
  ∧ dicts w' = dicts w ∧ next_ref w' = next_ref w.
Proof.
  intros Hloop. unfold lookupRelationship.
  destruct (graphs w !! g) as [G|] eqn:HG; simpl; [|done].
  destruct (identifiers G !! i) as [c|] eqn:Hi; simpl; [|done].
  destruct (containers w !! c) as [C|] eqn:HC; simpl; [|done].
  intros Hn. rewrite Graph_push_eq.
  unfold join, this, Array_push, schedule, assign, this.
  munfold. rewrite (Graph_get_cached w g G i c HG Hi). simpl.
  unfold Relationships_get. munfold. rewrite HC. simpl. rewrite Hn. simpl.
  destruct (relationships w !! r) as [R|]; [|done]. simpl. rewrite HG. simpl.
  destruct (arrays w !! _) as [old|]; [|done]. simpl.
  destruct (_nextFlush G); simpl.
  - by intros [= <-].
  - rewrite Hloop. simpl. rewrite HG. simpl. by intros [= <-].
Qed.

(** X15. The relationship that [relationshipStateFor] returns for a store
    wrapper, an identifier and a property name is the one that a push on the
    graph of that store wrapper, made while a run loop is open, then queues
    its payload for, in the store of any program; after the lookup the push
    creates no object, and the lookup still returns the same relationship
    after the push. *)
Theorem push_targets_the_looked_up_relationship (w : World) fuel s i n p :
  produced w → inRunLoop w = true →
  ∃ g r w1 w2, relationshipStateFor s i n w = Some (r, w1)
    ∧ Graphs w1 !! s = Some g
    ∧ Graph_push fuel g i n p w1 = Some (tt, w2)
    ∧ enqueued w2 = enqueued w1 ++ [(g, relationshipKind i n, r, p)]
    ∧ queued w2 g (relationshipKind i n) =
        queued w1 g (relationshipKind i n) ++ [(r, p)]
    ∧ containers w2 = containers w1 ∧ relationships w2 = relationships w1
    ∧ next_ref w2 = next_ref w1
    ∧ relationshipStateFor s i n w2 = Some (r, w2).
Proof.
  intros [Hwf _]%produced_sane Hloop.
  destruct (relationshipStateFor_spec w s i n Hwf)
    as (g & r & w1 & E1 & Hwf1 & _ & _ & Hs1 & _ & Hl1).
  assert (Hloop1 : inRunLoop w1 = true).
  { revert E1. unfold relationshipStateFor, relationshipsFor.
    unfold mbind, M_bind.
    intros (c & w0 & (g0 & w00 & H1 & H2)%bind_Some & H3)%bind_Some.
    rewrite (Relationships_get_inRunLoop _ _ _ _ _ H3).
    rewrite (Graph_get_inRunLoop _ _ _ _ _ H2).
    by rewrite (graphFor_inRunLoop _ _ _ _ H1). }
  destruct (wf_Graphs _ _ _ Hwf1 s g Hs1) as (G & HG & _).
  destruct (Graph_push_spec w1 fuel g G i n p Hwf1 HG (or_introl Hloop1))
    as (r' & w2 & E2 & Hwf2 & Hext & Hd & _ & _ & Hl2 & _).
  pose proof (lookupRelationship_mono w1 w2 g i n r Hext Hl1) as Hl.
  assert (r' = r) as -> by congruence.
  destruct (Graph_push_known w1 w2 fuel g i n p r Hloop1 Hl1 E2)
    as (Hc & Hr & _ & Hn).
  exists g, r, w1, w2. split_and!; try done.
  - apply (d_enqueued _ _ _ _ Hd).
  - rewrite (d_queued _ _ _ _ Hd), eventsOf_cons. by rewrite decide_True.
  - apply (relationshipStateFor_cached w2 s g i n r); [|done].
    by apply (ext_Graphs _ _ Hext).
Qed.

(** *** Conservation of updates *)

Lemma updates_app
    (e1 e2 : list (Ref * RelationshipKind * Ref * JsonApiRelationship)) :
  updates (e1 ++ e2) = updates e1 ++ updates e2.
Proof. unfold updates. apply fmap_app. Qed.

Lemma updates_cons g k r (p : JsonApiRelationship) evs :
  updates ((g, k, r, p) :: evs) = (r, p) :: updates evs.
Proof. reflexivity. Qed.

Lemma eventsOf_tail g k e
    (evs : list (Ref * RelationshipKind * Ref * JsonApiRelationship)) rp :
  rp ∈ eventsOf g k evs → rp ∈ eventsOf g k (e :: evs).
Proof.
  destruct e as [[[g0 k0] r0] p0]. rewrite eventsOf_cons.
  case_decide; [|done]. intros Hin. by apply elem_of_cons; right.
Qed.

(** The recorded pushes for a relationship are on its graph and of its
    kind when every recorded push is for a relationship of its queue. *)
Lemma updates_target (w : World) r evs :
  (∀ g k rp, rp ∈ eventsOf g k evs → entryOf w g k rp) →
  match relationships w !! r with
  | Some R =>
      payloadsFor r (updates evs) =
      payloadsFor r (eventsOf (rel_graph R) (kind R) evs)
  | None => payloadsFor r (updates evs) = []
  end.
Proof.
  induction evs as [|[[[g0 k0] r0] p0] evs IH]; intros H.
  { by destruct (relationships w !! r). }
  assert (IH' := IH (λ g k rp Hin, H g k rp (eventsOf_tail g k _ evs rp Hin))).
  assert (Hin : (r0, p0) ∈ eventsOf g0 k0 ((g0, k0, r0, p0) :: evs)).
  { rewrite eventsOf_cons, decide_True by done. by apply elem_of_cons; left. }
  destruct (H g0 k0 (r0, p0) Hin) as (R0 & HR0 & Hk0 & Hg0).
  simpl in HR0. rewrite updates_cons, payloadsFor_cons.
  destruct (relationships w !! r) as [R|] eqn:HR.
  - rewrite eventsOf_cons. destruct (decide (r0 = r)) as [->|Hne].
    + assert (R0 = R) as -> by congruence.
      rewrite decide_True by done.
      rewrite payloadsFor_cons, decide_True by done. by rewrite IH'.
    + case_decide; [|done]. by rewrite payloadsFor_cons, decide_False.
  - rewrite decide_False; [done|]. intros ->. congruence.
Qed.

Lemma waiting_alt (w : World) r g k :
  wf w →
  (∀ R, relationships w !! r = Some R → rel_graph R = g ∧ kind R = k) →
  waiting w r = payloadsFor r (queued w g k).
Proof.
  intros Hwf H. unfold waiting.
  destruct (relationships w !! r) as [R|] eqn:HR.
  - by destruct (H R eq_refl) as [-> ->].
  - symmetry. apply payloadsFor_none.
    eapply Forall_impl; [exact (queued_inv w g k Hwf)|].
    intros rp (R' & HR' & _) Heq. rewrite Heq in HR'. congruence.
Qed.

(** What waits for a relationship waits in the queue of its kind. *)
Lemma pending_waiting (w : World) g r :
  wf w → (∀ R, relationships w !! r = Some R → rel_graph R = g) →
  pending w g r = waiting w r.
Proof.
  intros Hwf H. unfold pending. rewrite payloadsFor_app.
  destruct (relationships w !! r) as [R|] eqn:HR.
  - pose proof (H R eq_refl) as Hg.
    rewrite (waiting_alt w r g (kind R) Hwf) by (intros R'; split; congruence).
    destruct (kind R) eqn:Hk.
    + rewrite (payloadsFor_other_kind w g HasMany r R Hwf HR) by congruence.
      done.
    + rewrite (payloadsFor_other_kind w g BelongsTo r R Hwf HR) by congruence.
      by rewrite app_nil_r.
  - rewrite <- (waiting_alt w r g HasMany Hwf) by congruence.
    rewrite <- (waiting_alt w r g BelongsTo Hwf) by congruence.
    unfold waiting. by rewrite HR.
Qed.

(** No update for a relationship waits on another graph than its own. *)
Lemma pending_foreign (w : World) g r R :
  wf w → relationships w !! r = Some R → rel_graph R ≠ g → pending w g r = [].
Proof.
  intros Hwf HR Hne. unfold pending. apply payloadsFor_none.
  apply Forall_app. split.
  all: eapply Forall_impl; [exact (queued_inv w g _ Hwf)|].
  all: intros rp (R' & HR' & _ & Hg') Heq; rewrite Heq in HR'; congruence.
Qed.

(** A step that applies nothing and queues the pushes [evs]. *)
Lemma conserved_grow (w w' : World) evs :
  wf w → wf w' → conserved w →
  applied w' = applied w → enqueued w' = enqueued w ++ evs →
  (∀ g k, queued w' g k = queued w g k ++ eventsOf g k evs) →
  (∀ r R, relationships w !! r = Some R →
     ∃ R', relationships w' !! r = Some R' ∧ kind R' = kind R
           ∧ rel_graph R' = rel_graph R) →
  conserved w'.
Proof.
  intros Hwf Hwf' Hc Ha He Hq Hr r. unfold enqueuedFor.
  rewrite He, updates_app, payloadsFor_app. fold (enqueuedFor w r).
  rewrite (Hc r), <- app_assoc. f_equal.
  { by rewrite (wf_log _ _ _ Hwf'), (wf_log _ _ _ Hwf), Ha. }
  assert (Hin : ∀ g k rp, rp ∈ eventsOf g k evs → entryOf w' g k rp).
  { intros g k rp H. apply (proj1 (Forall_forall _ _) (queued_inv w' g k Hwf')).
    rewrite Hq. apply elem_of_app. by right. }
  pose proof (updates_target w' r evs Hin) as Ht.
  unfold waiting at 2. destruct (relationships w' !! r) as [R'|] eqn:HR'.
  - rewrite Ht, Hq, payloadsFor_app. f_equal.
    apply waiting_alt; [done|]. intros R HR.
    destruct (Hr r R HR) as (R'' & HR'' & ? & ?).
    split; congruence.
  - rewrite Ht, app_nil_r. unfold waiting.
    destruct (relationships w !! r) as [R|] eqn:HR; [|done].
    destruct (Hr r R HR) as (R'' & HR'' & _). congruence.
Qed.

Lemma conserved_undisturbed (w w' : World) :
  wf w → wf w' → undisturbed w w' → conserved w → conserved w'.
Proof.
  intros Hwf Hwf' Hu Hc. apply (conserved_grow w w' []); try done.
  - apply (und_applied _ _ Hu).
  - by rewrite (und_enqueued _ _ Hu), app_nil_r.
  - intros g k. by rewrite (und_queued _ _ Hu), app_nil_r.
  - intros r R HR. exists R. split; [|done].
    by eapply lookup_weaken; [|apply (und_relationships _ _ Hu)].
Qed.

Lemma Graph_push_conserved (w w' : World) fuel g G i n p :
  wf w → inRunLoop w = true → graphs w !! g = Some G → conserved w →
  Graph_push fuel g i n p w = Some (tt, w') → conserved w'.
Proof.
  intros Hwf Hloop HG Hc Hrun.
  destruct (Graph_push_spec w fuel g G i n p Hwf HG (or_introl Hloop))
    as (r & w0 & E & Hwf' & Hext & Hd & _).
  rewrite Hrun in E. injection E as <-.
  apply (conserved_grow w w' [(g, relationshipKind i n, r, p)]); try done.
  - by rewrite (d_applied _ _ _ _ Hd), app_nil_r.
  - apply (d_enqueued _ _ _ _ Hd).
  - apply (d_queued _ _ _ _ Hd).
  - intros r' R HR.
    destruct (ext_relationships _ _ Hext r' R HR) as (R' & ? & ? & ? & _).
    eauto.
Qed.

Lemma flush_conserved (w w' : World) fuel g G :
  wf w → inRunLoop w = true → graphs w !! g = Some G → conserved w →
  flush fuel g w = Some (tt, w') → conserved w'.
Proof.
  intros Hwf Hloop HG Hc Hrun.
  destruct (flush_inv w w' fuel g G Hwf HG (or_introl Hloop) Hrun)
    as (evs & Hwf' & Ha & He & Hq & Hq' & _ & _ & Hall & _).
  destruct (flush_sound w w' fuel g G Hwf HG (or_introl Hloop) Hrun)
    as (_ & Hext & _).
  assert (Hkeep : ∀ r R R', relationships w !! r = Some R →
            relationships w' !! r = Some R' →
            rel_graph R' = rel_graph R ∧ kind R' = kind R).
  { intros r R R' HR HR'.
    destruct (ext_relationships _ _ Hext r R HR) as (R'' & ? & ? & ? & _).
    split; congruence. }
  assert (Hin : ∀ g0 k rp, rp ∈ eventsOf g0 k evs → entryOf w' g0 k rp).
  { intros g0 k rp H. destruct (decide (g0 = g)) as [->|Hne].
    - apply (proj1 (Forall_forall _ _) (queued_inv w' g k Hwf')).
      by rewrite Hq.
    - rewrite (eventsOf_other g g0 k evs Hall Hne) in H.
      by apply elem_of_nil in H. }
  intros r. unfold enqueuedFor.
  rewrite He, updates_app, payloadsFor_app. fold (enqueuedFor w r).
  rewrite (Hc r), (flush_pushedTo w w' g r Hwf Hwf' Ha), <- !app_assoc. f_equal.
  pose proof (updates_target w' r evs Hin) as Ht.
  unfold waiting at 2. destruct (relationships w' !! r) as [R'|] eqn:HR'.
  - rewrite Ht. destruct (decide (rel_graph R' = g)) as [Hg|Hg].
    + rewrite Hg, Hq. f_equal. symmetry. apply pending_waiting; [done|].
      intros R HR. destruct (Hkeep r R R' HR HR'). congruence.
    + rewrite (eventsOf_other g _ _ evs Hall Hg), Hq' by done.
      assert (Hnone : pending w g r = []).
      { destruct (relationships w !! r) as [R|] eqn:HR.
        - apply (pending_foreign w g r R Hwf HR).
          destruct (Hkeep r R R' HR HR'). congruence.
        - rewrite (pending_waiting w g r Hwf) by congruence.
          unfold waiting. by rewrite HR. }
      rewrite Hnone. simpl. rewrite app_nil_r.
      apply waiting_alt; [done|]. intros R HR.
      destruct (Hkeep r R R' HR HR'). done.
  - rewrite Ht, !app_nil_r.
    assert (HR : relationships w !! r = None).
    { destruct (relationships w !! r) as [R|] eqn:HR; [|done].
      destruct (ext_relationships _ _ Hext r R HR) as (R'' & ? & _).
      congruence. }
    rewrite (pending_waiting w g r Hwf) by congruence.
    unfold waiting. by rewrite HR.
Qed.

Lemma call_conserved c (w w' : World) :
  wf w → inRunLoop w = true → conserved w → call c w = Some (tt, w') →
  conserved w'.
Proof.
  intros Hwf Hloop Hc.
  destruct c as [s|s i|s i|s i n p fuel|s i n|s fuel|fuel]; simpl;
    unfold mbind, M_bind.
  - intros (g & w1 & H1 & [= <-])%bind_Some.
    destruct (graphFor_frame w w1 s g Hwf H1) as (Hwf1 & _ & _ & Hu & _).
    eauto using conserved_undisturbed.
  - intros (g & w1 & H1 & (c & w2 & H2 & [= <-])%bind_Some)%bind_Some.
    destruct (graphFor_frame w w1 s g Hwf H1)
      as (Hwf1 & (G & HG & _) & _ & Hu1 & _).
    destruct (Graph_get_frame w1 g G i Hwf1 HG)
      as (c' & w2' & E & Hwf2 & Hu2 & _).
    rewrite H2 in E. injection E as <- <-.
    eauto 8 using conserved_undisturbed.
  - intros (g & w1 & H1 & (d & w2 & H2 & [= <-])%bind_Some)%bind_Some.
    destruct (graphFor_frame w w1 s g Hwf H1)
      as (Hwf1 & (G & HG & _) & _ & Hu1 & _).
    destruct (Graph_getImplicit_spec w1 g G i Hwf1 HG)
      as (d' & w2' & E & Hwf2 & _).
    rewrite H2 in E. injection E as <- <-.
    pose proof (Graph_getImplicit_undisturbed w1 w2 g G i d HG H2) as Hu2.
    eauto 8 using conserved_undisturbed.
  - intros (g & w1 & H1 & H2)%bind_Some.
    destruct (graphFor_frame w w1 s g Hwf H1)
      as (Hwf1 & (G & HG & _) & _ & Hu1 & _).
    eapply Graph_push_conserved; [exact Hwf1| |exact HG| |exact H2].
    + by rewrite (graphFor_inRunLoop _ _ _ _ H1).
    + eauto using conserved_undisturbed.
  - intros (r & w1 & H1 & [= <-])%bind_Some.
    destruct (relationshipStateFor_spec w s i n Hwf)
      as (g & r' & w1' & E & Hwf1 & Hu & _).
    rewrite H1 in E. injection E as <- <-.
    eauto using conserved_undisturbed.
  - intros (g & w1 & H1 & H2)%bind_Some.
    destruct (graphFor_frame w w1 s g Hwf H1)
      as (Hwf1 & (G & HG & _) & _ & Hu1 & _).
    eapply flush_conserved; [exact Hwf1| |exact HG| |exact H2].
    + by rewrite (graphFor_inRunLoop _ _ _ _ H1).
    + eauto using conserved_undisturbed.
  - unfold runScheduled, runScheduled_via. fold flush. munfold.
    destruct (flushRelationships w) as [|g rest]; simpl.
    { by intros [= <-]. }
    intros Hrun.
    set (w1 := with_flushRelationships (λ _, rest) w) in *.
    destruct (graphs w1 !! g) as [G|] eqn:HG.
    2:{ by rewrite (flush_dead w1 fuel g HG) in Hrun. }
    apply (flush_conserved w1 w' fuel g G);
      [by apply wf_flushRelationships|exact Hloop|exact HG|exact Hc|exact Hrun].
Qed.

Lemma reachable_conserved (w : World) : reachable w → conserved w.
Proof.
  intros [cs Hrun%inRun_init].
  assert (Hgen : ∀ cs (w0 w1 : World), wf w0 → inRunLoop w0 = true →
            conserved w0 → run cs w0 = Some (tt, w1) → conserved w1).
  { clear. induction cs as [|c cs IH]; intros w0 w1 Hwf Hloop Hc.
    { by intros [= <-]. }
    unfold run. simpl. unfold mbind, M_bind.
    intros ([] & w2 & H1 & H2)%bind_Some.
    destruct (call_sound c w0 w2 Hwf Hloop H1) as (Hwf2 & Hext & _).
    apply (IH w2 w1 Hwf2); [| |exact H2].
    - by rewrite (ext_inRunLoop _ _ Hext).
    - exact (call_conserved c w0 w2 Hwf Hloop Hc H1). }
  apply (Hgen cs _ w wf_begin eq_refl); [|done].
  intros r. unfold enqueuedFor, pushedTo, waiting. simpl.
  by rewrite lookup_empty.
Qed.

(** X16. No update is lost, duplicated or overtaken inside a run loop.  In
    the store of any program that runs in an open run loop and in which no
    call throws, direct or repeated flushes and relationships that push while
    they are updated included, the payloads pushed so far for a relationship
    are, in the order of the pushes, the payloads it has been handed followed
    by the payloads that wait for it in the queues of its graph. *)
Theorem updates_are_conserved (w : World) r R :
  reachable w → relationships w !! r = Some R →
  enqueuedFor w r = pushedTo w r ++ pending w (rel_graph R) r.
Proof.
  intros Hreach HR. rewrite (reachable_conserved w Hreach r).
  f_equal. symmetry. apply pending_waiting; [by apply reachable_wf|].
  intros R' HR'. congruence.
Qed.

(** X17. Once the run loop has no flush left to run, nothing waits: in the
    store of any program that runs in an open run loop, with no call that
    throws, and whose run loop queue is empty, every queue of every graph is
    empty and every relationship has been handed, in the order of the pushes,
    all the payloads pushed for it. *)
Theorem drained_run_loop_has_applied_everything (w : World) :
  reachable w → flushRelationships w = [] →
  (∀ g k, queued w g k = []) ∧ ∀ r, enqueuedFor w r = pushedTo w r.
Proof.
  intros Hreach Hempty.
  destruct (reachable_covered w Hreach) as (Hwf & Hc).
  assert (Hq : ∀ g k, queued w g k = []).
  { intros g k. destruct (queued w g k) as [|rp ps] eqn:E; [done|].
    assert (Hin : g ∈ flushRelationships w).
    { apply (proj1 (covered_alt w Hwf) Hc g k). by rewrite E. }
    rewrite Hempty in Hin. by apply elem_of_nil in Hin. }
  split; [done|]. intros r. rewrite (reachable_conserved w Hreach r).
  unfold waiting. destruct (relationships w !! r) as [R|].
  - by rewrite Hq, app_nil_r.
  - by rewrite app_nil_r.
Qed.

End GraphProofs.

(** ** The identifier cache *)

Section IdentifierCacheProofs.

Import IdentifierCache.

Variable generateLid : Cache → string.

#[local] Abbreviation getOrCreate := (getOrCreateRecordIdentifier generateLid).

Lemma cache_wf_empty : cache_wf empty.
Proof.
  split; simpl.
  - intros r [? H]. by rewrite lookup_empty in H.
  - intros k r H. by rewrite lookup_empty in H.
Qed.

Lemma allocate_grows t i c :
  cache_wf c →
  (∀ j, i = Some j → byId c !! (t, j) = None) →
  cache_wf (allocate generateLid t i c).2
  ∧ byId c ⊆ byId (allocate generateLid t i c).2
  ∧ identifierObjects c ⊆ identifierObjects (allocate generateLid t i c).2.
Proof.
  intros [W1 W2] Hnew. unfold allocate. simpl.
  assert (Hfresh : identifierObjects c !! nextIdentifier c = None).
  { apply eq_None_not_Some. intros H%W1. lia. }
  split_and!.
  - split; simpl.
    + intros r Hr. apply lookup_insert_is_Some' in Hr as [<-|Hr]; [lia|].
      apply W1 in Hr. lia.
    + intros k r Hk. rewrite lookup_insert_is_Some'.
      destruct i as [j|]; [|right; by eapply W2].
      apply lookup_insert_Some in Hk as [[_ <-]|[_ Hk]]; [by left|].
      right. by eapply W2.
  - destruct i as [j|]; [|done]. apply insert_subseteq. by apply Hnew.
  - by apply insert_subseteq.
Qed.

Lemma getOrCreate_grows t i l c :
  cache_wf c →
  cache_wf (getOrCreate t i l c).2
  ∧ byId c ⊆ byId (getOrCreate t i l c).2
  ∧ identifierObjects c ⊆ identifierObjects (getOrCreate t i l c).2.
Proof.
  intros Hwf. unfold getOrCreateRecordIdentifier.
  destruct i as [j|].
  - destruct (byId c !! (t, j)) as [r|] eqn:Hj; [done|].
    apply allocate_grows; [done|]. by intros ? [= <-].
  - destruct l as [l|]; [destruct (byLid c !! l); [done|]|];
      by apply allocate_grows.
Qed.

Lemma lookups_grows calls : ∀ c,
  cache_wf c →
  cache_wf (lookups generateLid calls c)
  ∧ byId c ⊆ byId (lookups generateLid calls c)
  ∧ identifierObjects c ⊆ identifierObjects (lookups generateLid calls c).
Proof.
  induction calls as [|[[t i] l] calls IH]; intros c Hwf; [done|].
  simpl. destruct (getOrCreate_grows t i l c Hwf) as (Hwf1 & Hb1 & Ho1).
  destruct (IH _ Hwf1) as (Hwf2 & Hb2 & Ho2).
  split_and!; [done|by etrans..].
Qed.

Lemma getOrCreate_registers t j l c :
  cache_wf c →
  byId (getOrCreate t (Some j) l c).2 !! (t, j)
    = Some (getOrCreate t (Some j) l c).1.
Proof.
  intros Hwf. unfold getOrCreateRecordIdentifier.
  destruct (byId c !! (t, j)) as [r|] eqn:Hj; [done|].
  simpl. by rewrite lookup_insert_eq.
Qed.

Lemma getOrCreate_cached t j l c r :
  byId c !! (t, j) = Some r → getOrCreate t (Some j) l c = (r, c).
Proof. intros H. unfold getOrCreateRecordIdentifier. by rewrite H. Qed.

(** C7. In a cache built by lookups from the empty one, a lookup of (type,
    id) with a known id yields an identifier object; the same lookup
    repeated at once, or after any further lookups, whatever client id it
    carries, returns that same reference and leaves the cache as it is, and
    the identifier object is the one it was.  [createRecordDataFor] hands
    that identifier to the record data it creates. *)
Theorem getOrCreate_returns_identical_identifier
    (before between : list (string * option string * option string))
    (type id : string) (clientId clientId' : option string)
    (lid : string) (storeWrapper : Ref) :
  let c := lookups generateLid before empty in
  let first := getOrCreate type (Some id) clientId c in
  let c' := lookups generateLid between first.2 in
  getOrCreate type (Some id) clientId' first.2 = first
  ∧ getOrCreate type (Some id) clientId' c' = (first.1, c')
  ∧ is_Some (identifierObjects first.2 !! first.1)
  ∧ identifierObjects c' !! first.1 = identifierObjects first.2 !! first.1
  ∧ createRecordDataFor generateLid true type (Some id) lid storeWrapper c'
    = (RecordDataFor first.1 storeWrapper, c').
Proof.
  intros c first c'.
  destruct (lookups_grows before empty cache_wf_empty) as (Hwf & _).
  fold c in Hwf.
  destruct (getOrCreate_grows type (Some id) clientId c Hwf) as (Hwf1 & _).
  fold first in Hwf1.
  pose proof (getOrCreate_registers type id clientId c Hwf) as Hreg.
  fold first in Hreg.
  destruct (lookups_grows between first.2 Hwf1) as (_ & Hb & Ho).
  fold c' in Hb, Ho.
  destruct (cwf_byId _ Hwf1 _ _ Hreg) as [o Hobj].
  split_and!.
  - rewrite (getOrCreate_cached _ _ _ _ _ Hreg). by destruct first.
  - apply getOrCreate_cached. by eapply lookup_weaken.
  - by rewrite Hobj.
  - rewrite Hobj. by eapply lookup_weaken.
  - unfold createRecordDataFor.
    rewrite (getOrCreate_cached type id (Some lid) c' first.1); [done|].
    by eapply lookup_weaken.
Qed.

End IdentifierCacheProofs.

(** * The claims at work on the example store *)

Section Witnesses.

Import Example.

Open Scope string_scope.

(** The three pushes wait in the queues, to-many and to-one apart, and one
    flush is scheduled. *)
Example store_queues :
  queued store 1 HasMany = [(5%positive, "a"); (5%positive, "c")]
  ∧ queued store 1 BelongsTo = [(6%positive, "b")]
  ∧ applied store = []
  ∧ flushRelationships store = [1%positive]
  ∧ inRunLoop store = true.
Proof. vm_compute. done. Qed.

(** The task of the run loop applies the to-many updates first. *)
Example store_flushed :
  (λ x, (applied x.2, queued x.2 1 HasMany, queued x.2 1 BelongsTo,
         flushRelationships x.2)) <$> runScheduled schema quiet 3 store
  = Some ([(5%positive, "a"); (5%positive, "c"); (6%positive, "b")], [], [], []).
Proof. vm_compute. done. Qed.

(** With relationships that call back, the update pushed during the flush
    waits in the new queue and a new flush is scheduled. *)
Example busy_flushed :
  (λ x, (applied x.2, queued x.2 1 HasMany, queued x.2 1 BelongsTo,
         flushRelationships x.2)) <$> runScheduled schema chatty 3 busy
  = Some ([(5%positive, "a"); (5%positive, "c"); (6%positive, "b")], [],
          [(10%positive, "echo")], [1%positive]).
Proof. vm_compute. done. Qed.

(** A loop that is given too little fuel does not return. *)
Example store_out_of_fuel : runScheduled schema quiet 2 store = None.
Proof. vm_compute. done. Qed.

(** With no run loop open [backburner.join] runs a run loop of its own
    inside the first push: the update is applied before the push returns,
    and the flag is set afterwards.  The second push finds the flag set and
    only queues: its update waits with no flush scheduled. *)
Example two_pushes_outside_run_loop :
  let w := outside quiet [CallPush 1 10 "comments" "a" 5;
                          CallPush 1 10 "comments" "b" 5]%positive in
  applied w = [(5%positive, "a")]
  ∧ queued w 1 HasMany = [(5%positive, "b")]
  ∧ flushRelationships w = []
  ∧ _nextFlush <$> graphs w !! 1%positive = Some true
  ∧ inRunLoop w = false.
Proof. vm_compute. done. Qed.

(** A direct flush then applies what waited. *)
Example pushes_and_flush_outside_run_loop :
  let w := outside quiet [CallPush 1 10 "author" "b" 5;
                          CallPush 1 10 "comments" "a" 5;
                          CallFlush 1 5]%positive in
  applied w = [(5%positive, "b"); (8%positive, "a")]
  ∧ queued w 1 HasMany = [] ∧ queued w 1 BelongsTo = []
  ∧ flushRelationships w = [].
Proof. vm_compute. done. Qed.

(** A push made with no run loop open is applied before it returns: the
    relationship has been handed the payload, nothing waits in the queue and
    no flush is scheduled. *)
Lemma push_outside_run_loop_is_applied_at_once :
  inRunLoop bare = false
  ∧ Graphs bare !! 1%positive = Some 1%positive
  ∧ applied bare = []
  ∧ (λ x, (applied x.2, pushedTo x.2 5, queued x.2 1 HasMany,
           flushRelationships x.2))
      <$> Graph_push schema quiet 5 1 10 "comments" "a" bare
    = Some ([(5%positive, "a")], ["a"], [], [])
  ∧ ¬ (∀ (w w' : @World string) fuel g i n p,
         Graphs w !! 1%positive = Some g →
         Graph_push schema quiet fuel g i n p w = Some (tt, w') →
         applied w' = applied w).
Proof.
  split_and!; [vm_compute; reflexivity..|].
  intros Hall.
  destruct (Graph_push schema quiet 5 1 10 "comments" "a" bare)
    as [[[] w']|] eqn:E; [|vm_compute in E; discriminate].
  assert (Ha : applied w' = applied bare).
  { apply (Hall bare w' 5 1%positive 10%positive "comments" "a");
      [vm_compute; reflexivity|exact E]. }
  assert (Hw : applied w' = [(5%positive, "a")]).
  { vm_compute in E. injection E as <-. reflexivity. }
  rewrite Hw in Ha. vm_compute in Ha. discriminate.
Qed.

Lemma push_enqueues_flush_applies_in_order_witness :
  produced schema quiet late
  ∧ inRunLoop late = true
  ∧ Graphs late !! 1%positive = Some 1%positive
  ∧ length (queued late 1 HasMany) + 1 < 10
  ∧ length (queued late 1 BelongsTo) + 1 < 10
  ∧ ∃ w1, pushAll schema quiet 10 1 [(10%positive, "comments", "d")] late
            = Some (tt, w1)
          ∧ applied w1 = applied late.
Proof.
  assert (H1 : produced schema quiet late).
  { exists [Do (CallPush 1 10 "comments" "a" 5); Begin]%positive.
    vm_compute. reflexivity. }
  assert (H0 : inRunLoop late = true) by (vm_compute; reflexivity).
  assert (H2 : Graphs late !! 1%positive = Some 1%positive)
    by (vm_compute; reflexivity).
  assert (H3 : length (queued late 1 HasMany) + 1 < 10) by (vm_compute; lia).
  assert (H4 : length (queued late 1 BelongsTo) + 1 < 10) by (vm_compute; lia).
  split_and!; [exact H1|exact H0|exact H2|exact H3|exact H4|].
  destruct (push_enqueues_flush_applies_in_order schema quiet late 1 1
              [(10%positive, "comments", "d")] 10 H1 H0 H2 H3 H4)
    as (w1 & E & Ha & _).
  exists w1. split; [exact E|exact Ha].
Defined.





Lemma get_creates_once_and_caches_witness :
  produced schema quiet adrift
  ∧ Graphs adrift !! 1%positive = Some 1%positive
  ∧ ∃ c w1, Graph_get 1 20 adrift = Some (c, w1)
            ∧ Graph_get 1 20 w1 = Some (c, w1).
Proof.
  assert (H1 : produced schema quiet adrift).
  { exists [Do (CallPush 1 10 "comments" "a" 5);
            Do (CallPush 1 10 "comments" "b" 5)]%positive.
    vm_compute. reflexivity. }
  assert (H2 : Graphs adrift !! 1%positive = Some 1%positive)
    by (vm_compute; reflexivity).
  split_and!; [exact H1|exact H2|].
  destruct (get_creates_once_and_caches schema quiet adrift 1 1 20 H1 H2)
    as (G & c & w1 & _ & E & _ & _ & Hlater & _).
  exists c, w1. split; [exact E|]. apply (Hlater []). reflexivity.
Defined.

Lemma graph_is_singleton_per_store_witness :
  produced schema quiet adrift
  ∧ ∃ g w1 G, graphFor 2 adrift = Some (g, w1)
      ∧ graphs w1 !! g = Some G ∧ storeWrapper G = 2%positive
      ∧ graphFor 2 w1 = Some (g, w1).
Proof.
  assert (H1 : produced schema quiet adrift).
  { exists [Do (CallPush 1 10 "comments" "a" 5);
            Do (CallPush 1 10 "comments" "b" 5)]%positive.
    vm_compute. reflexivity. }
  split; [exact H1|].
  destruct (graph_is_singleton_per_store schema quiet adrift H1) as [Hsame _].
  destruct (Hsame 2%positive) as (g & w1 & G & E & HG & Hs & _ & _ & Hlater).
  exists g, w1, G. split_and!; [exact E|exact HG|exact Hs|].
  apply (Hlater []). reflexivity.
Defined.



Lemma legacy_record_data_for_agrees_witness :
  "comments" ≠ EmptyString
  ∧ legacy_relationshipStateFor schema (λ _, None) id 1 (VObject 10)
      (VString "comments") store
    = relationshipStateFor schema 1 10 "comments" store.
Proof.
  assert (H1 : "comments" ≠ EmptyString) by discriminate.
  split; [exact H1|].
  exact (proj2 (legacy_record_data_for_agrees schema (λ _, None) id store
                  1 10 "comments" H1)).
Defined.

Lemma push_materializes_lookup_state_witness :
  produced schema quiet adrift
  ∧ graphs adrift !! 1%positive = Some graphAdrift
  ∧ (inRunLoop adrift = true ∨ _nextFlush graphAdrift = true)
  ∧ ∃ w' c r, Graph_push schema quiet 5 1 20 "author" "d" adrift = Some (tt, w')
      ∧ Graph_get 1 20 w' = Some (c, w')
      ∧ Relationships_get schema c "author" w' = Some (r, w').
Proof.
  assert (H1 : produced schema quiet adrift).
  { exists [Do (CallPush 1 10 "comments" "a" 5);
            Do (CallPush 1 10 "comments" "b" 5)]%positive.
    vm_compute. reflexivity. }
  assert (H2 : graphs adrift !! 1%positive = Some graphAdrift)
    by (vm_compute; reflexivity).
  assert (H3 : inRunLoop adrift = true ∨ _nextFlush graphAdrift = true)
    by (right; reflexivity).
  split_and!; [exact H1|exact H2|exact H3|].
  destruct (push_materializes_lookup_state schema quiet adrift 5 1 graphAdrift
              20 "author" "d" H1 H2 H3)
    as (w' & G' & c & C & r & R & xs & E & _ & _ & _ & _ & _ & _ & _ & Hg & Hr
        & _).
  exists w', c, r. split_and!; [exact E|exact Hg|exact Hr].
Defined.

(** Two lookups of [("post", "1")], with a lookup of a local record in
    between, return the same identifier; the third allocates nothing. *)
Example cache_lookups :
  let gen := λ c : IdentifierCache.Cache, "@lid:fresh" in
  let c1 := IdentifierCache.getOrCreateRecordIdentifier gen "post" (Some "1")
              (Some "a") IdentifierCache.empty in
  let c2 := IdentifierCache.getOrCreateRecordIdentifier gen "post" None
              (Some "b") c1.2 in
  let c3 := IdentifierCache.getOrCreateRecordIdentifier gen "post" (Some "1")
              None c2.2 in
  c1.1 = 1%positive ∧ c2.1 = 2%positive ∧ c3.1 = 1%positive ∧ c3.2 = c2.2.
Proof. vm_compute. done. Qed.

(** ** Beyond the batching contract *)

(** After the task of the run loop nothing waits and both relationships
    have their payloads. *)
Example drained_store :
  flushRelationships drained = []
  ∧ pushedTo drained 5 = ["a"; "c"] ∧ pushedTo drained 6 = ["b"]
  ∧ enqueuedFor drained 5 = ["a"; "c"] ∧ enqueuedFor drained 6 = ["b"].
Proof. vm_compute. done. Qed.

Lemma getImplicit_creates_once_and_caches_witness :
  produced schema quiet store
  ∧ Graphs store !! 1%positive = Some 1%positive
  ∧ ∃ d w1, Graph_getImplicit 1 10 store = Some (d, w1)
            ∧ implicitOf w1 1 !! 10%positive = Some d.
Proof.
  assert (H1 : produced schema quiet store)
    by (exists (Begin :: (Do <$> program)); vm_compute; reflexivity).
  assert (H2 : Graphs store !! 1%positive = Some 1%positive)
    by (vm_compute; reflexivity).
  split_and!; [exact H1|exact H2|].
  destruct (getImplicit_creates_once_and_caches schema quiet store 1 1 10 H1 H2)
    as (d & w1 & E & _ & _ & Hd & _).
  exists d, w1. split; [exact E|exact Hd].
Defined.

Lemma implicit_lookups_read_the_dictionary_witness :
  produced schema quiet store
  ∧ ∃ (D : gmap string Ref) w1,
      implicitRelationshipStateFor 1 10 "inverse" store
        = Some (D !! "inverse", w1)
      ∧ undisturbed store w1.
Proof.
  assert (H1 : produced schema quiet store)
    by (exists (Begin :: (Do <$> program)); vm_compute; reflexivity).
  split; [exact H1|].
  destruct (implicit_lookups_read_the_dictionary schema quiet store 1 10
              "inverse" H1)
    as (g & d & D & w1 & _ & E & _ & _ & _ & _ & Hu & _).
  exists D, w1. split; [exact E|exact Hu].
Defined.

Lemma lookups_leave_batches_alone_witness :
  produced schema quiet store
  ∧ ∃ r w1, relationshipStateFor schema 1 20 "author" store = Some (r, w1)
            ∧ undisturbed store w1.
Proof.
  assert (H1 : produced schema quiet store)
    by (exists (Begin :: (Do <$> program)); vm_compute; reflexivity).
  split; [exact H1|].
  destruct (lookups_leave_batches_alone schema quiet store 1 20 "author" H1)
    as (r & w1 & E & Hu & _).
  exists r, w1. split; [exact E|exact Hu].
Defined.

Lemma relationshipsFor_one_container_per_identifier_witness :
  produced schema quiet store
  ∧ ∃ c w1 c' w2, relationshipsFor 1 10 store = Some (c, w1)
      ∧ relationshipsFor 2 10 w1 = Some (c', w2)
      ∧ (c = c' ↔ 1%positive = 2%positive ∧ 10%positive = 10%positive).
Proof.
  assert (H1 : produced schema quiet store)
    by (exists (Begin :: (Do <$> program)); vm_compute; reflexivity).
  split; [exact H1|].
  exact (relationshipsFor_one_container_per_identifier schema quiet store
           1 10 2 10 H1).
Defined.

Lemma legacy_call_reads_internal_model_witness :
  internalModel10 7 = Some {| im_identifier := 10; im_storeWrapper := 1 |}
  ∧ truthy VUndefined = false
  ∧ legacy_relationshipStateFor schema internalModel10 id 7
      (VString "comments") VUndefined store
    = relationshipStateFor schema 1 10 "comments" store.
Proof.
  assert (H1 : internalModel10 7
               = Some {| im_identifier := 10; im_storeWrapper := 1 |})
    by reflexivity.
  assert (H2 : truthy VUndefined = false) by reflexivity.
  split_and!; [exact H1|exact H2|].
  exact (proj1 (legacy_call_reads_internal_model schema internalModel10 id
                  store 7 _ "comments" VUndefined H1 H2)).
Defined.

Lemma flush_applies_to_many_then_to_one_witness :
  produced schema quiet idle
  ∧ inRunLoop idle = true
  ∧ graphs idle !! 1%positive = Some graphIdle
  ∧ length (queued idle 1 HasMany) + 2 < 10
  ∧ length (queued idle 1 BelongsTo) + 2 < 10
  ∧ ∃ evs w1 w2,
      pushAll schema quiet 10 1 [(10%positive, "author", "b");
                                 (10%positive, "comments", "a")] idle
        = Some (tt, w1)
      ∧ flush schema quiet 10 1 w1 = Some (tt, w2)
      ∧ applied w2 =
          (applied idle ++ (queued idle 1 HasMany ++ ofKind HasMany evs)
                        ++ (queued idle 1 BelongsTo ++ ofKind BelongsTo evs))%list.
Proof.
  assert (H1 : produced schema quiet idle).
  { exists [Begin; Do (CallGet 1 10)]%positive. vm_compute. reflexivity. }
  assert (H0 : inRunLoop idle = true) by (vm_compute; reflexivity).
  assert (H2 : graphs idle !! 1%positive = Some graphIdle)
    by (vm_compute; reflexivity).
  assert (H3 : length (queued idle 1 HasMany) + 2 < 10) by (vm_compute; lia).
  assert (H4 : length (queued idle 1 BelongsTo) + 2 < 10) by (vm_compute; lia).
  split_and!; [exact H1|exact H0|exact H2|exact H3|exact H4|].
  destruct (flush_applies_to_many_then_to_one schema quiet idle 1 graphIdle
              [(10%positive, "author", "b"); (10%positive, "comments", "a")]
              10 H1 H0 H2 H3 H4)
    as (evs & w1 & w2 & E1 & _ & _ & E2 & Ha).
  exists evs, w1, w2. split_and!; [exact E1|exact E2|exact Ha].
Defined.

Lemma queued_update_has_flush_scheduled_witness :
  reachable schema quiet store
  ∧ queued store 1 HasMany ≠ []
  ∧ 1%positive ∈ flushRelationships store.
Proof.
  assert (H1 : reachable schema quiet store)
    by (exists program; vm_compute; reflexivity).
  assert (H2 : queued store 1 HasMany ≠ []) by (vm_compute; discriminate).
  split_and!; [exact H1|exact H2|].
  exact (proj1 (queued_update_has_flush_scheduled schema quiet store 1 HasMany
                  H1 H2)).
Defined.

Lemma nextFlush_set_while_queued_witness :
  reachable schema quiet store
  ∧ graphs store !! 1%positive = Some graph1
  ∧ (_nextFlush graph1 = true
     ↔ queued store 1 HasMany ≠ [] ∨ queued store 1 BelongsTo ≠ []).
Proof.
  assert (H1 : reachable schema quiet store)
    by (exists program; vm_compute; reflexivity).
  assert (H2 : graphs store !! 1%positive = Some graph1)
    by (vm_compute; reflexivity).
  split_and!; [exact H1|exact H2|].
  exact (nextFlush_set_while_queued schema quiet store 1 graph1 H1 H2).
Defined.

Lemma queues_hold_pairs_of_their_kind_witness :
  produced schema quiet store
  ∧ graphs store !! 1%positive = Some graph1
  ∧ ∃ ps, arrays store !! queue_of (_queued graph1) HasMany = Some (slots ps)
          ∧ queued store 1 HasMany = ps.
Proof.
  assert (H1 : produced schema quiet store)
    by (exists (Begin :: (Do <$> program)); vm_compute; reflexivity).
  assert (H2 : graphs store !! 1%positive = Some graph1)
    by (vm_compute; reflexivity).
  split_and!; [exact H1|exact H2|].
  destruct (queues_hold_pairs_of_their_kind schema quiet store 1 graph1 HasMany
              H1 H2)
    as [(ps & Ha & Hq & _) _].
  exists ps. split; [exact Ha|exact Hq].
Defined.

Lemma push_changes_one_queue_witness :
  produced schema quiet adrift
  ∧ graphs adrift !! 1%positive = Some graphAdrift
  ∧ (inRunLoop adrift = true ∨ _nextFlush graphAdrift = true)
  ∧ ∃ r w1, Graph_push schema quiet 5 1 10 "comments" "d" adrift = Some (tt, w1)
            ∧ queued w1 1 (schema 10 "comments") =
                (queued adrift 1 (schema 10 "comments") ++ [(r, "d")])%list
            ∧ applied w1 = applied adrift.
Proof.
  assert (H1 : produced schema quiet adrift).
  { exists [Do (CallPush 1 10 "comments" "a" 5);
            Do (CallPush 1 10 "comments" "b" 5)]%positive.
    vm_compute. reflexivity. }
  assert (H2 : graphs adrift !! 1%positive = Some graphAdrift)
    by (vm_compute; reflexivity).
  assert (H3 : inRunLoop adrift = true ∨ _nextFlush graphAdrift = true)
    by (right; reflexivity).
  split_and!; [exact H1|exact H2|exact H3|].
  destruct (push_changes_one_queue schema quiet adrift 5 1 graphAdrift 10
              "comments" "d" H1 H2 H3)
    as (r & w1 & E & _ & Hq & _ & _ & Ha).
  exists r, w1. split_and!; [exact E|exact Hq|exact Ha].
Defined.

Lemma flush_leaves_other_graphs_alone_witness :
  reachable schema chatty busy
  ∧ Graphs busy !! 1%positive = Some 1%positive
  ∧ length (queued busy 1 HasMany) < 3
  ∧ length (queued busy 1 BelongsTo) < 3
  ∧ ∃ w1, flush schema chatty 3 1 busy = Some (tt, w1)
          ∧ Graphs w1 = Graphs busy.
Proof.
  assert (H1 : reachable schema chatty busy)
    by (exists program; vm_compute; reflexivity).
  assert (H2 : Graphs busy !! 1%positive = Some 1%positive)
    by (vm_compute; reflexivity).
  assert (H3 : length (queued busy 1 HasMany) < 3) by (vm_compute; lia).
  assert (H4 : length (queued busy 1 BelongsTo) < 3) by (vm_compute; lia).
  split_and!; [exact H1|exact H2|exact H3|exact H4|].
  destruct (flush_leaves_other_graphs_alone schema chatty busy 1 1 3
              H1 H2 H3 H4)
    as (w1 & E & _ & _ & _ & HG).
  exists w1. split; [exact E|exact HG].
Defined.

Lemma graphFor_creates_idle_graph_witness :
  produced schema quiet store
  ∧ ∃ g G w1, graphFor 2 store = Some (g, w1)
              ∧ graphs w1 !! g = Some G ∧ storeWrapper G = 2%positive
              ∧ undisturbed store w1.
Proof.
  assert (H1 : produced schema quiet store)
    by (exists (Begin :: (Do <$> program)); vm_compute; reflexivity).
  split; [exact H1|].
  destruct (graphFor_creates_idle_graph schema quiet store 2 H1)
    as (g & G & w1 & E & HG & Hs & Hu & _).
  exists g, G, w1. split_and!; [exact E|exact HG|exact Hs|exact Hu].
Defined.

Lemma push_targets_the_looked_up_relationship_witness :
  produced schema quiet late
  ∧ inRunLoop late = true
  ∧ ∃ g r w1 w2,
      relationshipStateFor schema 1 10 "author" late = Some (r, w1)
      ∧ Graph_push schema quiet 5 g 10 "author" "e" w1 = Some (tt, w2)
      ∧ enqueued w2 =
          (enqueued w1 ++ [(g, schema 10 "author", r, "e")])%list.
Proof.
  assert (H1 : produced schema quiet late).
  { exists [Do (CallPush 1 10 "comments" "a" 5); Begin]%positive.
    vm_compute. reflexivity. }
  assert (H2 : inRunLoop late = true) by (vm_compute; reflexivity).
  split_and!; [exact H1|exact H2|].
  destruct (push_targets_the_looked_up_relationship schema quiet late 5 1 10
              "author" "e" H1 H2)
    as (g & r & w1 & w2 & E1 & _ & E2 & He & _).
  exists g, r, w1, w2. split_and!; [exact E1|exact E2|exact He].
Defined.

Lemma updates_are_conserved_witness :
  reachable schema quiet store
  ∧ relationships store !! 5%positive = Some comments10
  ∧ enqueuedFor store 5 =
      (pushedTo store 5 ++ pending store (rel_graph comments10) 5)%list.
Proof.
  assert (H1 : reachable schema quiet store)
    by (exists program; vm_compute; reflexivity).
  assert (H2 : relationships store !! 5%positive = Some comments10)
    by (vm_compute; reflexivity).
  split_and!; [exact H1|exact H2|].
  exact (updates_are_conserved schema quiet store 5 comments10 H1 H2).
Defined.

Lemma drained_run_loop_has_applied_everything_witness :
  reachable schema quiet drained
  ∧ flushRelationships drained = []
  ∧ ∀ r, enqueuedFor drained r = pushedTo drained r.
Proof.
  assert (H1 : reachable schema quiet drained)
    by (exists turn; vm_compute; reflexivity).
  assert (H2 : flushRelationships drained = []) by (vm_compute; reflexivity).
  split_and!; [exact H1|exact H2|].
  exact (proj2 (drained_run_loop_has_applied_everything schema quiet drained
                  H1 H2)).
Defined.

End Witnesses.
